(** * Verification of the CSV loader [readDataFromCSV] (src/helpers/csvUtil.ts)

    The helper opens a file as a stream, pipes it through the [csv()]
    transform of the csv-parser package, pushes every decoded row onto a
    local array and settles a promise from the events of the piped stream.

    The definitions come first:
    - the JavaScript values involved (byte buffers and their decoding, row
      objects, errors, promises) and the file system;
    - [Node]: the event plumbing of the source ([createReadStream], [pipe],
      the three handlers and the promise), generic in the transform stream,
      in a process that an uncaught exception ends;
    - [CsvParser]: the transform created by [csv()] with its default options,
      for the releases of the package;
    - [Loader]: the two put together, the function the callers use;
    - [CsvText]: what a delimited text says, line by line and field by
      field, as a reference for the parser;
    - [Process], [CsvTable], [CsvLines], [CsvQuoted], [CsvLayout]: the array
      of an invocation, and texts given by their tables, lines and cells.
    The properties follow: [NodeFacts], [CsvFacts] and [LoaderFacts], then
    [PlumbingFacts] (what an invocation does to the process), [SizeFacts],
    [RowFacts], [CrlfFacts], [QuotedFacts] and [DatasetFacts] (what the
    loader makes of the content of a file). *)

From Stdlib Require Import ZArith Ascii String List Lia Bool.
From stdpp Require Import gmap strings list fin_maps pretty.
Import ListNotations.
Local Open Scope Z_scope.

(** ** JavaScript values *)

(** A [Buffer] is a sequence of bytes. *)
Abbreviation Buffer := (list ascii).

(** [buffer[i]]: [None] stands for [undefined] (index out of range). *)
Definition buf_get (buffer : Buffer) (i : Z) : option ascii :=
  if i <? 0 then None else nth_error buffer (Z.to_nat i).

(** [buffer[i] === c] *)
Definition byte_is (o : option ascii) (c : ascii) : bool :=
  match o with
  | Some x => Ascii.eqb x c
  | None => false
  end.

(** [buffer.length] *)
Definition buf_length (buffer : Buffer) : Z := Z.of_nat (length buffer).

(** [buffer.toString('utf-8')].  A JavaScript string is kept as the bytes of
    its UTF-8 encoding.  Decoding leaves every well-formed sequence as it is
    and replaces what is not well formed by U+FFFD, once for every maximal
    part of a sequence that could have been continued, as the decoder of the
    runtime does. *)
Definition byte_in (lo hi : N) (c : ascii) : bool :=
  ((lo <=? N_of_ascii c) && (N_of_ascii c <=? hi))%N.

(** U+FFFD in UTF-8. *)
Definition replacement : Buffer := ["239"; "191"; "189"]%char.

(** The second byte that may follow a lead byte of a sequence of three or four
    bytes: overlong forms, surrogates and code points above U+10FFFF are
    excluded. *)
Definition second_lo (lead : ascii) : N :=
  if byte_in 224 224 lead then 160 else if byte_in 240 240 lead then 144 else 128.

Definition second_hi (lead : ascii) : N :=
  if byte_in 237 237 lead then 159 else if byte_in 244 244 lead then 143 else 191.

Fixpoint utf8_decode (b : Buffer) : Buffer :=
  match b with
  | [] => []
  | x :: rest =>
      if byte_in 0 127 x then x :: utf8_decode rest
      else if byte_in 194 223 x then
        match rest with
        | y :: rest1 =>
            if byte_in 128 191 y then x :: y :: utf8_decode rest1
            else replacement ++ utf8_decode rest
        | [] => replacement
        end
      else if byte_in 224 239 x then
        match rest with
        | y :: rest1 =>
            if byte_in (second_lo x) (second_hi x) y then
              match rest1 with
              | z :: rest2 =>
                  if byte_in 128 191 z then x :: y :: z :: utf8_decode rest2
                  else replacement ++ utf8_decode rest1
              | [] => replacement
              end
            else replacement ++ utf8_decode rest
        | [] => replacement
        end
      else if byte_in 240 244 x then
        match rest with
        | y :: rest1 =>
            if byte_in (second_lo x) (second_hi x) y then
              match rest1 with
              | z :: rest2 =>
                  if byte_in 128 191 z then
                    match rest2 with
                    | t :: rest3 =>
                        if byte_in 128 191 t then x :: y :: z :: t :: utf8_decode rest3
                        else replacement ++ utf8_decode rest2
                    | [] => replacement
                    end
                  else replacement ++ utf8_decode rest1
              | [] => replacement
              end
            else replacement ++ utf8_decode rest
        | [] => replacement
        end
      else replacement ++ utf8_decode rest
  end.

Definition buf_toString (buffer : Buffer) : string :=
  string_of_list_ascii (utf8_decode buffer).

(** Well-formed UTF-8. *)
Fixpoint utf8_valid (b : Buffer) : bool :=
  match b with
  | [] => true
  | x :: rest =>
      if byte_in 0 127 x then utf8_valid rest
      else if byte_in 194 223 x then
        match rest with
        | y :: rest1 => byte_in 128 191 y && utf8_valid rest1
        | [] => false
        end
      else if byte_in 224 239 x then
        match rest with
        | y :: z :: rest2 =>
            byte_in (second_lo x) (second_hi x) y && byte_in 128 191 z && utf8_valid rest2
        | _ => false
        end
      else if byte_in 240 244 x then
        match rest with
        | y :: z :: t :: rest3 =>
            byte_in (second_lo x) (second_hi x) y && byte_in 128 191 z
            && byte_in 128 191 t && utf8_valid rest3
        | _ => false
        end
      else false
  end.

(** The text of a buffer taken byte for byte. *)
Definition verbatim (buffer : Buffer) : string := string_of_list_ascii buffer.

(** The errors the loader can meet: the system errors of [fs] (they carry a
    [code] such as ENOENT, EACCES or EISDIR, the system call that failed and,
    for a failed [open], the path), the [TypeError] with which [fs] refuses an
    argument, and plain [Error] objects thrown by a decoder. *)
Inductive js_error :=
| SystemError (code : string) (syscall : string) (path : option string)
| TypeError (code : string)
| JsError (message : string).

(** A row is a plain object with string values. *)
Abbreviation row := (gmap string string).

(** [o[key] = value] on an object created by the literal [{}].  The name
    [__proto__] is an accessor inherited from [Object.prototype]: assigning a
    string to it is ignored and creates no property. *)
Definition obj_set (o : row) (key value : string) : row :=
  if String.eqb key "__proto__" then o else <[key := value]> o.

(** The releases of csv-parser differ in one point that shows in the rows:
    from 3.2.1 on, [writeRow] leaves out the columns whose header is one of
    [__proto__], [constructor] and [prototype]; before, it assigns every
    column.  The repository does not say which release it runs with, so the
    release is a parameter. *)
Class release := Release { guards_prototype : bool }.

Definition skipped {rel : release} (header : string) : bool :=
  guards_prototype
  && (String.eqb header "__proto__" || String.eqb header "constructor"
      || String.eqb header "prototype").

(** [Object.keys(o)] as a set. *)
Definition obj_keys (o : row) : gset string := dom o.

(** The state of a promise.  A promise fulfilled with an array holds a
    reference to it, not a copy. *)
Inductive promise_state (A : Type) :=
| Pending
| Fulfilled (value : A)
| Rejected (reason : js_error).
Arguments Pending {A}.
Arguments Fulfilled {A} value.
Arguments Rejected {A} reason.

(** [resolve(v)] and [reject(e)] only act on a pending promise. *)
Definition resolve {A} (v : A) (p : promise_state A) : promise_state A :=
  match p with
  | Pending => Fulfilled v
  | _ => p
  end.

Definition reject {A} (e : js_error) (p : promise_state A) : promise_state A :=
  match p with
  | Pending => Rejected e
  | _ => p
  end.

(** ** The file system and [fs.createReadStream]

    The loader runs on the Node runtime.  Its behaviour depends on three
    things the runtime provides: what a read stream emits for a path, what
    [pipe] connects, and what an event emitter does with an [error] event
    nobody listens to.  They are modelled here and in [Node] after the
    documented behaviour of the runtime. *)

Inductive fs_node :=
| Directory
| File (readable : bool) (content : Buffer).

(** A path can name something only if it holds no NUL character. *)
Definition path_ok (filePath : string) : bool :=
  forallb (fun c => negb (Ascii.eqb c "000")) (list_ascii_of_string filePath).

(** A file system is a table of nodes; whatever the table holds, a path
    with a NUL character names nothing. *)
Record filesystem := Filesystem { fs_nodes : gmap string fs_node }.

#[global] Instance filesystem_lookup : Lookup string fs_node filesystem :=
  fun p fs => if path_ok p then fs_nodes fs !! p else None.

#[global] Instance filesystem_empty : Empty filesystem := Filesystem ∅.

(** What a read stream emits. *)
Inductive fs_event :=
| FsData (chunk : Buffer)
| FsEnd
| FsError (e : js_error).

(** A read stream reads blocks of [highWaterMark] bytes, 64 KiB by default. *)
Definition highWaterMark : nat := 64 * 1024.

Fixpoint chunks_go (fuel n : nat) (content : Buffer) : list Buffer :=
  match fuel with
  | O => []
  | S fuel' =>
      match content with
      | [] => []
      | _ => take n content :: chunks_go fuel' n (drop n content)
      end
  end.

Definition chunks (n : nat) (content : Buffer) : list Buffer :=
  chunks_go (length content) n content.

(** The events of a read stream on [filePath], in the order they are
    emitted: an error when the path cannot be opened or read, otherwise the
    content in blocks followed by [end].  The error of a failed [read] carries
    no path. *)
Definition stream_events (fs : filesystem) (filePath : string) : list fs_event :=
  match fs !! filePath with
  | None => [FsError (SystemError "ENOENT" "open" (Some filePath))]
  | Some Directory => [FsError (SystemError "EISDIR" "read" None)]
  | Some (File false _) => [FsError (SystemError "EACCES" "open" (Some filePath))]
  | Some (File true content) => map FsData (chunks highWaterMark content) ++ [FsEnd]
  end.

(** The error thrown for a path that holds a NUL character. *)
Definition invalid_path : js_error := TypeError "ERR_INVALID_ARG_VALUE".

(** [fs.createReadStream(filePath)]: the call throws when it refuses the
    path, otherwise it returns a stream. *)
Definition createReadStream (fs : filesystem) (filePath : string)
  : js_error + list fs_event :=
  if path_ok filePath then inr (stream_events fs filePath) else inl invalid_path.

(** The path names an existing file that can be read. *)
Definition readable (fs : filesystem) (filePath : string) : bool :=
  match fs !! filePath with
  | Some (File true _) => true
  | _ => false
  end.

(** ** Node: transform streams, [pipe], the handlers of the loader *)

(** A transform stream in object mode, as [stream.Transform] sees it:
    [_transform] consumes a chunk, pushes rows and calls back with an optional
    error; [_flush] runs when the writable side is ended. *)
Class Transform (Row St : Type) := {
  t_new : St;
  t_transform : St -> Buffer -> St * list Row * option js_error;
  t_flush : St -> list Row * option js_error
}.

Inductive stream_status := Flowing | Ended | Destroyed.

(** What the piped stream emits to the handlers registered by the loader. *)
Inductive parser_event (Row : Type) :=
| EvData (r : Row)
| EvEnd
| EvError (e : js_error).
Arguments EvData {Row} r.
Arguments EvEnd {Row}.
Arguments EvError {Row} e.

Abbreviation loc := positive.

Module Node.
Section Node.

Context {Row St : Type} {T : Transform Row St}.

(** One invocation of [readDataFromCSV]: the variables its closures capture
    and the two streams it creates. *)
Record call := Call {
  c_data : loc;                       (* const data: any[] = [] *)
  c_promise : promise_state loc;      (* the promise returned to the caller *)
  c_status : stream_status;           (* the stream returned by pipe(csv()) *)
  c_parser : St;
  c_source : list fs_event            (* what the read stream will still emit *)
}.

(** The arrays of the JavaScript heap. *)
Abbreviation heap := (gmap loc (list Row)).

Record world := World {
  w_heap : heap;
  w_calls : gmap nat call;
  w_uncaught : list js_error          (* errors thrown out of the event loop *)
}.

Definition empty_world : world := World ∅ ∅ [].

Definition set_promise (p : promise_state loc) (c : call) : call :=
  Call (c_data c) p (c_status c) (c_parser c) (c_source c).
Definition set_status (s : stream_status) (c : call) : call :=
  Call (c_data c) (c_promise c) s (c_parser c) (c_source c).
Definition set_parser (st : St) (c : call) : call :=
  Call (c_data c) (c_promise c) (c_status c) st (c_source c).
Definition set_source (src : list fs_event) (c : call) : call :=
  Call (c_data c) (c_promise c) (c_status c) (c_parser c) src.

(** [data.push(row)] *)
Definition array_push (l : loc) (r : Row) (h : heap) : heap :=
  alter (fun a => a ++ [r]) l h.

(** The three handlers, lines 23 to 40. *)
Definition on_data (r : Row) (ch : call * heap) : call * heap :=
  (ch.1, array_push (c_data ch.1) r ch.2).

Definition on_end (ch : call * heap) : call * heap :=
  (set_promise (resolve (c_data ch.1) (c_promise ch.1)) ch.1, ch.2).

Definition on_error (e : js_error) (ch : call * heap) : call * heap :=
  (set_promise (reject e (c_promise ch.1)) ch.1, ch.2).

Definition emit (ev : parser_event Row) (ch : call * heap) : call * heap :=
  match ev with
  | EvData r => on_data r ch
  | EvEnd => on_end ch
  | EvError e => on_error e ch
  end.

Definition emit_all (evs : list (parser_event Row)) (ch : call * heap) : call * heap :=
  foldl (fun acc ev => emit ev acc) ch evs.

(** [dest.write(chunk)], called by [pipe] for each chunk of the source: the
    rows pushed by [_transform] are emitted as [data]; an error given to the
    callback destroys the stream and is emitted as [error]. *)
Definition parser_write (chunk : Buffer) (ch : call * heap) : call * heap :=
  match c_status ch.1 with
  | Flowing =>
      let '(st', rows, err) := t_transform (c_parser ch.1) chunk in
      let ch1 := emit_all (map EvData rows) (set_parser st' ch.1, ch.2) in
      match err with
      | None => ch1
      | Some e => emit (EvError e) (set_status Destroyed ch1.1, ch1.2)
      end
  | _ => ch
  end.

(** [dest.end()], called by [pipe] when the source ends: [_flush] runs, then
    [end] is emitted once the rows have been read. *)
Definition parser_end (ch : call * heap) : call * heap :=
  match c_status ch.1 with
  | Flowing =>
      let '(rows, err) := t_flush (c_parser ch.1) in
      let ch1 := emit_all (map EvData rows) ch in
      match err with
      | None => emit EvEnd (set_status Ended ch1.1, ch1.2)
      | Some e => emit (EvError e) (set_status Destroyed ch1.1, ch1.2)
      end
  | _ => ch
  end.

(** One event of the read stream.  [pipe] listens to [data] and [end] of the
    source.  Nothing listens to its [error]: the handler of line 38 is
    registered on the stream returned by [pipe], which is the destination, and
    [pipe] does not forward errors. *)
Definition deliver (ev : fs_event) (ch : call * heap) : call * heap :=
  match ev with
  | FsData chunk => parser_write chunk ch
  | FsEnd => parser_end ch
  | FsError _ => ch
  end.

(** An [error] event without a listener is thrown by the emitter, and an
    exception that nothing catches ends the process: the model records it in
    [w_uncaught], and a process that holds one does nothing any more. *)
Definition unhandled (ev : fs_event) : list js_error :=
  match ev with
  | FsError e => [e]
  | _ => []
  end.

(** [readDataFromCSV(filePath)] up to its [return]: a new array, a new
    promise, a read stream piped into a new parser.  When
    [fs.createReadStream] throws, the exception leaves the executor of the
    promise, which rejects the promise with it: [csv()] is not reached and
    there is no stream ([Destroyed] stands for a stream from which nothing
    comes).  The promise of the [async] wrapper follows the one created here,
    so the two are not told apart. *)
Definition readDataFromCSV (fs : filesystem) (filePath : string) (w : world)
  : nat * world :=
  let l := fresh (dom (w_heap w)) in
  let id := fresh (dom (w_calls w)) in
  let c :=
    match createReadStream fs filePath with
    | inr events => Call l Pending Flowing t_new events
    | inl e => Call l (reject e Pending) Destroyed t_new []
    end in
  (id, World (<[l := []]> (w_heap w)) (<[id := c]> (w_calls w)) (w_uncaught w)).

(** One turn of the event loop: the read stream of invocation [id] emits its
    next event.  Nothing happens in a process that an uncaught exception has
    ended. *)
Definition step (w : world) (id : nat) : world :=
  match w_uncaught w with
  | _ :: _ => w
  | [] =>
      match w_calls w !! id with
      | Some c =>
          match c_source c with
          | [] => w
          | ev :: rest =>
              let ch := deliver ev (set_source rest c, w_heap w) in
              World ch.2 (<[id := ch.1]> (w_calls w)) (w_uncaught w ++ unhandled ev)
          end
      | None => w
      end
  end.

(** A schedule names, turn by turn, the invocation whose stream fires. *)
Definition run (schedule : list nat) (w : world) : world :=
  foldl step w schedule.

Definition pending_events (w : world) (id : nat) : nat :=
  match w_calls w !! id with
  | Some c => length (c_source c)
  | None => O
  end.

(** Let invocation [id] run until its read stream has nothing left to emit. *)
Definition drain (id : nat) (w : world) : world :=
  run (replicate (pending_events w id) id) w.

(** What a caller that awaits the promise observes. *)
Inductive outcome :=
| Unsettled
| Resolved (dataset : list Row)
| Failed (e : js_error).

Definition observe_call (c : call) (h : heap) : outcome :=
  match c_promise c with
  | Pending => Unsettled
  | Fulfilled l => Resolved (default [] (h !! l))
  | Rejected e => Failed e
  end.

Definition observe (w : world) (id : nat) : outcome :=
  match w_calls w !! id with
  | Some c => observe_call c (w_heap w)
  | None => Unsettled
  end.

(** The whole life of one invocation in a fresh process. *)
Definition load (fs : filesystem) (filePath : string) : outcome * list js_error :=
  let '(id, w) := readDataFromCSV fs filePath empty_world in
  let w' := drain id w in
  (observe w' id, w_uncaught w').

(** What can happen in a process: a new invocation, or an event of the read
    stream of an earlier one. *)
Inductive action :=
| Invoke (fs : filesystem) (filePath : string)
| Fire (id : nat).

Definition exec1 (w : world) (a : action) : world :=
  match a with
  | Invoke fs filePath =>
      match w_uncaught w with
      | _ :: _ => w
      | [] => (readDataFromCSV fs filePath w).2
      end
  | Fire id => step w id
  end.

Definition exec (acts : list action) (w : world) : world :=
  foldl exec1 w acts.

(** How many events of invocation [id] the actions let through. *)
Fixpoint fired (id : nat) (acts : list action) : nat :=
  match acts with
  | [] => O
  | Fire id' :: rest => if Nat.eqb id' id then S (fired id rest) else fired id rest
  | Invoke _ _ :: rest => fired id rest
  end.

(** Every invocation owns an array of the heap, and no two share one. *)
Definition wf (w : world) : Prop :=
  (forall id c, w_calls w !! id = Some c -> c_data c ∈ dom (w_heap w)) /\
  (forall id1 id2 c1 c2, w_calls w !! id1 = Some c1 -> w_calls w !! id2 = Some c2 ->
     c_data c1 = c_data c2 -> id1 = id2).

(** The rows and the error of a transform fed the given chunks and then
    ended. *)
Fixpoint feed (st : St) (chunks : list Buffer) : list Row * option js_error :=
  match chunks with
  | [] => t_flush st
  | c :: rest =>
      match t_transform st c with
      | (st', rows, None) =>
          let '(rows', err) := feed st' rest in (rows ++ rows', err)
      | (_, rows, Some e) => (rows, Some e)
      end
  end.

Definition feed_outcome (r : list Row * option js_error) : outcome :=
  match r with
  | (rows, None) => Resolved rows
  | (_, Some e) => Failed e
  end.

(** *** One invocation seen without the heap

    The state of an invocation that matters to its caller: the promise (with
    the reference it holds erased), the content of its array, and its parser.
    The handlers act on it the same way wherever the array lives. *)
Record view := View {
  v_promise : promise_state unit;
  v_array : option (list Row);
  v_status : stream_status;
  v_parser : St
}.

Definition erase (p : promise_state loc) : promise_state unit :=
  match p with
  | Pending => Pending
  | Fulfilled _ => Fulfilled tt
  | Rejected e => Rejected e
  end.

Definition view_of (ch : call * heap) : view :=
  View (erase (c_promise ch.1)) (ch.2 !! c_data ch.1) (c_status ch.1) (c_parser ch.1).

Definition emit_v (ev : parser_event Row) (v : view) : view :=
  match ev with
  | EvData r =>
      View (v_promise v) ((fun a => a ++ [r]) <$> v_array v) (v_status v) (v_parser v)
  | EvEnd => View (resolve tt (v_promise v)) (v_array v) (v_status v) (v_parser v)
  | EvError e => View (reject e (v_promise v)) (v_array v) (v_status v) (v_parser v)
  end.

Definition emit_all_v (evs : list (parser_event Row)) (v : view) : view :=
  foldl (fun acc ev => emit_v ev acc) v evs.

Definition with_status (s : stream_status) (v : view) : view :=
  View (v_promise v) (v_array v) s (v_parser v).

Definition deliver_v (ev : fs_event) (v : view) : view :=
  match ev with
  | FsData chunk =>
      match v_status v with
      | Flowing =>
          let '(st', rows, err) := t_transform (v_parser v) chunk in
          let v1 := emit_all_v (map EvData rows)
                      (View (v_promise v) (v_array v) (v_status v) st') in
          match err with
          | None => v1
          | Some e => emit_v (EvError e) (with_status Destroyed v1)
          end
      | _ => v
      end
  | FsEnd =>
      match v_status v with
      | Flowing =>
          let '(rows, err) := t_flush (v_parser v) in
          let v1 := emit_all_v (map EvData rows) v in
          match err with
          | None => emit_v EvEnd (with_status Ended v1)
          | Some e => emit_v (EvError e) (with_status Destroyed v1)
          end
      | _ => v
      end
  | FsError _ => v
  end.

Definition run_v (evs : list fs_event) (v : view) : view :=
  foldl (fun acc ev => deliver_v ev acc) v evs.

Definition observe_v (v : view) : outcome :=
  match v_promise v with
  | Pending => Unsettled
  | Fulfilled _ => Resolved (default [] (v_array v))
  | Rejected e => Failed e
  end.

Definition new_view : view := View Pending (Some []) Flowing t_new.

(** What a handler may touch: the promise of its invocation and the array
    [data] of its closure, nothing else. *)
Definition framed (ch ch' : call * heap) : Prop :=
  c_data ch'.1 = c_data ch.1 /\
  c_source ch'.1 = c_source ch.1 /\
  dom ch'.2 = dom ch.2 /\
  (forall l, l <> c_data ch.1 -> ch'.2 !! l = ch.2 !! l).

(** A promise is only ever fulfilled with the array of its own invocation. *)
Definition owns (c : call) : Prop :=
  forall l, c_promise c = Fulfilled l -> l = c_data c.

(** The promise is pending exactly while the parser stream is live. *)
Definition coherent (v : view) : Prop :=
  match v_status v with
  | Flowing => v_promise v = Pending
  | Ended => v_promise v = Fulfilled tt
  | Destroyed => exists e, v_promise v = Rejected e
  end.

(** What an invocation looks like when [readDataFromCSV] returns, and the
    events its read stream will emit. *)
Definition start_view (fs : filesystem) (filePath : string) : view :=
  match createReadStream fs filePath with
  | inr _ => new_view
  | inl e => View (Rejected e) (Some []) Destroyed t_new
  end.

Definition start_events (fs : filesystem) (filePath : string) : list fs_event :=
  match createReadStream fs filePath with
  | inr events => events
  | inl _ => []
  end.

(** Invocation [id] of [w] started as [v0], has received the events [done]
    and still expects [todo]. *)
Definition tracks (w : world) (id : nat) (v0 : view) (done todo : list fs_event) : Prop :=
  exists c, w_calls w !! id = Some c /\ c_source c = todo /\ owns c /\
            view_of (c, w_heap w) = run_v done v0.

End Node.

Arguments call St : clear implicits.
Arguments world Row St : clear implicits.
Arguments view Row St : clear implicits.
Arguments outcome Row : clear implicits.

End Node.

(** ** The transform stream created by [csv()]

    [csv] comes from the csv-parser package, a dependency of the repository
    whose code lies outside of it.  The loader calls it without options, so
    the parser runs with its defaults: separator, quote and escape characters
    as below, no preset headers, identity [mapHeaders] and [mapValues], no
    skipped lines or comments, string (not raw) values and [strict] off.  The
    definitions follow the methods of the parser class of the package
    ([parseCell], [parseLine], [writeRow], [_transform], [_flush]) for that
    configuration. *)

Module CsvParser.

Definition cr : ascii := "013".
Definition nl : ascii := "010".
Definition comma : ascii := ",".
Definition dquote : ascii := "034".

Record options := Options {
  escape : ascii;
  quote : ascii;
  separator : ascii;
  newline : ascii;
  maxRowBytes : Z
}.

(** [Number.MAX_SAFE_INTEGER] *)
Definition MAX_SAFE_INTEGER : Z := 2 ^ 53 - 1.

Definition defaults : options :=
  Options dquote dquote comma nl MAX_SAFE_INTEGER.

(** [this.state], [this._prev], [this.headers] and the [newline] option, which
    [_transform] reassigns while it looks for the line terminator. *)
Record state := State {
  escaped : bool;
  first : bool;
  lineNumber : Z;
  previousEnd : Z;
  rowLength : Z;
  quoted : bool;
  prev : option Buffer;               (* this._prev, null at first *)
  headers : list string;              (* this.headers, read once [first] is off *)
  cur_newline : ascii                 (* this.options.newline *)
}.

Definition set_escaped (b : bool) (s : state) : state :=
  State b (first s) (lineNumber s) (previousEnd s) (rowLength s) (quoted s)
        (prev s) (headers s) (cur_newline s).
Definition set_quoted (b : bool) (s : state) : state :=
  State (escaped s) (first s) (lineNumber s) (previousEnd s) (rowLength s) b
        (prev s) (headers s) (cur_newline s).
Definition set_previousEnd (n : Z) (s : state) : state :=
  State (escaped s) (first s) (lineNumber s) n (rowLength s) (quoted s)
        (prev s) (headers s) (cur_newline s).
Definition set_rowLength (n : Z) (s : state) : state :=
  State (escaped s) (first s) (lineNumber s) (previousEnd s) n (quoted s)
        (prev s) (headers s) (cur_newline s).
Definition set_prev (p : option Buffer) (s : state) : state :=
  State (escaped s) (first s) (lineNumber s) (previousEnd s) (rowLength s) (quoted s)
        p (headers s) (cur_newline s).
Definition set_newline (c : ascii) (s : state) : state :=
  State (escaped s) (first s) (lineNumber s) (previousEnd s) (rowLength s) (quoted s)
        (prev s) (headers s) c.
Definition set_lineNumber (n : Z) (s : state) : state :=
  State (escaped s) (first s) n (previousEnd s) (rowLength s) (quoted s)
        (prev s) (headers s) (cur_newline s).
Definition set_headers (hs : list string) (s : state) : state :=
  State (escaped s) false (lineNumber s) (previousEnd s) (rowLength s) (quoted s)
        (prev s) hs (cur_newline s).

Section Parser.

Context {rel : release}.
Variable opts : options.

Definition customNewline : bool := negb (Ascii.eqb (newline opts) (newline defaults)).

Definition new_state : state :=
  State false true 0 0 0 false None [] (newline opts).

(** The loop of [parseCell]: copy the bytes of the cell, dropping the escape
    character in front of an escaped quote.  The source compacts the bytes in
    place, inside the cell, and decodes the compacted range; the bytes it
    overwrites belong to the line being parsed and are not read again. *)
Fixpoint parseCell_loop (fuel : nat) (buffer : Buffer) (i end_ : Z) (out : Buffer) : Buffer :=
  match fuel with
  | O => out
  | S fuel' =>
      if i <? end_ then
        let i' :=
          if byte_is (buf_get buffer i) (escape opts) && (i + 1 <? end_)
             && byte_is (buf_get buffer (i + 1)) (quote opts)
          then i + 1 else i in
        parseCell_loop fuel' buffer (i' + 1) end_ (out ++ option_list (buf_get buffer i'))
      else out
  end.

Definition parseCell (buffer : Buffer) (start end_ : Z) : string :=
  let '(start, end_) :=
    if byte_is (buf_get buffer start) (quote opts)
       && byte_is (buf_get buffer (end_ - 1)) (quote opts)
    then (start + 1, end_ - 1) else (start, end_) in
  buf_toString (parseCell_loop (Z.to_nat (end_ - start)) buffer start end_ []).

(** The loop of [parseLine]; it leaves the offset of the last cell and the
    cells found before it. *)
Fixpoint parseLine_loop (fuel : nat) (buffer : Buffer) (end_ i : Z) (isQuoted : bool)
    (offset : Z) (cells : list string) : Z * list string :=
  match fuel with
  | O => (offset, cells)
  | S fuel' =>
      if i <? end_ then
        let isStartingQuote := negb isQuoted && byte_is (buf_get buffer i) (quote opts) in
        let isEndingQuote :=
          isQuoted && byte_is (buf_get buffer i) (quote opts) && (i + 1 <=? end_)
          && byte_is (buf_get buffer (i + 1)) (separator opts) in
        let isEscape :=
          isQuoted && byte_is (buf_get buffer i) (escape opts) && (i + 1 <? end_)
          && byte_is (buf_get buffer (i + 1)) (quote opts) in
        if isStartingQuote || isEndingQuote then
          parseLine_loop fuel' buffer end_ (i + 1) (negb isQuoted) offset cells
        else if isEscape then
          parseLine_loop fuel' buffer end_ (i + 2) isQuoted offset cells
        else if byte_is (buf_get buffer i) (separator opts) && negb isQuoted then
          parseLine_loop fuel' buffer end_ (i + 1) isQuoted (i + 1)
                         (cells ++ [parseCell buffer offset i])
        else
          parseLine_loop fuel' buffer end_ (i + 1) isQuoted offset cells
      else (offset, cells)
  end.

(** [writeRow]: the cells become the properties of a new object, named by the
    header of their column, or by [_] and their index beyond the headers; the
    later releases leave the guarded columns out. *)
Fixpoint writeRow_go (hs : list string) (cells : list string) (index : nat) (o : row) : row :=
  match cells with
  | [] => o
  | cell :: rest =>
      let o' :=
        match hs !! index with
        | Some header => if skipped header then o else obj_set o header cell
        | None => obj_set o (String "_" (pretty index)) cell
        end in
      writeRow_go hs rest (S index) o'
  end.

Definition writeRow (hs : list string) (cells : list string) : row :=
  writeRow_go hs cells O ∅.

(** [parseLine(buffer, start, end)]: the first line sets the headers, every
    other line pushes one row. *)
Definition parseLine (buffer : Buffer) (start end_ : Z) (s : state) : state * list row :=
  let end_ := end_ - 1 in
  let end_ :=
    if negb customNewline && negb (buf_length buffer =? 0)
       && byte_is (buf_get buffer (end_ - 1)) cr
    then end_ - 1 else end_ in
  let '(offset, cells) :=
    parseLine_loop (Z.to_nat (end_ - start)) buffer end_ start false start [] in
  let cells := if offset <? end_ then cells ++ [parseCell buffer offset end_] else cells in
  let cells :=
    if byte_is (buf_get buffer (end_ - 1)) (separator opts) then cells ++ [""%string]
    else cells in
  let s := set_lineNumber (lineNumber s + 1) s in
  if first s then (set_headers cells s, [])
  else (s, [writeRow (headers s) cells]).

(** The loop of [_transform] over the bytes of the buffer from [start]. *)
Fixpoint transform_loop (fuel : nat) (buffer : Buffer) (start i : Z) (s : state)
    (out : list row) : state * list row * option js_error :=
  match fuel with
  | O => (s, out, None)
  | S fuel' =>
      if i <? buf_length buffer then
        let chr := buf_get buffer i in
        let nextChr := if i + 1 <? buf_length buffer then buf_get buffer (i + 1) else None in
        let s := set_rowLength (rowLength s + 1) s in
        if rowLength s >? maxRowBytes opts then
          (s, out, Some (JsError "Row exceeds the maximum size"))
        else if negb (escaped s) && byte_is chr (escape opts) && byte_is nextChr (quote opts)
                && negb (i =? start) then
          transform_loop fuel' buffer start (i + 1) (set_escaped true s) out
        else if byte_is chr (quote opts) then
          transform_loop fuel' buffer start (i + 1)
            (if escaped s then set_escaped false s else set_quoted (negb (quoted s)) s) out
        else if quoted s then
          transform_loop fuel' buffer start (i + 1) s out
        else
          let s :=
            if first s && negb customNewline then
              if byte_is chr nl then set_newline nl s
              else if byte_is chr cr then
                     if negb (byte_is nextChr nl) then set_newline cr s else s
                   else s
            else s in
          if byte_is chr (cur_newline s) then
            let '(s, rows) := parseLine buffer (previousEnd s) (i + 1) s in
            transform_loop fuel' buffer start (i + 1)
              (set_rowLength 0 (set_previousEnd (i + 1) s)) (out ++ rows)
          else
            transform_loop fuel' buffer start (i + 1) s out
      else (s, out, None)
  end.

(** [_transform(data, enc, cb)]: returns the rows pushed and the error given
    to [cb], if any. *)
Definition _transform (s : state) (data : Buffer) : state * list row * option js_error :=
  let start := match prev s with Some p => buf_length p | None => 0 end in
  let buffer := match prev s with Some p => p ++ data | None => data end in
  let s := set_prev None s in
  let bufferLength := buf_length buffer in
  match transform_loop (Z.to_nat (bufferLength - start)) buffer start start s [] with
  | (s, out, Some e) => (s, out, Some e)
  | (s, out, None) =>
      if previousEnd s =? bufferLength then
        (set_previousEnd 0 s, out, None)
      else if bufferLength - previousEnd s <? buf_length data then
        (set_prev (Some data)
           (set_previousEnd (previousEnd s - (bufferLength - buf_length data)) s), out, None)
      else
        (set_prev (Some buffer) s, out, None)
  end.

(** [_flush(cb)]: the last line, when the input does not end with a line
    terminator. *)
Definition _flush (s : state) : list row * option js_error :=
  if escaped s then ([], None)
  else match prev s with
       | None => ([], None)
       | Some p => ((parseLine p (previousEnd s) (buf_length p + 1) s).2, None)
       end.

End Parser.

(** [csv(opts)] *)
Definition csv {rel : release} (opts : options) : Transform row state :=
  {| t_new := new_state opts;
     t_transform := _transform opts;
     t_flush := _flush opts |}.

(** The rows and the error of a parser fed the given chunks and then ended. *)
Definition decode {rel : release} (opts : options) (chunks : list Buffer)
  : list row * option js_error :=
  Node.feed (T := csv opts) (new_state opts) chunks.

(** The two kinds of release. *)
Definition latest : release := Release true.
Definition earlier : release := Release false.

End CsvParser.

(** ** The loader *)

Module Loader.

Import CsvParser.

(** The parser of the loader: [csv()], without options. *)
#[export] Instance parser {rel : release} : Transform row state := csv defaults.

(** [readDataFromCSV] with the parser of [csv()]. *)
Definition readDataFromCSV {rel : release} (fs : filesystem) (filePath : string)
  : Node.world row state -> nat * Node.world row state :=
  Node.readDataFromCSV (T := parser) fs filePath.

Definition load {rel : release} (fs : filesystem) (filePath : string)
  : Node.outcome row * list js_error :=
  Node.load (T := parser) fs filePath.

(** Text files for the examples: lines joined by line feeds. *)
Definition bytes (s : string) : Buffer := list_ascii_of_string s.

Fixpoint unlines (ls : list string) : Buffer :=
  match ls with
  | [] => []
  | l :: rest => bytes l ++ [nl] ++ unlines rest
  end.

End Loader.

(** ** What the text of a file says

    The reference reading of a delimited text, independent of how the bytes
    arrive: lines are separated by line feeds, fields by commas. *)

Module CsvText.

Import CsvParser.

(** Split at every separator, from left to right: the segments already
    closed and the one being read. *)
Fixpoint split_go (sep : ascii) (closed : list Buffer) (cur : Buffer) (l : Buffer)
  : list Buffer * Buffer :=
  match l with
  | [] => (closed, cur)
  | c :: rest =>
      if Ascii.eqb c sep then split_go sep (closed ++ [cur]) [] rest
      else split_go sep closed (cur ++ [c]) rest
  end.

Definition split_on (sep : ascii) (l : Buffer) : list Buffer :=
  let '(closed, cur) := split_go sep [] [] l in closed ++ [cur].

(** The segments put back together, with the separator between them. *)
Fixpoint join (sep : ascii) (segments : list Buffer) : Buffer :=
  match segments with
  | [] => []
  | [s] => s
  | s :: rest => s ++ sep :: join sep rest
  end.

(** The lines of a text; a line feed at the very end does not open a line. *)
Definition close_lines (st : list Buffer * Buffer) : list Buffer :=
  match st.2 with
  | [] => st.1
  | _ => st.1 ++ [st.2]
  end.

Definition text_lines (content : Buffer) : list Buffer :=
  close_lines (split_go nl [] [] content).

(** The fields of a line; an empty line has none. *)
Definition fields (line : Buffer) : list string :=
  match line with
  | [] => []
  | _ => map buf_toString (split_on comma line)
  end.

(** The cells of a line, as bytes; an empty line has none. *)
Definition cells_of (line : Buffer) : list Buffer :=
  match line with
  | [] => []
  | _ => split_on comma line
  end.

(** The first line names the columns, every other line is a record. *)
Definition rows_of_lines {rel : release} (ls : list Buffer) : list row :=
  match ls with
  | [] => []
  | header :: data => map (fun l => writeRow (fields header) (fields l)) data
  end.

Definition dataset_of {rel : release} (content : Buffer) : list row :=
  rows_of_lines (text_lines content).

(** The header and the data lines of a text, and the record of a line. *)
Definition header_fields (content : Buffer) : list string :=
  match text_lines content with
  | [] => []
  | header :: _ => fields header
  end.

Definition data_lines (content : Buffer) : list Buffer :=
  tail (text_lines content).

Definition record_of {rel : release} (hs : list string) (line : Buffer) : row :=
  writeRow hs (fields line).

(** The name of the property that the cell of column [j] sets, if it sets
    one: a cell under a header named [__proto__] sets none, and none is set
    for a column that the release guards. *)
Definition stored {rel : release} (header : string) : bool :=
  negb (String.eqb header "__proto__" || skipped header).

Definition column_key {rel : release} (hs : list string) (j : nat) : option string :=
  match hs !! j with
  | Some h => if stored h then Some h else None
  | None => Some (String "_" (pretty j))
  end.

(** The keys of a record made from [n] cells. *)
Definition row_keys {rel : release} (hs : list string) (n : nat) : gset string :=
  list_to_set (omap (column_key hs) (seq 0 n)).

(** Plain text: no quote character and no carriage return. *)
Definition plain (content : Buffer) : Prop :=
  Forall (fun c => c <> dquote /\ c <> cr) content.

(** *** What the parser holds while it reads a plain text

    [closed] are the lines read so far and [cur] is the line being read. *)

(** A line starts at the beginning of the buffer or after a line feed. *)
Definition line_start (p0 : Buffer) : Prop := p0 = [] \/ last p0 = Some nl.

Definition reading_flags (s : state) (closed : list Buffer) (cur : Buffer) : Prop :=
  escaped s = false /\ quoted s = false /\ cur_newline s = nl /\
  first s = (match closed with [] => true | _ => false end) /\
  (forall h rest, closed = h :: rest -> headers s = fields h) /\
  rowLength s = buf_length cur.

(** Inside [_transform], after the bytes [pre] of the buffer. *)
Definition reading_at (s : state) (pre : Buffer) (closed : list Buffer) (cur : Buffer)
  : Prop :=
  reading_flags s closed cur /\ prev s = None /\
  exists p0, pre = p0 ++ cur /\ previousEnd s = buf_length p0 /\ line_start p0.

(** Between two chunks. *)
Definition reading (s : state) (closed : list Buffer) (cur : Buffer) : Prop :=
  reading_flags s closed cur /\
  match prev s with
  | None => cur = [] /\ previousEnd s = 0
  | Some p =>
      cur <> [] /\
      exists p0, p = p0 ++ cur /\ previousEnd s = buf_length p0 /\ line_start p0
  end.

(** *** A text that holds a header line and nothing else *)

(** The bytes of one line: no line feed and no carriage return. *)
Definition one_line (l : Buffer) : Prop :=
  Forall (fun c => c <> nl /\ c <> cr) l.

(** A single line, ended by a line feed or by the end of the file; the empty
    text is the case of no line at all. *)
Definition header_only (content : Buffer) : Prop :=
  exists header eol, content = header ++ eol /\ one_line header /\
                     (eol = [] \/ eol = [nl]).

(** The same line ended by a carriage return and a line feed. *)
Definition header_only_crlf (content : Buffer) : Prop :=
  exists header, content = header ++ [cr; nl] /\ one_line header.

(** What the parser holds while the text read so far is a header at most:
    either the header is still open, or it has just been closed by the line
    feed that ends the text. *)
Definition header_phase (s : state) (remaining : Buffer) : Prop :=
  (first s = true /\ cur_newline s = nl /\
   rowLength s + buf_length remaining <= MAX_SAFE_INTEGER) \/
  (first s = false /\ prev s = None /\ previousEnd s = 0 /\ remaining = []).

(** *** The rows of one file

    The rows [rows] are all made by [writeRow] with the headers [hs]. *)
Definition made_with {rel : release} (hs : list string) (rows : list row) : Prop :=
  forall r, r ∈ rows -> exists cells, r = writeRow hs cells.

(** Two states of the parser that agree on the headers. *)
Definition same_head (s s1 : state) : Prop :=
  first s1 = first s /\ headers s1 = headers s.

(** Once read, the headers do not change. *)
Definition headers_kept (s s' : state) : Prop :=
  first s = false -> first s' = false /\ headers s' = headers s.

(** The rows [new] pushed while the parser went from [s] to [s']. *)
Definition shaped {rel : release} (s s' : state) (new : list row) : Prop :=
  headers_kept s s' /\
  (first s' = true -> new = []) /\
  (first s' = false -> made_with (headers s') new).

(** *** Sample files *)

(** Header [a,b], rows [1,2] and [3,4]: with line feeds or with carriage
    return and line feed, the last line ended or not. *)
Definition crlf : string := String cr (String nl EmptyString).
Definition lf : string := String nl EmptyString.

Definition ab_files : list Buffer :=
  [ Loader.bytes ("a,b" +:+ lf +:+ "1,2" +:+ lf +:+ "3,4" +:+ lf);
    Loader.bytes ("a,b" +:+ lf +:+ "1,2" +:+ lf +:+ "3,4");
    Loader.bytes ("a,b" +:+ crlf +:+ "1,2" +:+ crlf +:+ "3,4" +:+ crlf);
    Loader.bytes ("a,b" +:+ crlf +:+ "1,2" +:+ crlf +:+ "3,4") ].

Definition ab_fs : filesystem :=
  Filesystem {[ "data/ab.csv"%string := File true (Loader.unlines ["a,b"; "1,2"; "3,4"]%string) ]}.

Definition ab_rows : list row :=
  [ {[ "a" := "1"; "b" := "2" ]}; {[ "a" := "3"; "b" := "4" ]} ]%string.

(** A line shorter and a line longer than the header. *)
Definition ragged_file : Buffer := Loader.unlines ["a,b"; "1"; "3,4,5"]%string.

Definition ragged_rows : list row :=
  [ {[ "a" := "1" ]}; {[ "a" := "3"; "b" := "4"; "_2" := "5" ]} ]%string.

Definition ragged_fs : filesystem :=
  Filesystem {[ "data/ragged.csv"%string := File true ragged_file ]}.

(** A quoted field that holds a comma, and a column named [__proto__]. *)
Definition quoted_fs : filesystem :=
  Filesystem {[ "data/quoted.csv"%string :=
       File true (Loader.bytes "a,b" ++ [nl] ++ [dquote] ++ Loader.bytes "x,y" ++ [dquote]
                  ++ Loader.bytes ",2" ++ [nl]);
     "data/proto.csv"%string := File true (Loader.unlines ["__proto__,b"; "1,2"]%string) ]}.

(** A file with a header and no data. *)
Definition header_fs : filesystem :=
  Filesystem {[ "data/header.csv"%string := File true (Loader.unlines ["name,age"]%string) ]}.

(** A parser that accepts rows of four bytes at most, and a file with a
    longer row. *)
Definition narrow : options := Options dquote dquote comma nl 4.

Definition wide_fs : filesystem :=
  Filesystem {[ "data/wide.csv"%string := File true (Loader.bytes "abcdefgh") ]}.

(** Both sample files side by side. *)
Definition two_fs : filesystem :=
  Filesystem {[ "data/ab.csv"%string := File true (Loader.unlines ["a,b"; "1,2"; "3,4"]%string);
     "data/ragged.csv"%string := File true ragged_file ]}.

(** C4 as the specification words it: every record has the fields of the
    header line as its key set. *)
Definition same_key_set_as_header (content : Buffer) (ds : list row) : Prop :=
  forall r, r ∈ ds -> obj_keys r = list_to_set (header_fields content).

End CsvText.

(** ** The array of an invocation *)

Module Process.
Section Process.

Context {Row St : Type}.

(** The content of the array [data] of invocation [id], whether its promise
    has been settled or not. *)
Definition array_of (w : Node.world Row St) (id : nat) : option (list Row) :=
  match Node.w_calls w !! id with
  | Some c => Node.w_heap w !! Node.c_data c
  | None => None
  end.

End Process.
End Process.

(** ** Tables written as text *)

Module CsvTable.

Import CsvParser CsvText.

(** A table written out as text: the cells of a line joined by commas, every
    line ended by a line feed. *)
Definition render_line (cells : list Buffer) : Buffer := join comma cells.

Definition render (table : list (list Buffer)) : Buffer :=
  concat (map (fun cells => render_line cells ++ [nl]) table).

(** A cell that can be written as it stands. *)
Definition bare (cell : Buffer) : Prop :=
  Forall (fun c => c <> comma /\ c <> nl /\ c <> cr /\ c <> dquote) cell.

(** A line of bare cells; a line made of one empty cell would read back as a
    line without cells. *)
Definition writable (cells : list Buffer) : Prop :=
  Forall bare cells /\ cells <> [[]].

(** The record of a line of the table under the given header. *)
Definition record {rel : release} (header cells : list Buffer) : row :=
  writeRow (map buf_toString header) (map buf_toString cells).

(** The sample file [data/ab.csv], its table, and a cutting of it into two
    pieces. *)
Definition ab_file : Buffer := Loader.unlines ["a,b"; "1,2"; "3,4"]%string.

Definition ab_pieces : list Buffer :=
  [ Loader.bytes "a,b" ++ [nl] ++ Loader.bytes "1";
    Loader.bytes ",2" ++ [nl] ++ Loader.bytes "3,4" ++ [nl] ].

Definition ab_header : list Buffer := [Loader.bytes "a"; Loader.bytes "b"].

Definition ab_cells : list (list Buffer) :=
  [ [Loader.bytes "1"; Loader.bytes "2"]; [Loader.bytes "3"; Loader.bytes "4"] ].

(** A file whose last line is not ended, and the same file with the line
    feed added. *)
Definition open_file : Buffer := Loader.bytes "a,b" ++ [nl] ++ Loader.bytes "1,2".

Definition final_fs : filesystem :=
  Filesystem {[ "data/open.csv"%string := File true open_file;
     "data/closed.csv"%string := File true (open_file ++ [nl]) ]}.

(** A file with an empty line between the header and a record. *)
Definition blank_file : Buffer := Loader.unlines ["a,b"; ""; "1,2"]%string.

Definition blank_fs : filesystem :=
  Filesystem {[ "data/blank.csv"%string := File true blank_file ]}.

Definition blank_rows : list row := [ ∅; {[ "a" := "1"; "b" := "2" ]} ]%string.

(** What the file [data/proto.csv] loads as. *)
Definition proto_rows : list row := [ {[ "b" := "2" ]} ]%string.

End CsvTable.

(** ** Texts given by their lines *)

Module CsvLines.

Import CsvParser CsvText.

(** A line of plain bytes: no line terminator and no quote character. *)
Definition bare_line (l : Buffer) : Prop :=
  Forall (fun c => c <> nl /\ c <> cr /\ c <> dquote) l.

(** A text given by its lines: every line of [lines] is ended by [eol], and
    [last_line] (possibly empty) is not ended at all. *)
Definition text_of (eol : Buffer) (lines : list Buffer) (last_line : Buffer) : Buffer :=
  concat (map (fun l => l ++ eol) lines) ++ last_line.

(** All the lines of such a text. *)
Definition all_lines (lines : list Buffer) (last_line : Buffer) : list Buffer :=
  lines ++ match last_line with [] => [] | _ => [last_line] end.

(** What the parser holds at the start of a line, after the bytes [p0] and
    the lines [closed]. *)
Definition at_line_start (s : state) (p0 : Buffer) (closed : list Buffer) : Prop :=
  escaped s = false /\ quoted s = false /\ cur_newline s = nl /\ prev s = None /\
  first s = (match closed with [] => true | _ => false end) /\
  (forall h rest, closed = h :: rest -> headers s = fields h) /\
  previousEnd s = buf_length p0 /\ rowLength s = 0.

(** The sample file with the line ends of Windows and with those of Unix. *)
Definition win_lines : list Buffer := [Loader.bytes "a,b"; Loader.bytes "1,2"].

Definition win_fs : filesystem :=
  Filesystem {[ "data/win.csv"%string := File true (text_of [cr; nl] win_lines (Loader.bytes "3,4"));
     "data/unix.csv"%string := File true (text_of [nl] win_lines (Loader.bytes "3,4")) ]}.

End CsvLines.

(** ** Lines with quoted cells *)

Module CsvQuoted.

Import CsvParser CsvText.

(** A cell as it is written: as it stands, or between quote characters. *)
Inductive cell :=
| Bare (text : Buffer)
| Quoted (text : Buffer).

Definition cell_text (c : cell) : Buffer :=
  match c with
  | Bare t => t
  | Quoted t => t
  end.

Definition cell_bytes (c : cell) : Buffer :=
  match c with
  | Bare t => t
  | Quoted t => dquote :: t ++ [dquote]
  end.

(** A bare cell holds no comma, no line terminator and no quote character; a
    quoted cell is not empty and holds no line terminator and no quote
    character, commas are allowed. *)
Definition cell_ok (c : cell) : Prop :=
  match c with
  | Bare t => Forall (fun x => x <> comma /\ x <> nl /\ x <> cr /\ x <> dquote) t
  | Quoted t => t <> [] /\ Forall (fun x => x <> nl /\ x <> cr /\ x <> dquote) t
  end.

Definition line_bytes (cells : list cell) : Buffer := join comma (map cell_bytes cells).

Definition line_ok (cells : list cell) : Prop :=
  Forall cell_ok cells /\ cells <> [Bare []].

Definition line_texts (cells : list cell) : list string :=
  map (fun c => buf_toString (cell_text c)) cells.

(** The text of a table: every line ended by a line feed. *)
Definition table_bytes (table : list (list cell)) : Buffer :=
  concat (map (fun cells => line_bytes cells ++ [nl]) table).

(** What the parser holds at the start of a line, after the bytes [p0]:
    [header] is the header line if it has been read. *)
Definition line_start_state (s : state) (p0 : Buffer) (header : option (list string))
  : Prop :=
  escaped s = false /\ quoted s = false /\ cur_newline s = nl /\ prev s = None /\
  first s = (match header with None => true | Some _ => false end) /\
  (forall hs, header = Some hs -> headers s = hs) /\
  previousEnd s = buf_length p0 /\ rowLength s = 0.

(** The records of the lines [table] when the header is [header], read or
    still to come. *)
Definition records_under {rel : release} (header : option (list string))
    (table : list (list cell))
  : list row :=
  match header, table with
  | Some hs, _ => map (fun cells => writeRow hs (line_texts cells)) table
  | None, [] => []
  | None, h :: rows => map (fun cells => writeRow (line_texts h) (line_texts cells)) rows
  end.

(** A sample table with quoted cells, one of them holding a comma. *)
Definition cells_header : list cell := [Bare (Loader.bytes "a"); Bare (Loader.bytes "b")].

Definition cells_rows : list (list cell) :=
  [ [Quoted (Loader.bytes "x,y"); Bare (Loader.bytes "2")];
    [Bare (Loader.bytes "3"); Quoted (Loader.bytes "z")] ].

Definition cells_fs : filesystem :=
  Filesystem {[ "data/cells.csv"%string := File true (table_bytes (cells_header :: cells_rows)) ]}.

Definition cells_dataset : list row :=
  [ {[ "a" := "x,y"; "b" := "2" ]}; {[ "a" := "3"; "b" := "z" ]} ]%string.

End CsvQuoted.

(** ** The files whose lines are read here *)

Module CsvLayout.

Import CsvParser CsvText CsvTable CsvLines CsvQuoted.

(** The cells of the header and of the data lines, for a text given by its
    lines. *)
Definition lines_table (ls : list Buffer) : list Buffer * list (list Buffer) :=
  match ls with
  | [] => ([], [])
  | header :: data => (cells_of header, map cells_of data)
  end.

(** [layout content header rows]: the text [content] is one of those whose
    reading is established here, and it shows the header cells [header] and
    the data lines with the cells [rows].  These are plain texts, of any
    size; texts whose lines end with a carriage return and a line feed and
    hold no quote character, of one read block at most; and texts whose
    cells may be quoted, with lines ended by line feeds, of one read block at
    most.  The cells of a quoted text are given without their quotes. *)
Inductive layout : Buffer -> list Buffer -> list (list Buffer) -> Prop :=
| layout_plain content :
    plain content ->
    layout content (lines_table (text_lines content)).1 (lines_table (text_lines content)).2
| layout_crlf lines last_line :
    Forall bare_line lines -> bare_line last_line ->
    (length (text_of [cr; nl] lines last_line) <= highWaterMark)%nat ->
    layout (text_of [cr; nl] lines last_line)
           (lines_table (all_lines lines last_line)).1
           (lines_table (all_lines lines last_line)).2
| layout_quoted header rows :
    Forall line_ok (header :: rows) ->
    (length (table_bytes (header :: rows)) <= highWaterMark)%nat ->
    layout (table_bytes (header :: rows)) (map cell_text header) (map (map cell_text) rows).

(** C5 as the specification words it: one record for each data line of the
    file. *)
Definition one_record_per_data_line (content : Buffer) (ds : list row) : Prop :=
  length ds = length (data_lines content).

(** C8 as the specification words it: every value is, byte for byte, one of
    the fields of its line as they appear in the file. *)
Definition values_as_in_file (content : Buffer) (ds : list row) : Prop :=
  forall i r key (v : string),
    ds !! i = Some r -> r !! key = Some v ->
    exists line field,
      data_lines content !! i = Some line /\ field ∈ split_on comma line /\
      v = verbatim field.

(** *** Sample files *)

(** A header line one byte shorter than a read block, ended by a carriage
    return and a line feed: the carriage return is the last byte of the first
    block and the line feed the first byte of the second. *)
Definition long_header : Buffer := replicate (highWaterMark - 1) "a"%char.

Definition long_name : string := verbatim long_header.

Definition long_file : Buffer := long_header ++ [cr; nl].

(** The same header followed by one data line. *)
Definition cut_file : Buffer := long_header ++ [cr; nl] ++ Loader.bytes "1" ++ [cr; nl].

Definition long_fs : filesystem :=
  Filesystem {[ "data/long.csv"%string := File true long_file;
                "data/cut.csv"%string := File true cut_file ]}.

(** A file with a quoted cell, and a file with a byte that is not UTF-8. *)
Definition quoted_file : Buffer :=
  Loader.bytes "a,b" ++ [nl] ++ [dquote] ++ Loader.bytes "x,y" ++ [dquote]
  ++ Loader.bytes ",2" ++ [nl].

Definition malformed_file : Buffer := Loader.bytes "a" ++ [nl] ++ ["255"%char] ++ [nl].

Definition odd_fs : filesystem :=
  Filesystem {[ "data/quoted.csv"%string := File true quoted_file;
                "data/malformed.csv"%string := File true malformed_file ]}.

End CsvLayout.

(** * Properties of the event plumbing *)

Module NodeFacts.
Section NodeFacts.

Context {Row St : Type} {T : Transform Row St}.
Import Node.

Implicit Types (c : call St) (h : gmap loc (list Row)) (w : world Row St).
Implicit Types (v : view Row St) (ch : call St * gmap loc (list Row)).

Lemma erase_resolve l (p : promise_state loc) : erase (resolve l p) = resolve tt (erase p).
Proof. by destruct p. Qed.

Lemma erase_reject e (p : promise_state loc) : erase (reject e p) = reject e (erase p).
Proof. by destruct p. Qed.

(** The handlers commute with the view. *)
Lemma view_emit ev ch : view_of (emit ev ch) = emit_v ev (view_of ch).
Proof.
  destruct ch as [c h], ev; unfold view_of; simpl.
  - unfold array_push. by rewrite lookup_alter_eq.
  - by rewrite erase_resolve.
  - by rewrite erase_reject.
Qed.

Lemma view_emit_all evs ch : view_of (emit_all evs ch) = emit_all_v evs (view_of ch).
Proof.
  revert ch. induction evs as [|ev evs IH]; intros ch; [done|].
  unfold emit_all, emit_all_v in *. simpl. by rewrite IH, view_emit.
Qed.

Lemma framed_refl ch : framed ch ch.
Proof. by repeat split. Qed.

Lemma framed_trans ch1 ch2 ch3 : framed ch1 ch2 -> framed ch2 ch3 -> framed ch1 ch3.
Proof.
  intros (D1 & S1 & H1 & F1) (D2 & S2 & H2 & F2). repeat split; try congruence.
  intros l Hl. rewrite F2, F1; congruence.
Qed.

Lemma framed_emit ev ch : framed ch (emit ev ch).
Proof.
  destruct ch as [c h], ev; repeat split; simpl; try done.
  - unfold array_push. apply leibniz_equiv, dom_alter.
  - intros l Hl. unfold array_push. by rewrite lookup_alter_ne.
Qed.

Lemma framed_emit_all evs ch : framed ch (emit_all evs ch).
Proof.
  revert ch. induction evs as [|ev evs IH]; intros ch; [apply framed_refl|].
  eapply framed_trans; [apply (framed_emit ev)|apply IH].
Qed.

Lemma owns_emit ev ch : owns ch.1 -> owns (emit ev ch).1.
Proof.
  destruct ch as [c h], ev; simpl; try done; unfold owns; simpl.
  - destruct (c_promise c); simpl; intros Ho l Hl; [congruence|by apply Ho|done].
  - destruct (c_promise c); simpl; intros Ho l Hl; [done|by apply Ho|done].
Qed.

Lemma owns_emit_all evs ch : owns ch.1 -> owns (emit_all evs ch).1.
Proof.
  revert ch. induction evs as [|ev evs IH]; intros ch Ho; [done|].
  apply IH. by apply owns_emit.
Qed.

Lemma view_set_status s ch :
  view_of (set_status s ch.1, ch.2) = with_status s (view_of ch).
Proof. by destruct ch. Qed.

#[local] Arguments emit : simpl never.
#[local] Arguments emit_v : simpl never.
#[local] Arguments emit_all : simpl never.
#[local] Arguments emit_all_v : simpl never.

Lemma view_deliver ev ch : view_of (deliver ev ch) = deliver_v ev (view_of ch).
Proof.
  destruct ev as [chunk| |e]; [| |done].
  - unfold deliver, deliver_v, parser_write.
    change (v_status (view_of ch)) with (c_status ch.1).
    change (v_parser (view_of ch)) with (c_parser ch.1).
    destruct (c_status ch.1) eqn:Hs; [|done|done].
    destruct (t_transform (c_parser ch.1) chunk) as [[st' rows] [e|]].
    + rewrite view_emit, view_set_status, view_emit_all. unfold view_of; simpl.
      by rewrite Hs.
    + rewrite view_emit_all. unfold view_of; simpl. by rewrite Hs.
  - unfold deliver, deliver_v, parser_end.
    change (v_status (view_of ch)) with (c_status ch.1).
    change (v_parser (view_of ch)) with (c_parser ch.1).
    destruct (c_status ch.1) eqn:Hs; [|done|done].
    destruct (t_flush (c_parser ch.1)) as [rows [e|]];
      by rewrite view_emit, view_set_status, view_emit_all.
Qed.

Lemma framed_set_status s ch : framed ch (set_status s ch.1, ch.2).
Proof. by destruct ch. Qed.

Lemma framed_set_parser st ch : framed ch (set_parser st ch.1, ch.2).
Proof. by destruct ch. Qed.

Lemma framed_deliver ev ch : framed ch (deliver ev ch).
Proof.
  destruct ev as [chunk| |e]; [| |apply framed_refl].
  - unfold deliver, parser_write. destruct (c_status ch.1); try apply framed_refl.
    destruct (t_transform (c_parser ch.1) chunk) as [[st' rows] [e|]].
    + eapply framed_trans; [|apply framed_emit].
      eapply framed_trans; [|apply framed_set_status].
      eapply framed_trans; [|apply framed_emit_all]. apply framed_set_parser.
    + eapply framed_trans; [|apply framed_emit_all]. apply framed_set_parser.
  - unfold deliver, parser_end. destruct (c_status ch.1); try apply framed_refl.
    destruct (t_flush (c_parser ch.1)) as [rows [e|]];
      (eapply framed_trans; [|apply framed_emit]);
      (eapply framed_trans; [|apply framed_set_status]); apply framed_emit_all.
Qed.

Lemma owns_set_status s ch : owns ch.1 -> owns (set_status s ch.1, ch.2).1.
Proof. by destruct ch. Qed.

Lemma owns_set_parser st ch : owns ch.1 -> owns (set_parser st ch.1, ch.2).1.
Proof. by destruct ch. Qed.

Lemma owns_deliver ev ch : owns ch.1 -> owns (deliver ev ch).1.
Proof.
  intros Ho. destruct ev as [chunk| |e]; [| |done].
  - unfold deliver, parser_write. destruct (c_status ch.1); try done.
    destruct (t_transform (c_parser ch.1) chunk) as [[st' rows] [e|]].
    + by apply owns_emit, owns_set_status, owns_emit_all, owns_set_parser.
    + by apply owns_emit_all, owns_set_parser.
  - unfold deliver, parser_end. destruct (c_status ch.1); try done.
    destruct (t_flush (c_parser ch.1)) as [rows [e|]];
      by apply owns_emit, owns_set_status, owns_emit_all.
Qed.

(** Pushing rows appends them, in order, to the array. *)
Lemma emit_all_v_data rows v :
  emit_all_v (map EvData rows) v =
  View (v_promise v) ((fun a => a ++ rows) <$> v_array v) (v_status v) (v_parser v).
Proof.
  revert v. induction rows as [|r rows IH]; intros [p a s st]; simpl.
  - f_equal. destruct a; simpl; [|done]. by rewrite app_nil_r.
  - unfold emit_all_v in *; simpl. rewrite IH; simpl. f_equal.
    destruct a; simpl; [|done]. by rewrite <- app_assoc.
Qed.

Lemma coherent_new : coherent (new_view (T := T)).
Proof. done. Qed.

Lemma coherent_deliver ev v : coherent v -> coherent (deliver_v ev v).
Proof.
  destruct v as [p a s st], ev as [chunk| |e]; simpl; [| |done].
  - destruct s; try done. unfold coherent; simpl. intros ->.
    destruct (t_transform st chunk) as [[st' rows] [e|]];
      rewrite emit_all_v_data; simpl; eauto.
  - destruct s; try done. unfold coherent; simpl. intros ->.
    destruct (t_flush st) as [rows [e|]]; rewrite emit_all_v_data; simpl; eauto.
Qed.

Lemma coherent_run evs v : coherent v -> coherent (run_v evs v).
Proof.
  revert v. induction evs as [|ev evs IH]; intros v Hv; [done|].
  apply IH. by apply coherent_deliver.
Qed.

(** Once the promise is settled the parser stream is over, and no event of
    the read stream reaches a handler any more. *)
Lemma settled_deliver ev v :
  coherent v -> v_promise v <> Pending -> deliver_v ev v = v.
Proof.
  destruct v as [p a s st]; unfold coherent; simpl. intros Hc Hp.
  destruct s; [done| |]; by destruct ev.
Qed.

Lemma settled_run evs v :
  coherent v -> v_promise v <> Pending -> run_v evs v = v.
Proof.
  induction evs as [|ev evs IH]; intros Hc Hp; [done|].
  unfold run_v in *; simpl. rewrite settled_deliver by done. by apply IH.
Qed.

Lemma run_v_app evs1 evs2 v : run_v (evs1 ++ evs2) v = run_v evs2 (run_v evs1 v).
Proof. apply foldl_app. Qed.

(** The handlers alone: whatever the piped stream emits, a settled promise
    keeps its state. *)
Lemma emit_all_settled (evs : list (parser_event Row)) ch :
  c_promise ch.1 <> Pending -> c_promise (emit_all evs ch).1 = c_promise ch.1.
Proof.
  revert ch. induction evs as [|ev evs IH]; intros [c h] Hp; [done|].
  unfold emit_all in *; simpl. rewrite IH.
  - destruct ev; simpl; [done| |]; simpl in Hp; by destruct (c_promise c).
  - destruct ev; simpl; [done| |]; simpl in Hp; by destruct (c_promise c).
Qed.

Lemma run_v_cons ev evs v : run_v (ev :: evs) v = run_v evs (deliver_v ev v).
Proof. done. Qed.

Lemma deliver_v_data chunk p a st :
  deliver_v (FsData chunk) (View p a Flowing st) =
  match t_transform st chunk with
  | (st', rows, None) => View p ((fun x => x ++ rows) <$> a) Flowing st'
  | (st', rows, Some e) => View (reject e p) ((fun x => x ++ rows) <$> a) Destroyed st'
  end.
Proof.
  simpl. destruct (t_transform st chunk) as [[st' rows] [e|]];
    by rewrite emit_all_v_data.
Qed.

Lemma deliver_v_end p a st :
  deliver_v FsEnd (View p a Flowing st) =
  match t_flush st with
  | (rows, None) => View (resolve tt p) ((fun x => x ++ rows) <$> a) Ended st
  | (rows, Some e) => View (reject e p) ((fun x => x ++ rows) <$> a) Destroyed st
  end.
Proof.
  simpl. destruct (t_flush st) as [rows [e|]]; by rewrite emit_all_v_data.
Qed.

(** A read stream that delivers its chunks and ends: the caller gets the rows
    the transform pushed, in the order it pushed them, or its error. *)
Lemma run_v_feed chunks st arr :
  observe_v (run_v (map FsData chunks ++ [FsEnd]) (View Pending (Some arr) Flowing st)) =
  match feed st chunks with
  | (rows, None) => Resolved (arr ++ rows)
  | (_, Some e) => Failed e
  end.
Proof.
  revert st arr. induction chunks as [|chunk chunks IH]; intros st arr.
  - change (map FsData [] ++ [FsEnd]) with [FsEnd].
    rewrite run_v_cons, deliver_v_end. simpl.
    by destruct (t_flush st) as [rows [e|]].
  - change (map FsData (chunk :: chunks) ++ [FsEnd])
      with (FsData chunk :: (map FsData chunks ++ [FsEnd])).
    rewrite run_v_cons, deliver_v_data. simpl.
    destruct (t_transform st chunk) as [[st' rows] [e|]].
    + rewrite settled_run; [done|by eexists|done].
    + simpl. rewrite IH. destruct (feed st' chunks) as [rows' [e|]]; [done|].
      by rewrite app_assoc.
Qed.

(** *** Invocations inside a process *)

Lemma observe_call_view ch : owns ch.1 -> observe_call ch.1 ch.2 = observe_v (view_of ch).
Proof.
  destruct ch as [c h]. unfold observe_call, observe_v, view_of, owns; simpl.
  intros Ho. destruct (c_promise c) as [|l|e] eqn:Hp; simpl; try done.
  by rewrite (Ho l eq_refl).
Qed.

Lemma observe_tracks w id v0 d t :
  tracks w id v0 d t -> observe w id = observe_v (run_v d v0).
Proof.
  intros (c & Hc & _ & Ho & Hv). unfold observe. rewrite Hc, <- Hv.
  by apply (observe_call_view (c, w_heap w)).
Qed.

(** *** What [createReadStream] gives for a path *)

Lemma lookup_path_ok (fs : filesystem) p x : fs !! p = Some x -> path_ok p = true.
Proof. unfold lookup, filesystem_lookup. by destruct (path_ok p). Qed.

Lemma start_coherent fs p : coherent (start_view (T := T) fs p).
Proof.
  unfold start_view. destruct (createReadStream fs p) as [e|evs]; [|done].
  unfold coherent; simpl. by exists e.
Qed.

Lemma start_readable fs p content :
  fs !! p = Some (File true content) ->
  start_view (T := T) fs p = new_view /\
  start_events fs p = map FsData (chunks highWaterMark content) ++ [FsEnd].
Proof.
  intros Hf. unfold start_view, start_events, createReadStream, stream_events.
  by rewrite (lookup_path_ok _ _ _ Hf), Hf.
Qed.

Lemma start_unreadable fs p :
  path_ok p = true -> readable fs p = false ->
  exists code syscall path,
    start_view (T := T) fs p = new_view /\
    start_events fs p = [FsError (SystemError code syscall path)].
Proof.
  intros Hp. unfold readable, start_view, start_events, createReadStream, stream_events.
  rewrite Hp. destruct (fs !! p) as [[|[|] content]|]; intros; try done; by eexists _, _, _.
Qed.

Lemma start_invalid fs p :
  path_ok p = false ->
  start_view (T := T) fs p = View (Rejected invalid_path) (Some []) Destroyed t_new /\
  start_events fs p = [].
Proof. intros Hp. unfold start_view, start_events, createReadStream. by rewrite Hp. Qed.

(** *** The process *)

#[local] Arguments readDataFromCSV : simpl never.

Lemma wf_empty : wf (empty_world (Row := Row) (St := St)).
Proof. split; intros *; unfold empty_world; simpl; by rewrite lookup_empty. Qed.

(** The invocation that [readDataFromCSV] adds to the process. *)
Lemma invoke_call fs p w :
  exists c,
    readDataFromCSV fs p w =
      (fresh (dom (w_calls w)),
       World (<[fresh (dom (w_heap w)) := []]> (w_heap w))
             (<[fresh (dom (w_calls w)) := c]> (w_calls w)) (w_uncaught w)) /\
    c_data c = fresh (dom (w_heap w)) /\
    c_source c = start_events fs p /\
    owns c /\
    view_of (c, <[fresh (dom (w_heap w)) := []]> (w_heap w)) = start_view fs p.
Proof.
  unfold readDataFromCSV, start_events, start_view.
  destruct (createReadStream fs p) as [e|evs]; eexists; (split; [reflexivity|]);
    repeat split; try done; unfold view_of, new_view; simpl; by rewrite lookup_insert_eq.
Qed.

Lemma invoke_uncaught fs p w : w_uncaught (readDataFromCSV fs p w).2 = w_uncaught w.
Proof. done. Qed.

Lemma wf_invoke fs p w : wf w -> wf (readDataFromCSV fs p w).2.
Proof.
  intros [Hd Hi]. destruct (invoke_call fs p w) as (c0 & -> & Hcd & _). simpl.
  assert (Hl : fresh (dom (w_heap w)) ∉ dom (w_heap w)) by apply is_fresh.
  split; simpl.
  - intros id' c'. rewrite lookup_insert. case_decide; intros Hc; simplify_eq.
    + rewrite Hcd. set_solver.
    + apply Hd in Hc. set_solver.
  - intros id1 id2 c1 c2. rewrite !lookup_insert.
    repeat case_decide; intros H1 H2 He; simplify_eq; try done.
    + apply Hd in H2. rewrite Hcd in He. by rewrite <- He in H2.
    + apply Hd in H1. rewrite Hcd in He. by rewrite He in H1.
    + by eapply Hi.
Qed.

(** A process that an uncaught exception has ended does nothing. *)
Lemma step_dead w id : w_uncaught w <> [] -> step w id = w.
Proof. unfold step. by destruct (w_uncaught w). Qed.

Lemma exec1_dead w a : w_uncaught w <> [] -> exec1 w a = w.
Proof. destruct a; simpl; [by destruct (w_uncaught w)|apply step_dead]. Qed.

Lemma exec_dead acts w : w_uncaught w <> [] -> exec acts w = w.
Proof.
  induction acts as [|a acts IH]; intros Hu; [done|].
  simpl. rewrite exec1_dead by done. by apply IH.
Qed.

Lemma exec_alive acts w : w_uncaught (exec acts w) = [] -> w_uncaught w = [].
Proof.
  intros Hu. destruct (w_uncaught w) as [|e es] eqn:E; [done|].
  rewrite exec_dead in Hu by (by rewrite E). congruence.
Qed.

Lemma exec1_invoke w fs p :
  w_uncaught w = [] -> exec1 w (Invoke fs p) = (readDataFromCSV fs p w).2.
Proof. intros Hu. simpl. by rewrite Hu. Qed.

Lemma step_alive w id :
  w_uncaught w = [] ->
  step w id =
  match w_calls w !! id with
  | Some c =>
      match c_source c with
      | [] => w
      | ev :: rest =>
          World (deliver ev (set_source rest c, w_heap w)).2
                (<[id := (deliver ev (set_source rest c, w_heap w)).1]> (w_calls w))
                (unhandled ev)
      end
  | None => w
  end.
Proof. intros Hu. unfold step. by rewrite Hu. Qed.

Lemma wf_step w id : wf w -> wf (step w id).
Proof.
  intros [Hd Hi]. destruct (w_uncaught w) as [|e es] eqn:Hu;
    [|rewrite step_dead by (by rewrite Hu); by split].
  rewrite step_alive by done.
  destruct (w_calls w !! id) as [c|] eqn:Hc; [|done].
  destruct (c_source c) as [|ev rest] eqn:Hs; [done|].
  destruct (framed_deliver ev (set_source rest c, w_heap w)) as (Fd & _ & Fh & _).
  simpl in Fd. split; simpl.
  - intros id' c'. rewrite Fh. simpl. rewrite lookup_insert.
    case_decide; intros Hc'; simplify_eq; [rewrite Fd|]; eauto.
  - intros id1 id2 c1 c2. rewrite !lookup_insert.
    repeat case_decide; intros H1 H2 He; simplify_eq; try done.
    + rewrite Fd in He. by eapply Hi.
    + rewrite Fd in He. by eapply Hi.
    + by eapply Hi.
Qed.

Lemma wf_exec1 w a : wf w -> wf (exec1 w a).
Proof.
  intros Hw. destruct a as [fs p|id]; simpl; [|by apply wf_step].
  destruct (w_uncaught w); [by apply wf_invoke|done].
Qed.

Lemma wf_exec acts w : wf w -> wf (exec acts w).
Proof.
  revert w. induction acts as [|a acts IH]; intros w Hw; [done|].
  by apply IH, wf_exec1.
Qed.

Lemma tracks_new fs p w :
  tracks (readDataFromCSV fs p w).2 (readDataFromCSV fs p w).1
         (start_view fs p) [] (start_events fs p).
Proof.
  destruct (invoke_call fs p w) as (c & -> & Hcd & Hs & Ho & Hv). exists c. simpl.
  split; [by rewrite lookup_insert_eq|]. done.
Qed.

Lemma tracks_invoke fs p w id v0 d t :
  wf w -> tracks w id v0 d t -> tracks (readDataFromCSV fs p w).2 id v0 d t.
Proof.
  intros [Hd _] (c & Hc & Hs & Ho & Hv). exists c.
  destruct (invoke_call fs p w) as (c0 & -> & _). simpl.
  assert (Hl : fresh (dom (w_heap w)) ∉ dom (w_heap w)) by apply is_fresh.
  assert (Hi : fresh (dom (w_calls w)) ∉ dom (w_calls w)) by apply is_fresh.
  repeat split; try done.
  - rewrite lookup_insert_ne; [done|]. intros <-. apply Hi, elem_of_dom. eauto.
  - rewrite <- Hv. unfold view_of; simpl. rewrite lookup_insert_ne; [done|].
    intros He. apply Hd in Hc. by rewrite <- He in Hc.
Qed.

Lemma tracks_step_other w id id' v0 d t :
  wf w -> id' <> id -> tracks w id v0 d t -> tracks (step w id') id v0 d t.
Proof.
  intros [_ Hi] Hne (c & Hc & Hs & Ho & Hv).
  destruct (w_uncaught w) as [|e es] eqn:Hu;
    [|rewrite step_dead by (by rewrite Hu); by exists c].
  rewrite step_alive by done.
  destruct (w_calls w !! id') as [c'|] eqn:Hc'; [|by exists c].
  destruct (c_source c') as [|ev rest] eqn:Hs'; [by exists c|].
  destruct (framed_deliver ev (set_source rest c', w_heap w)) as (_ & _ & _ & Ff).
  exists c. simpl. repeat split; try done.
  - by rewrite lookup_insert_ne.
  - rewrite <- Hv. unfold view_of; simpl. rewrite Ff; [done|].
    simpl. intros He. apply Hne. symmetry. by eapply Hi.
Qed.

Lemma tracks_step_self w id v0 d t :
  w_uncaught w = [] -> tracks w id v0 d t ->
  tracks (step w id) id v0 (d ++ take 1 t) (drop 1 t) /\
  w_uncaught (step w id) = flat_map unhandled (take 1 t).
Proof.
  intros Hu (c & Hc & Hs & Ho & Hv). rewrite step_alive by done. rewrite Hc, Hs.
  destruct t as [|ev rest]; simpl.
  - rewrite app_nil_r. split; [by exists c|done].
  - rewrite drop_0, take_0, app_nil_r. split; [|done].
    set (ch := (set_source rest c, w_heap w)).
    destruct (framed_deliver ev ch) as (_ & Fs & _ & _).
    exists (deliver ev ch).1. simpl. repeat split.
    + by rewrite lookup_insert_eq.
    + by rewrite Fs.
    + by apply owns_deliver.
    + rewrite run_v_app, <- Hv. rewrite <- surjective_pairing, view_deliver.
      by destruct c.
Qed.

Lemma take_S_drop {A} k (t : list A) : take (S k) t = take 1 t ++ take k (drop 1 t).
Proof. destruct t as [|x t]; simpl; [by rewrite take_nil|]. by rewrite ?take_0, ?drop_0. Qed.

Lemma drop_S_drop {A} k (t : list A) : drop (S k) t = drop k (drop 1 t).
Proof. destruct t as [|x t]; simpl; [by rewrite drop_nil|]. by rewrite ?drop_0. Qed.

(** Whatever the process does, an invocation has received a prefix of the
    events of its stream: as many as its stream was given turns, or fewer when
    the process has been ended by an uncaught exception. *)
Lemma tracks_exec id acts : forall w v0 d t,
  wf w -> tracks w id v0 d t ->
  exists k, (k <= fired id acts)%nat /\
    tracks (exec acts w) id v0 (d ++ take k t) (drop k t) /\
    (w_uncaught (exec acts w) = [] ->
     k = fired id acts /\ Forall (fun ev => unhandled ev = []) (take k t)).
Proof.
  induction acts as [|a acts IH]; intros w v0 d t Hw Ht.
  - exists O. simpl. rewrite take_0, drop_0, app_nil_r. by repeat split.
  - destruct (w_uncaught w) as [|e es] eqn:Hu.
    2:{ exists O. rewrite exec_dead by (by rewrite Hu).
        rewrite take_0, drop_0, app_nil_r. split; [lia|]. split; [done|].
        intros Hu'. congruence. }
    change (exec (a :: acts) w) with (exec acts (exec1 w a)).
    destruct a as [fs p|id'].
    + rewrite exec1_invoke by done. simpl fired.
      apply IH; [by apply wf_invoke|by apply tracks_invoke].
    + simpl exec1. simpl fired. destruct (Nat.eqb_spec id' id) as [->|Hne].
      * destruct (tracks_step_self w id v0 d t Hu Ht) as [Ht1 Hu1].
        destruct (IH (step w id) v0 _ _ (wf_step _ id Hw) Ht1) as (k & Hk & Htr & Hal).
        exists (S k). split; [lia|]. split.
        -- by rewrite (take_S_drop k t), (drop_S_drop k t), app_assoc.
        -- intros Hend. destruct (Hal Hend) as [-> Hq]. split; [done|].
           rewrite take_S_drop. apply Forall_app. split; [|done].
           apply exec_alive in Hend. rewrite Hu1 in Hend.
           destruct t as [|ev rest]; simpl in *; [done|].
           rewrite ?take_0 in *. rewrite app_nil_r in Hend. by constructor.
      * apply IH; [by apply wf_step|by apply tracks_step_other].
Qed.

(** In a process, an invocation behaves as it does alone: what its caller
    observes depends on the events of its own read stream and on nothing
    else, as long as the process lives. *)
Lemma observe_exec fs p w acts :
  wf w ->
  exists k, (k <= fired (readDataFromCSV fs p w).1 acts)%nat /\
    observe (exec acts (readDataFromCSV fs p w).2) (readDataFromCSV fs p w).1 =
      observe_v (run_v (take k (start_events fs p)) (start_view fs p)) /\
    (w_uncaught (exec acts (readDataFromCSV fs p w).2) = [] ->
     k = fired (readDataFromCSV fs p w).1 acts /\
     Forall (fun ev => unhandled ev = []) (take k (start_events fs p))).
Proof.
  intros Hw.
  destruct (tracks_exec (readDataFromCSV fs p w).1 acts _ _ _ _
              (wf_invoke fs p w Hw) (tracks_new fs p w)) as (k & Hk & Ht & Hal).
  exists k. split; [done|]. split; [|done]. by rewrite (observe_tracks _ _ _ _ _ Ht).
Qed.

Lemma run_exec sched w : run sched w = exec (map Fire sched) w.
Proof. revert w. induction sched as [|id sched IH]; intros w; [done|apply IH]. Qed.

Lemma pending_new fs p w :
  pending_events (readDataFromCSV fs p w).2 (readDataFromCSV fs p w).1 =
  length (start_events fs p).
Proof.
  destruct (invoke_call fs p w) as (c & -> & _ & Hs & _).
  unfold pending_events; simpl. by rewrite lookup_insert_eq, Hs.
Qed.

(** The stream of an invocation fires [n] times in a row and none of the
    events is an error: the process lives and the events have arrived. *)
Lemma run_quiet id n : forall w v0 d t,
  tracks w id v0 d t -> w_uncaught w = [] ->
  Forall (fun ev => unhandled ev = []) (take n t) ->
  w_uncaught (run (replicate n id) w) = [] /\
  tracks (run (replicate n id) w) id v0 (d ++ take n t) (drop n t).
Proof.
  induction n as [|n IH]; intros w v0 d t Ht Hu Hq.
  - simpl. by rewrite take_0, drop_0, app_nil_r.
  - destruct (tracks_step_self w id v0 d t Hu Ht) as [Ht1 Hu1].
    rewrite take_S_drop in Hq. apply Forall_app in Hq as [Hq1 Hq2].
    assert (Hu2 : w_uncaught (step w id) = []).
    { rewrite Hu1. destruct t as [|ev rest]; simpl in *; [done|].
      rewrite ?take_0 in *. apply Forall_cons in Hq1 as [-> _]. done. }
    destruct (IH (step w id) v0 _ _ Ht1 Hu2 Hq2) as [Hu3 Ht3].
    change (run (replicate (S n) id) w) with (run (replicate n id) (step w id)).
    split; [done|]. by rewrite (take_S_drop n t), (drop_S_drop n t), app_assoc.
Qed.

Lemma quiet_data chunks :
  Forall (fun ev => unhandled ev = []) (map FsData chunks ++ [FsEnd]).
Proof.
  apply Forall_app. split; [|by constructor].
  apply Forall_forall. intros ev Hev. apply list_elem_of_fmap in Hev as (c & -> & _). done.
Qed.

(** A readable file, in a process that lives: the invocation left to run
    ends with what the transform makes of the blocks of the file. *)
Lemma drain_readable fs p content w :
  wf w -> w_uncaught w = [] ->
  fs !! p = Some (File true content) ->
  let a := readDataFromCSV fs p w in
  observe (drain a.1 a.2) a.1 = feed_outcome (feed t_new (chunks highWaterMark content)) /\
  w_uncaught (drain a.1 a.2) = [] /\
  wf (drain a.1 a.2) /\
  tracks (drain a.1 a.2) a.1 new_view (map FsData (chunks highWaterMark content) ++ [FsEnd]) [].
Proof.
  intros Hw Hu Hf a. unfold drain, a. rewrite pending_new.
  destruct (start_readable fs p content Hf) as [Hv He].
  pose proof (tracks_new fs p w) as Ht. rewrite Hv, He in Ht. rewrite He.
  set (evs := map FsData (chunks highWaterMark content) ++ [FsEnd]) in *.
  destruct (run_quiet (readDataFromCSV fs p w).1 (length evs) _ _ _ _ Ht Hu) as [Hu' Ht'].
  { rewrite firstn_all. apply quiet_data. }
  rewrite firstn_all, drop_all in Ht'. change ([] ++ evs) with evs in Ht'.
  split; [|split; [done|split; [|done]]].
  - rewrite (observe_tracks _ _ _ _ _ Ht'). unfold evs, new_view. rewrite run_v_feed.
    unfold feed_outcome. by destruct (feed _ _) as [rows [e|]].
  - rewrite run_exec. by apply wf_exec, wf_invoke.
Qed.

(** A readable file: the caller gets what the transform makes of its blocks. *)
Lemma load_readable fs p content :
  fs !! p = Some (File true content) ->
  load fs p = (feed_outcome (feed t_new (chunks highWaterMark content)), []).
Proof.
  intros Hf. unfold load.
  destruct (drain_readable fs p content empty_world wf_empty eq_refl Hf)
    as (Ho & Hu & _).
  destruct (readDataFromCSV fs p empty_world) as [id w]. simpl in *.
  by rewrite Ho, Hu.
Qed.

(** A path that [fs] accepts and that cannot be read: the error is thrown
    out of the event loop and the promise stays pending. *)
Lemma load_unreadable fs p :
  path_ok p = true -> readable fs p = false ->
  exists code syscall path,
    start_events fs p = [FsError (SystemError code syscall path)] /\
    load fs p = (Unsettled, [SystemError code syscall path]).
Proof.
  intros Hp Hr.
  destruct (start_unreadable fs p Hp Hr) as (code & syscall & path & Hv & He).
  exists code, syscall, path. split; [done|]. unfold load.
  pose proof (tracks_new fs p empty_world) as Ht. rewrite Hv, He in Ht.
  pose proof (pending_new fs p empty_world) as Hn. rewrite He in Hn.
  destruct (readDataFromCSV fs p empty_world) as [id w] eqn:E. simpl in *.
  assert (Hu : w_uncaught w = []).
  { pose proof (invoke_uncaught fs p empty_world) as H. by rewrite E in H. }
  unfold drain. rewrite Hn. simpl.
  destruct (tracks_step_self w id _ _ _ Hu Ht) as [Ht1 Hu1].
  by rewrite (observe_tracks _ _ _ _ _ Ht1), Hu1.
Qed.

(** A path that [fs] refuses: the promise is rejected before any stream
    exists. *)
Lemma load_invalid fs p :
  path_ok p = false -> load fs p = (Failed invalid_path, []).
Proof.
  intros Hp. destruct (start_invalid fs p Hp) as [Hv He]. unfold load.
  pose proof (tracks_new fs p empty_world) as Ht. rewrite Hv, He in Ht.
  pose proof (pending_new fs p empty_world) as Hn. rewrite He in Hn.
  destruct (readDataFromCSV fs p empty_world) as [id w] eqn:E. simpl in *.
  assert (Hu : w_uncaught w = []).
  { pose proof (invoke_uncaught fs p empty_world) as H. by rewrite E in H. }
  unfold drain. rewrite Hn. simpl.
  by rewrite (observe_tracks _ _ _ _ _ Ht), Hu.
Qed.

(** C2, the code as it is written: when the path is one that [fs] accepts
    and does not name an existing readable file, the promise is never
    settled.  The access error is emitted by the read stream, where nothing
    listens, and is thrown out of the event loop; the handler that rejects the
    promise is registered on the parser stream and is never called. *)
Theorem inaccessible_path_never_settles fs p :
  path_ok p = true ->
  readable fs p = false ->
  exists code syscall path,
    load fs p = (Unsettled, [SystemError code syscall path]).
Proof.
  intros Hp Hr.
  destruct (load_unreadable fs p Hp Hr) as (code & syscall & path & _ & Hl).
  by exists code, syscall, path.
Qed.

Lemma fired_app id acts1 acts2 :
  fired id (acts1 ++ acts2) = (fired id acts1 + fired id acts2)%nat.
Proof.
  induction acts1 as [|[fs p|id'] acts1 IH]; simpl; [done|done|].
  destruct (Nat.eqb id' id); simpl; by rewrite IH.
Qed.

Lemma exec_app acts1 acts2 w : exec (acts1 ++ acts2) w = exec acts2 (exec acts1 w).
Proof. apply foldl_app. Qed.

Lemma step_calls_is_Some w id id' :
  is_Some (w_calls (step w id') !! id) -> is_Some (w_calls w !! id).
Proof.
  destruct (w_uncaught w) as [|e es] eqn:Hu;
    [|by rewrite step_dead by (by rewrite Hu)].
  rewrite step_alive by done.
  destruct (w_calls w !! id') as [c|] eqn:Hc; [|done].
  destruct (c_source c); [done|]. simpl. rewrite lookup_insert.
  case_decide; [subst; by rewrite Hc|done].
Qed.

(** Every invocation of a running process is one that [readDataFromCSV]
    started and that has received a prefix of the events of its stream. *)
Lemma tracked_exec1 w a :
  wf w ->
  (forall id, is_Some (w_calls w !! id) ->
     exists v0 d t, coherent v0 /\ tracks w id v0 d t) ->
  forall id, is_Some (w_calls (exec1 w a) !! id) ->
     exists v0 d t, coherent v0 /\ tracks (exec1 w a) id v0 d t.
Proof.
  intros Hw Hall id Hid.
  destruct (w_uncaught w) as [|e es] eqn:Hu.
  2:{ rewrite exec1_dead in * by (by rewrite Hu). by apply Hall. }
  destruct a as [fs p|id'].
  - rewrite exec1_invoke in * by done.
    destruct (decide (id = (readDataFromCSV fs p w).1)) as [->|Hne].
    + eexists _, _, _. split; [apply start_coherent|apply tracks_new].
    + destruct (Hall id) as (v0 & d & t & Hc & Ht).
      * destruct (invoke_call fs p w) as (c0 & E & _). rewrite E in Hid, Hne.
        simpl in *. by rewrite lookup_insert_ne in Hid.
      * exists v0, d, t. split; [done|]. by apply tracks_invoke.
  - simpl in *.
    destruct (Hall id (step_calls_is_Some _ _ _ Hid)) as (v0 & d & t & Hc & Ht).
    destruct (decide (id' = id)) as [->|Hne].
    + eexists v0, _, _. split; [done|]. by apply tracks_step_self.
    + exists v0, d, t. split; [done|]. by apply tracks_step_other.
Qed.

Lemma reachable_tracked acts : forall w,
  wf w ->
  (forall id, is_Some (w_calls w !! id) ->
     exists v0 d t, coherent v0 /\ tracks w id v0 d t) ->
  forall id, is_Some (w_calls (exec acts w) !! id) ->
             exists v0 d t, coherent v0 /\ tracks (exec acts w) id v0 d t.
Proof.
  induction acts as [|a acts IH]; intros w Hw Hall; [done|]. simpl.
  apply IH; [by apply wf_exec1|by apply tracked_exec1].
Qed.

(** C10: the promise of an invocation settles at most once.  Once a caller
    has observed it resolved with the array or rejected with an error, the
    outcome stays the same whatever happens afterwards in the process: later
    events of its own streams, events of other invocations, new
    invocations. *)
Theorem settled_outcome_is_final acts1 acts2 id (o : outcome Row) :
  observe (exec acts1 empty_world) id = o ->
  o <> Unsettled ->
  observe (exec (acts1 ++ acts2) empty_world) id = o.
Proof.
  intros Ho Hs. rewrite exec_app.
  pose proof (wf_exec acts1 _ wf_empty) as Hw.
  destruct (w_calls (exec acts1 empty_world) !! id) as [c|] eqn:Hc.
  - destruct (reachable_tracked acts1 empty_world wf_empty) with (id := id)
      as (v0 & d & t & Hv0 & Ht); [|by rewrite Hc|].
    { intros id'. unfold empty_world; simpl. rewrite lookup_empty.
      by intros [? ?]. }
    rewrite (observe_tracks _ _ _ _ _ Ht) in Ho.
    destruct (tracks_exec id acts2 _ _ _ _ Hw Ht) as (k & _ & Ht2 & _).
    rewrite (observe_tracks _ _ _ _ _ Ht2).
    rewrite run_v_app, settled_run; [done|by apply coherent_run|].
    intros Hp. apply Hs. rewrite <- Ho. unfold observe_v. by rewrite Hp.
  - exfalso. apply Hs. rewrite <- Ho. unfold observe. by rewrite Hc.
Qed.

(** The handler of [data] has no guard of its own: a row emitted after [end]
    would land in the array the caller already holds.  The piped stream never
    emits one ([settled_deliver]). *)
Remark late_row_would_reach_the_array (r : Row) c h :
  c_promise c = Pending -> h !! c_data c = Some [] ->
  let ch1 := emit EvEnd (c, h) in
  let ch2 := emit (EvData r) ch1 in
  observe_call ch1.1 ch1.2 = Resolved [] /\ observe_call ch2.1 ch2.2 = Resolved [r].
Proof.
  intros Hp Hh. unfold emit, on_end, on_data, observe_call, array_push; simpl.
  rewrite Hp; simpl. by rewrite lookup_alter_eq, Hh.
Qed.

Lemma invoke_fresh_id fs p w : w_calls w !! (readDataFromCSV fs p w).1 = None.
Proof. unfold readDataFromCSV; simpl. apply not_elem_of_dom, is_fresh. Qed.

Lemma invoke_ids_differ fs p1 p2 w :
  (readDataFromCSV fs p1 w).1 <> (readDataFromCSV fs p2 (readDataFromCSV fs p1 w).2).1.
Proof.
  intros He. pose proof (invoke_fresh_id fs p2 (readDataFromCSV fs p1 w).2) as Hf.
  rewrite <- He in Hf. destruct (invoke_call fs p1 w) as (c & E & _).
  rewrite E in Hf. simpl in Hf. by rewrite lookup_insert_eq in Hf.
Qed.

(** The invocation left to run from its start, [n] turns, in a process that
    lives: it sees the first [n] events of its stream when none of them is an
    error. *)
Lemma observe_run_quiet fs p w n :
  w_uncaught w = [] ->
  Forall (fun ev => unhandled ev = []) (take n (start_events fs p)) ->
  observe (run (replicate n (readDataFromCSV fs p w).1) (readDataFromCSV fs p w).2)
          (readDataFromCSV fs p w).1 =
  observe_v (run_v (take n (start_events fs p)) (start_view fs p)).
Proof.
  intros Hu Hq.
  destruct (run_quiet (readDataFromCSV fs p w).1 n _ _ _ _ (tracks_new fs p w) Hu Hq)
    as [_ Ht].
  by rewrite (observe_tracks _ _ _ _ _ Ht).
Qed.

(** C9, the code as it is written.  Two invocations that run concurrently
    have distinct arrays, and as long as the process lives each caller
    observes what it would observe had the other invocation never been made
    and its own stream had emitted as many events.  But the error of a read
    stream is not caught: when the first path cannot be read, the event that
    carries its error ends the process, and the second invocation stays as it
    was, its promise pending for a file that, loaded alone, ends resolved or
    rejected. *)
Theorem concurrent_invocations_independent fs p1 p2 w acts :
  wf w -> w_uncaught w = [] ->
  let a := readDataFromCSV fs p1 w in
  let b := readDataFromCSV fs p2 a.2 in
  let b' := readDataFromCSV fs p2 w in
  (forall ca cb, w_calls b.2 !! a.1 = Some ca -> w_calls b.2 !! b.1 = Some cb ->
                 c_data ca <> c_data cb) /\
  (w_uncaught (exec acts b.2) = [] ->
   observe (exec acts b.2) a.1 = observe (run (replicate (fired a.1 acts) a.1) a.2) a.1 /\
   observe (exec acts b.2) b.1 = observe (run (replicate (fired b.1 acts) b'.1) b'.2) b'.1) /\
  (path_ok p1 = true -> readable fs p1 = false ->
   w_uncaught (exec (Fire a.1 :: acts) b.2) <> [] /\
   observe (exec (Fire a.1 :: acts) b.2) b.1 = observe b.2 b.1 /\
   forall content, fs !! p2 = Some (File true content) ->
     observe b.2 b.1 = Unsettled /\
     observe (drain b'.1 b'.2) b'.1
     = feed_outcome (feed t_new (chunks highWaterMark content))).
Proof.
  intros Hw Hu a b b'.
  pose proof (wf_invoke fs p1 w Hw) as Hwa. fold a in Hwa.
  pose proof (wf_invoke fs p2 a.2 Hwa) as Hwb. fold b in Hwb.
  assert (Hab : a.1 <> b.1) by apply invoke_ids_differ.
  assert (Hua : w_uncaught a.2 = []) by done.
  assert (Hub : w_uncaught b.2 = []) by done.
  pose proof (tracks_new fs p2 a.2) as Htb. fold b in Htb.
  pose proof (tracks_invoke fs p2 a.2 a.1 _ _ _ Hwa (tracks_new fs p1 w)) as Hta.
  fold a b in Hta.
  split; [|split].
  - intros ca cb Ha Hb He. apply Hab. destruct Hwb as [_ Hi]. by eapply Hi.
  - intros Hend. split.
    + destruct (tracks_exec a.1 acts _ _ _ _ Hwb Hta) as (k & _ & Ht & Hal).
      destruct (Hal Hend) as [Hk Hq]. rewrite Hk in Ht, Hq.
      rewrite (observe_tracks _ _ _ _ _ Ht).
      symmetry. apply (observe_run_quiet fs p1 w _ Hu Hq).
    + destruct (tracks_exec b.1 acts _ _ _ _ Hwb Htb) as (k & _ & Ht & Hal).
      destruct (Hal Hend) as [Hk Hq]. rewrite Hk in Ht, Hq.
      rewrite (observe_tracks _ _ _ _ _ Ht).
      symmetry. apply (observe_run_quiet fs p2 w _ Hu Hq).
  - intros Hp Hr.
    destruct (start_unreadable fs p1 Hp Hr) as (code & syscall & path & Hv & He).
    rewrite He in Hta.
    destruct (tracks_step_self b.2 a.1 _ _ _ Hub Hta) as [_ Hu1].
    assert (Hdead : w_uncaught (step b.2 a.1) <> []) by (by rewrite Hu1).
    change (exec (Fire a.1 :: acts) b.2) with (exec acts (step b.2 a.1)).
    rewrite exec_dead by done.
    split; [done|]. split.
    + rewrite (observe_tracks _ _ _ _ _ (tracks_step_other _ _ _ _ _ _ Hwb Hab Htb)).
      by rewrite (observe_tracks _ _ _ _ _ Htb).
    + intros content Hf. split.
      * rewrite (observe_tracks _ _ _ _ _ Htb).
        by destruct (start_readable fs p2 content Hf) as [-> _].
      * by destruct (drain_readable fs p2 content w Hw Hu Hf) as [? _].
Qed.

(** Loading the same readable file twice, one call after the other: both
    calls end with what the transform makes of the file, the result of the
    first one is not disturbed by the second, and each call has an array of
    its own. *)
Lemma load_twice fs p content w :
  wf w -> w_uncaught w = [] ->
  fs !! p = Some (File true content) ->
  let a := readDataFromCSV fs p w in
  let wa := drain a.1 a.2 in
  let b := readDataFromCSV fs p wa in
  let wb := drain b.1 b.2 in
  let o := feed_outcome (feed t_new (chunks highWaterMark content)) in
  observe wa a.1 = o /\ observe wb b.1 = o /\ observe wb a.1 = o /\
  (forall ca cb, w_calls wb !! a.1 = Some ca -> w_calls wb !! b.1 = Some cb ->
                 c_data ca <> c_data cb).
Proof.
  intros Hw Hu Hf a wa b wb o.
  destruct (drain_readable fs p content w Hw Hu Hf) as (Ha & Hua & Hwa & Hta).
  fold a in Ha, Hua, Hwa, Hta. fold wa in Ha, Hua, Hwa, Hta.
  destruct (drain_readable fs p content wa Hwa Hua Hf) as (Hb & Hub & Hwb & Htb).
  fold b in Hb, Hub, Hwb, Htb. fold wb in Hb, Hub, Hwb, Htb.
  split; [done|]. split; [done|]. split.
  - pose proof (tracks_invoke fs p wa a.1 _ _ _ Hwa Hta) as Ht.
    destruct (tracks_exec a.1 (map Fire (replicate (pending_events b.2 b.1) b.1)) _ _ _ _
                (wf_invoke fs p wa Hwa) Ht) as (k & _ & Ht' & _).
    rewrite take_nil, app_nil_r in Ht'. rewrite <- run_exec in Ht'.
    unfold o. rewrite <- Ha.
    exact (eq_trans (observe_tracks _ _ _ _ _ Ht') (eq_sym (observe_tracks _ _ _ _ _ Hta))).
  - intros ca cb Hca Hcb He.
    assert (Hab : a.1 = b.1) by (destruct Hwb as [_ Hi]; by eapply Hi).
    pose proof (invoke_fresh_id fs p wa) as Hfr. fold b in Hfr. rewrite <- Hab in Hfr.
    destruct Hta as (c & Hc & _). by rewrite Hc in Hfr.
Qed.

End NodeFacts.
End NodeFacts.

(** * Properties of the parser *)

Module CsvFacts.

Import CsvParser CsvText.

(** *** Buffers *)

Lemma buf_length_nonneg (b : Buffer) : 0 <= buf_length b.
Proof. unfold buf_length. lia. Qed.

Lemma buf_length_app (b1 b2 : Buffer) :
  buf_length (b1 ++ b2) = buf_length b1 + buf_length b2.
Proof. unfold buf_length. rewrite length_app. lia. Qed.

Lemma buf_length_cons x (b : Buffer) : buf_length (x :: b) = 1 + buf_length b.
Proof. unfold buf_length. simpl. lia. Qed.

Lemma buf_length_nil : buf_length [] = 0.
Proof. done. Qed.

Lemma buf_get_app_r (pre post : Buffer) :
  buf_get (pre ++ post) (buf_length pre) = head post.
Proof.
  unfold buf_get, buf_length.
  destruct (Z.ltb_spec (Z.of_nat (length pre)) 0) as [?|_]; [lia|].
  rewrite Nat2Z.id, nth_error_app2 by lia. rewrite Nat.sub_diag. by destruct post.
Qed.

Lemma buf_get_last (pre : Buffer) x (post : Buffer) :
  buf_get ((pre ++ [x]) ++ post) (buf_length pre + 1 - 1) = Some x.
Proof.
  replace (buf_length pre + 1 - 1) with (buf_length pre) by lia.
  by rewrite <- app_assoc, buf_get_app_r.
Qed.

Lemma buf_get_neg (b : Buffer) i : i < 0 -> buf_get b i = None.
Proof. unfold buf_get. intros. by destruct (Z.ltb_spec i 0); [|lia]. Qed.

Lemma byte_is_Some x c : byte_is (Some x) c = Ascii.eqb x c.
Proof. done. Qed.

Lemma byte_is_ne x c : x <> c -> byte_is (Some x) c = false.
Proof. intros. by apply Ascii.eqb_neq. Qed.

Lemma byte_is_refl c : byte_is (Some c) c = true.
Proof. apply Ascii.eqb_refl. Qed.

Ltac buf_idx :=
  rewrite ?buf_length_app, ?buf_length_cons, ?buf_length_nil;
  simpl length in *; lia.

Section Parser.

Context {rel : release}.

(** *** The reference reading of a text *)

Lemma join_snoc sep (ps : list Buffer) (q : Buffer) :
  ps <> [] -> join sep (ps ++ [q]) = join sep ps ++ sep :: q.
Proof.
  induction ps as [|p ps IH]; intros Hne; [done|].
  destruct ps as [|p' ps]; [done|].
  change (join sep ((p :: p' :: ps) ++ [q])) with (p ++ sep :: join sep ((p' :: ps) ++ [q])).
  rewrite IH by done. simpl. by rewrite <- app_assoc.
Qed.

Lemma join_last_app sep (ps : list Buffer) (q l : Buffer) :
  join sep (ps ++ [q ++ l]) = join sep (ps ++ [q]) ++ l.
Proof.
  destruct ps as [|p ps]; [done|].
  rewrite !join_snoc by done. by rewrite <- !app_assoc.
Qed.

Lemma split_go_join sep (l : Buffer) : forall closed cur,
  join sep ((split_go sep closed cur l).1 ++ [(split_go sep closed cur l).2]) =
  join sep (closed ++ [cur]) ++ l.
Proof.
  induction l as [|x l IH]; intros closed cur; simpl.
  - by rewrite app_nil_r.
  - destruct (Ascii.eqb_spec x sep) as [->|Hx].
    + rewrite IH. rewrite join_snoc by (by destruct closed). by rewrite <- app_assoc.
    + rewrite IH, join_last_app. by rewrite <- app_assoc.
Qed.

(** Splitting loses nothing: the segments joined by the separator are the
    text again. *)
Lemma join_split_on sep (l : Buffer) : join sep (split_on sep l) = l.
Proof.
  unfold split_on. pose proof (split_go_join sep l [] []) as Hj.
  by destruct (split_go sep [] [] l).
Qed.

Lemma split_go_sep_free sep (l : Buffer) : forall closed cur,
  Forall (Forall (fun x => x <> sep)) closed -> Forall (fun x => x <> sep) cur ->
  Forall (Forall (fun x => x <> sep))
    ((split_go sep closed cur l).1 ++ [(split_go sep closed cur l).2]).
Proof.
  induction l as [|x l IH]; intros closed cur Hcl Hc; simpl.
  - apply Forall_app. split; [done|]. by constructor.
  - destruct (Ascii.eqb_spec x sep) as [->|Hx]; apply IH.
    + apply Forall_app. split; [done|]. by constructor.
    + constructor.
    + done.
    + apply Forall_app. split; [done|]. by constructor.
Qed.

(** No segment holds a separator. *)
Lemma split_on_sep_free sep (l : Buffer) :
  Forall (Forall (fun x => x <> sep)) (split_on sep l).
Proof.
  unfold split_on. pose proof (split_go_sep_free sep l [] []) as Hf.
  destruct (split_go sep [] [] l). apply Hf; constructor.
Qed.

Example text_lines_sample :
  text_lines (Loader.unlines ["a,b"; ""; "1,2"]%string ++ Loader.bytes "x")
  = [Loader.bytes "a,b"; []; Loader.bytes "1,2"; Loader.bytes "x"].
Proof. reflexivity. Qed.

Example fields_sample :
  map fields [Loader.bytes "a,b"; Loader.bytes ""; Loader.bytes ","; Loader.bytes "a,";
              Loader.bytes " 007 ,true"]
  = [["a"; "b"]; []; [""; ""]; ["a"; ""]; [" 007 "; "true"]]%string.
Proof. reflexivity. Qed.
(** *** Cells and lines of plain text *)

(** A cell without quote characters is taken as it stands. *)
Lemma parseCell_loop_plain (c : Buffer) : forall (pre post out : Buffer) fuel,
  Forall (fun x => x <> dquote) c ->
  (length c <= fuel)%nat ->
  parseCell_loop defaults fuel (pre ++ c ++ post) (buf_length pre)
                 (buf_length pre + buf_length c) out = out ++ c.
Proof.
  induction c as [|x c IH]; intros pre post out fuel Hq Hf.
  - rewrite app_nil_r. destruct fuel; simpl; [done|].
    rewrite buf_length_nil, Z.add_0_r, Z.ltb_irrefl. done.
  - destruct fuel as [|fuel]; [simpl in Hf; lia|].
    inversion Hq as [|? ? Hx Hq']; subst. simpl parseCell_loop.
    rewrite buf_length_cons.
    pose proof (buf_length_nonneg c).
    destruct (Z.ltb_spec (buf_length pre) (buf_length pre + (1 + buf_length c)));
      [|lia].
    rewrite (buf_get_app_r pre (x :: c ++ post)). simpl (head _).
    rewrite (byte_is_ne x dquote Hx). simpl andb. cbv iota.
    rewrite (buf_get_app_r pre (x :: c ++ post)). simpl (head _). simpl option_list.
    replace (pre ++ x :: c ++ post) with ((pre ++ [x]) ++ c ++ post)
      by (by rewrite <- app_assoc).
    replace (buf_length pre + 1) with (buf_length (pre ++ [x]))
      by (rewrite buf_length_app; done).
    replace (buf_length pre + (1 + buf_length c))
      with (buf_length (pre ++ [x]) + buf_length c)
      by (rewrite buf_length_app, buf_length_cons, buf_length_nil; lia).
    rewrite IH; [|done|simpl in Hf; lia]. by rewrite <- app_assoc.
Qed.

Lemma parseCell_plain (pre c post : Buffer) :
  Forall (fun x => x <> dquote) c ->
  (c = [] -> byte_is (head post) dquote = false) ->
  parseCell defaults (pre ++ c ++ post) (buf_length pre) (buf_length pre + buf_length c)
  = buf_toString c.
Proof.
  intros Hq Hp. unfold parseCell.
  assert (Hs : byte_is (buf_get (pre ++ c ++ post) (buf_length pre)) (quote defaults)
               = false).
  { rewrite buf_get_app_r. destruct c as [|x c]; simpl.
    - by apply Hp.
    - inversion Hq; subst. by apply Ascii.eqb_neq. }
  rewrite Hs. simpl.
  rewrite (parseCell_loop_plain c pre post []); [done|done|].
  unfold buf_length. lia.
Qed.

Lemma split_go_closed sep (l : Buffer) : forall d0 d cur,
  split_go sep (d0 ++ d) cur l =
  ((d0 ++ (split_go sep d cur l).1), (split_go sep d cur l).2).
Proof.
  induction l as [|x l IH]; intros d0 d cur; simpl; [done|].
  destruct (Ascii.eqb x sep); [|apply IH]. rewrite <- app_assoc. apply IH.
Qed.

Lemma split_go_from sep (l : Buffer) d0 cur :
  split_go sep d0 cur l =
  ((d0 ++ (split_go sep [] cur l).1), (split_go sep [] cur l).2).
Proof. rewrite <- (app_nil_r d0) at 1. apply split_go_closed. Qed.

(** The segment being read at the end is a suffix of the text, free of
    separators, and what precedes it is empty or ends with a separator. *)
Lemma split_go_suffix sep (l : Buffer) : forall d cur,
  Forall (fun x => x <> sep) cur ->
  Forall (fun x => x <> sep) (split_go sep d cur l).2 /\
  exists l0, cur ++ l = l0 ++ (split_go sep d cur l).2 /\
             (l0 = [] \/ last l0 = Some sep).
Proof.
  induction l as [|x l IH]; intros d cur Hc; simpl.
  - split; [done|]. exists []. by rewrite app_nil_r; auto.
  - destruct (Ascii.eqb_spec x sep) as [->|Hx].
    + destruct (IH (d ++ [cur]) [] ltac:(constructor)) as (Hf & l0 & He & Hl).
      split; [done|]. exists (cur ++ sep :: l0). split.
      * simpl in He. by rewrite <- app_assoc, <- app_comm_cons, <- He.
      * right. destruct Hl as [->|Hl].
        -- by rewrite last_snoc.
        -- rewrite last_app. rewrite last_cons. by rewrite Hl.
    + destruct (IH d (cur ++ [x])) as (Hf & l0 & He & Hl).
      { apply Forall_app. split; [done|]. by constructor. }
      split; [done|]. exists l0. split; [|done]. by rewrite <- He, <- app_assoc.
Qed.

Lemma buf_get_pred (pre post : Buffer) :
  buf_get (pre ++ post) (buf_length pre - 1) = last pre.
Proof.
  destruct pre as [|x pre _] using rev_ind.
  - rewrite buf_length_nil. by rewrite buf_get_neg by lia.
  - rewrite last_snoc, buf_length_app, buf_length_cons, buf_length_nil.
    replace (buf_length pre + (1 + 0) - 1) with (buf_length pre) by lia.
    by rewrite <- !app_assoc, buf_get_app_r.
Qed.

(** The loop of [parseLine] over plain text: the cells closed by a comma, and
    the offset of the one left open. *)
Lemma parseLine_loop_plain (c : Buffer) :
  forall (b pre cur post : Buffer) fuel cells i e off,
  b = pre ++ cur ++ c ++ post ->
  Forall (fun x => x <> dquote) (cur ++ c) ->
  (length c <= fuel)%nat ->
  off = buf_length pre -> i = off + buf_length cur -> e = i + buf_length c ->
  parseLine_loop defaults fuel b e i false off cells =
  (e - buf_length (split_go comma [] cur c).2,
   cells ++ map buf_toString (split_go comma [] cur c).1).
Proof.
  induction c as [|x c IH]; intros b pre cur post fuel cells i e off Hb Hq Hf -> -> ->.
  - rewrite buf_length_nil, Z.add_0_r. simpl split_go. simpl map.
    rewrite app_nil_r.
    destruct fuel; simpl; [|rewrite Z.ltb_irrefl]; f_equal; lia.
  - destruct fuel as [|fuel]; [simpl in Hf; lia|].
    apply Forall_app in Hq as [Hqc Hqx]. inversion Hqx as [|? ? Hx Hqc']; subst x0 l.
    pose proof (buf_length_nonneg c). rewrite buf_length_cons.
    assert (Hget : buf_get b (buf_length pre + buf_length cur) = Some x).
    { subst b. rewrite <- buf_length_app, app_assoc. by rewrite buf_get_app_r. }
    simpl parseLine_loop.
    destruct (Z.ltb_spec (buf_length pre + buf_length cur)
                (buf_length pre + buf_length cur + (1 + buf_length c))); [|lia].
    rewrite Hget. rewrite (byte_is_ne x dquote Hx). simpl orb. cbv iota.
    simpl (split_go _ _ _ _). rewrite byte_is_Some.
    destruct (Ascii.eqb_spec x comma) as [->|Hc]; simpl andb; cbv iota.
    + rewrite (IH b (pre ++ cur ++ [comma]) [] post fuel _ _ _ _);
        [|subst b; by rewrite <- !app_assoc|done|buf_idx|buf_idx|buf_idx|buf_idx].
      rewrite (split_go_from comma c [cur] []). simpl fst. simpl snd.
      f_equal. rewrite <- app_assoc. f_equal. simpl. f_equal.
      subst b. apply parseCell_plain; [done|done].
    + rewrite (IH b pre (cur ++ [x]) post fuel cells _ _ _);
        [|subst b; by rewrite <- !app_assoc| |buf_idx|buf_idx|buf_idx|buf_idx].
      * done.
      * apply Forall_app. split; [|done]. apply Forall_app. split; [done|].
        by constructor.
Qed.

Lemma last_Forall {A} (P : A -> Prop) (l : list A) x :
  Forall P l -> last l = Some x -> P x.
Proof.
  intros Hf Hl. destruct l as [|y l _] using rev_ind; [done|].
  rewrite last_snoc in Hl. simplify_eq. apply Forall_app in Hf as [_ Hf].
  by inversion Hf.
Qed.

(** [parseLine] on a plain line that sits in the buffer between [pre] and
    [post]: its cells are the fields of the line. *)
Lemma parseLine_plain (b pre line post : Buffer) s :
  b = pre ++ line ++ post ->
  plain line ->
  (line = [] -> byte_is (last pre) cr = false /\ byte_is (last pre) comma = false) ->
  parseLine defaults b (buf_length pre) (buf_length pre + buf_length line + 1) s =
  if first s
  then (set_headers (fields line) (set_lineNumber (lineNumber s + 1) s), [])
  else (set_lineNumber (lineNumber s + 1) s, [writeRow (headers s) (fields line)]).
Proof.
  intros Hb Hp Hbnd.
  assert (Hq : Forall (fun x => x <> dquote) line).
  { eapply Forall_impl; [exact Hp|]. by intros x [? ?]. }
  assert (Hlast : buf_get b (buf_length pre + buf_length line - 1) = last (pre ++ line)).
  { subst b. rewrite <- buf_length_app, app_assoc. apply buf_get_pred. }
  assert (Hcr : byte_is (last (pre ++ line)) cr = false).
  { rewrite last_app. destruct (last line) as [x|] eqn:Hl.
    - apply byte_is_ne. by apply (last_Forall _ _ _ Hp Hl).
    - apply last_None in Hl. by apply Hbnd. }
  unfold parseLine.
  replace (buf_length pre + buf_length line + 1 - 1)
    with (buf_length pre + buf_length line) by lia.
  rewrite Hlast, Hcr, andb_false_r.
  rewrite (parseLine_loop_plain line b pre [] post _ [] _ _ _ Hb Hq);
    [|unfold buf_length; lia|done|buf_idx|done].
  destruct (split_go_suffix comma line [] [] ltac:(constructor)) as (Hf & l0 & He & Hl0).
  simpl in He.
  destruct (split_go comma [] [] line) as [closed cur'] eqn:Hsp. simpl fst. simpl snd.
  simpl in Hf, He.
  assert (Hfirst : first (set_lineNumber (lineNumber s + 1) s) = first s) by done.
  assert (Hhs : headers (set_lineNumber (lineNumber s + 1) s) = headers s) by done.
  rewrite Hfirst, Hhs.
  rewrite ?Hlast.
  set (cells1 :=
    if buf_length pre + buf_length line - buf_length cur' <? buf_length pre + buf_length line
    then ([] ++ map buf_toString closed) ++
         [parseCell defaults b (buf_length pre + buf_length line - buf_length cur')
            (buf_length pre + buf_length line)]
    else [] ++ map buf_toString closed).
  set (cells2 :=
    if byte_is (last (pre ++ line)) (separator defaults) then cells1 ++ [""%string]
    else cells1).
  assert (Hc2 : cells2 = fields line); [|by rewrite Hc2].
  unfold cells2, cells1. clear cells1 cells2.
  destruct cur' as [|y cur'].
  - rewrite buf_length_nil, Z.sub_0_r, Z.ltb_irrefl. rewrite app_nil_r in He. subst l0.
    destruct Hl0 as [->|Hl0].
    + simpl in Hsp. simplify_eq. rewrite app_nil_r.
      destruct (Hbnd eq_refl) as [_ Hco]. simpl (separator defaults). by rewrite Hco.
    + rewrite last_app, Hl0. simpl (separator defaults). rewrite byte_is_refl.
      unfold fields, split_on. rewrite Hsp. destruct line; [done|].
      by rewrite map_app.
  - pose proof (buf_length_nonneg cur'). rewrite buf_length_cons.
    destruct (Z.ltb_spec (buf_length pre + buf_length line - (1 + buf_length cur'))
                (buf_length pre + buf_length line)); [|lia].
    assert (Hcell : parseCell defaults b
                      (buf_length pre + buf_length line - (1 + buf_length cur'))
                      (buf_length pre + buf_length line) = buf_toString (y :: cur')).
    { assert (Hb' : b = (pre ++ l0) ++ (y :: cur') ++ post).
      { subst b. rewrite He. by rewrite <- !app_assoc. }
      rewrite Hb'.
      replace (buf_length pre + buf_length line - (1 + buf_length cur'))
        with (buf_length (pre ++ l0)) by (rewrite He; buf_idx).
      replace (buf_length pre + buf_length line)
        with (buf_length (pre ++ l0) + buf_length (y :: cur')) by (rewrite He; buf_idx).
      apply parseCell_plain; [|done].
      rewrite He in Hq. by apply Forall_app in Hq as [_ ?]. }
    rewrite Hcell.
    assert (Hnc : byte_is (last (pre ++ line)) (separator defaults) = false).
    { rewrite He, app_assoc, last_app.
      destruct (last (y :: cur')) as [z|] eqn:Hz.
      - apply byte_is_ne. by apply (last_Forall _ _ _ Hf Hz).
      - by apply last_None in Hz. }
    rewrite Hnc. unfold fields, split_on. rewrite Hsp.
    destruct line; [by destruct l0|]. by rewrite map_app.
Qed.

(** *** The loop of [_transform] over plain text *)

Lemma transform_loop_S fuel b start i s out :
  transform_loop defaults (S fuel) b start i s out =
  if i <? buf_length b then
    let chr := buf_get b i in
    let nextChr := if i + 1 <? buf_length b then buf_get b (i + 1) else None in
    let s := set_rowLength (rowLength s + 1) s in
    if rowLength s >? maxRowBytes defaults then
      (s, out, Some (JsError "Row exceeds the maximum size"))
    else if negb (escaped s) && byte_is chr (escape defaults)
            && byte_is nextChr (quote defaults) && negb (i =? start) then
      transform_loop defaults fuel b start (i + 1) (set_escaped true s) out
    else if byte_is chr (quote defaults) then
      transform_loop defaults fuel b start (i + 1)
        (if escaped s then set_escaped false s else set_quoted (negb (quoted s)) s) out
    else if quoted s then
      transform_loop defaults fuel b start (i + 1) s out
    else
      let s :=
        if first s && negb (customNewline defaults) then
          if byte_is chr nl then set_newline nl s
          else if byte_is chr cr then
                 if negb (byte_is nextChr nl) then set_newline cr s else s
               else s
        else s in
      if byte_is chr (cur_newline s) then
        let '(s, rows) := parseLine defaults b (previousEnd s) (i + 1) s in
        transform_loop defaults fuel b start (i + 1)
          (set_rowLength 0 (set_previousEnd (i + 1) s)) (out ++ rows)
      else
        transform_loop defaults fuel b start (i + 1) s out
  else (s, out, None).
Proof. reflexivity. Qed.

Lemma rows_of_lines_snoc closed line :
  rows_of_lines (closed ++ [line]) =
  rows_of_lines closed ++
  match closed with
  | [] => []
  | h :: _ => [writeRow (fields h) (fields line)]
  end.
Proof. destruct closed as [|h closed]; simpl; [done|]. by rewrite map_app. Qed.

Lemma line_start_bytes p0 :
  line_start p0 -> byte_is (last p0) cr = false /\ byte_is (last p0) comma = false.
Proof. intros [Hn | Hn]; rewrite Hn; done. Qed.

Lemma plain_app l1 l2 : plain (l1 ++ l2) <-> plain l1 /\ plain l2.
Proof. apply Forall_app. Qed.

Lemma transform_loop_plain (rest : Buffer) :
  forall b pre fuel start s out closed cur,
  b = pre ++ rest ->
  plain cur -> plain rest ->
  (length rest <= fuel)%nat ->
  buf_length cur + buf_length rest <= MAX_SAFE_INTEGER ->
  reading_at s pre closed cur ->
  exists s' rows,
    transform_loop defaults fuel b start (buf_length pre) s out = (s', out ++ rows, None) /\
    rows_of_lines (split_go nl closed cur rest).1 = rows_of_lines closed ++ rows /\
    reading_at s' b (split_go nl closed cur rest).1 (split_go nl closed cur rest).2.
Proof.
  induction rest as [|x rest IH];
    intros b pre fuel start s out closed cur Hb Hpc Hpr Hf Hmax Hrd.
  - rewrite app_nil_r in Hb. subst b. exists s, []. simpl split_go.
    rewrite !app_nil_r. split; [|done].
    destruct fuel; simpl; [done|]. by rewrite Z.ltb_irrefl.
  - destruct fuel as [|fuel]; [simpl in Hf; lia|].
    inversion Hpr as [|? ? [Hxq Hxc] Hpr']; subst x0 l.
    pose proof (buf_length_nonneg rest). pose proof (buf_length_nonneg cur).
    rewrite buf_length_cons in Hmax.
    destruct Hrd as ((He & Hqu & Hnl & Hfi & Hhs & Hrl) & Hpv & p0 & Hpre & Hpe & Hls).
    assert (Hlen : (buf_length pre <? buf_length b) = true).
    { apply Z.ltb_lt. subst b. buf_idx. }
    assert (Hget : buf_get b (buf_length pre) = Some x).
    { subst b. by rewrite buf_get_app_r. }
    rewrite transform_loop_S, Hlen. cbv zeta. rewrite Hget.
    destruct s as [esc fst ln pe rl q pv hs nlc]. simpl in He, Hqu, Hnl, Hfi, Hrl, Hpv, Hpe.
    subst esc q nlc rl pv pe. simpl in Hhs.
    assert (Hxq' : Ascii.eqb x dquote = false) by by apply Ascii.eqb_neq.
    assert (Hxc' : Ascii.eqb x cr = false) by by apply Ascii.eqb_neq.
    unfold set_rowLength. simpl.
    destruct (Z.gtb_spec (buf_length cur + 1) MAX_SAFE_INTEGER) as [?|_]; [lia|].
    rewrite Hxq', Hxc'. simpl.
    assert (Hs1 :
      (if fst && true
       then if Ascii.eqb x nl
            then set_newline nl (State false fst ln (buf_length p0) (buf_length cur + 1)
                                   false None hs nl)
            else State false fst ln (buf_length p0) (buf_length cur + 1) false None hs nl
       else State false fst ln (buf_length p0) (buf_length cur + 1) false None hs nl)
      = State false fst ln (buf_length p0) (buf_length cur + 1) false None hs nl).
    { by destruct fst, (Ascii.eqb x nl). }
    rewrite Hs1. simpl (cur_newline _).
    destruct (Ascii.eqb_spec x nl) as [->|Hxn].
    + (* a line feed closes the line *)
      simpl (previousEnd _).
      replace (buf_length pre + 1) with (buf_length p0 + buf_length cur + 1)
        by (subst pre; buf_idx).
      rewrite (parseLine_plain b p0 cur (nl :: rest));
        [|subst b pre; by rewrite <- !app_assoc|done
         |intros _; by apply line_start_bytes].
      simpl (first _).
      destruct (IH b (pre ++ [nl]) fuel start
                  (State false false (ln + 1) (buf_length (pre ++ [nl])) 0 false None
                     (if fst then fields cur else hs) nl)
                  (out ++ if fst then [] else [writeRow hs (fields cur)])
                  (closed ++ [cur]) [])
        as (s' & rows & Hloop & Hrows & Hrd');
        [subst b; by rewrite <- app_assoc|constructor|done|simpl in Hf; lia
        |buf_idx| |].
      { repeat split; try done.
        - simpl. by destruct closed.
        - simpl. intros h rest' Hcl. destruct closed as [|h0 closed]; simpl in *.
          + subst fst. by simplify_eq.
          + subst fst. simplify_eq. by eapply Hhs.
        - exists (pre ++ [nl]). rewrite app_nil_r. repeat split; try done.
          right. by rewrite last_snoc. }
      exists s', ((if fst then [] else [writeRow hs (fields cur)]) ++ rows).
      simpl split_go. split; [|split; [|done]].
      * replace (buf_length p0 + buf_length cur + 1) with (buf_length (pre ++ [nl]))
          by (subst pre; buf_idx).
        destruct fst; simpl; simpl in Hloop; rewrite Hloop.
        -- by rewrite app_nil_r.
        -- by rewrite <- app_assoc.
      * rewrite Hrows, rows_of_lines_snoc, <- app_assoc. f_equal. f_equal.
        destruct closed as [|h closed]; simpl in *; subst fst; [done|].
        by rewrite (Hhs h closed eq_refl).
    + (* any other byte extends it *)
      destruct (IH b (pre ++ [x]) fuel start
                  (State false fst ln (buf_length p0) (buf_length cur + 1) false None hs nl)
                  out closed (cur ++ [x]))
        as (s' & rows & Hloop & Hrows & Hrd');
        [subst b; by rewrite <- app_assoc|apply plain_app; split; [done|by constructor]
        |done|simpl in Hf; lia|buf_idx| |].
      { repeat split; try done.
        - simpl. buf_idx.
        - exists p0. subst pre. by rewrite <- app_assoc. }
      exists s', rows. simpl split_go.
      destruct (Ascii.eqb_spec x nl) as [?|_]; [done|].
      split; [|done]. rewrite <- Hloop. by rewrite buf_length_app.
Qed.

Lemma split_go_app sep (l1 l2 : Buffer) : forall d cur,
  split_go sep d cur (l1 ++ l2) =
  split_go sep (split_go sep d cur l1).1 (split_go sep d cur l1).2 l2.
Proof.
  induction l1 as [|x l1 IH]; intros d cur; simpl; [done|].
  destruct (Ascii.eqb x sep); apply IH.
Qed.

Lemma split_go_cur_Forall (P : ascii -> Prop) sep (l : Buffer) : forall d cur,
  Forall P cur -> Forall P l -> Forall P (split_go sep d cur l).2.
Proof.
  induction l as [|x l IH]; intros d cur Hc Hl; simpl; [done|].
  inversion Hl; subst. destruct (Ascii.eqb x sep); apply IH; try done.
  apply Forall_app. split; [done|]. by constructor.
Qed.

Lemma split_go_cur_length sep (l : Buffer) : forall d cur,
  buf_length (split_go sep d cur l).2 <= buf_length cur + buf_length l.
Proof.
  induction l as [|x l IH]; intros d cur; simpl.
  - buf_idx.
  - pose proof (buf_length_nonneg cur).
    destruct (Ascii.eqb x sep).
    + specialize (IH (d ++ [cur]) []). rewrite buf_length_cons.
      rewrite buf_length_nil in IH. lia.
    + specialize (IH d (cur ++ [x])). rewrite buf_length_cons.
      rewrite buf_length_app, buf_length_cons, buf_length_nil in IH. lia.
Qed.

Lemma set_prev_None s : prev s = None -> set_prev None s = s.
Proof. destruct s; simpl. by intros ->. Qed.

(** One chunk of plain text. *)
Lemma transform_plain s data closed cur :
  plain cur -> plain data ->
  buf_length cur + buf_length data <= MAX_SAFE_INTEGER ->
  reading s closed cur ->
  exists s' rows,
    _transform defaults s data = (s', rows, None) /\
    rows_of_lines (split_go nl closed cur data).1 = rows_of_lines closed ++ rows /\
    reading s' (split_go nl closed cur data).1 (split_go nl closed cur data).2.
Proof.
  intros Hpc Hpd Hmax [Hfl Hpv].
  set (old := match prev s with Some p => p | None => [] end).
  assert (Hat : reading_at (set_prev None s) old closed cur).
  { split; [by destruct s|]. split; [by destruct s|].
    unfold old. destruct (prev s) as [p|].
    - destruct Hpv as (_ & p0 & ? & ? & ?). exists p0. by destruct s.
    - destruct Hpv as [-> ?]. exists []. repeat split; [by destruct s|by left]. }
  destruct (transform_loop_plain data (old ++ data) old
              (Z.to_nat (buf_length (old ++ data) - buf_length old))
              (buf_length old) (set_prev None s) [] closed cur)
    as (s' & rows & Hloop & Hrows & Hat'); try done.
  { rewrite buf_length_app. unfold buf_length. lia. }
  destruct Hat' as (Hfl' & Hpv' & p0 & Hb & Hpe & Hls).
  destruct (split_go nl closed cur data) as [closed' cur'] eqn:Hsp.
  simpl fst in *. simpl snd in *.
  assert (Hunf : _transform defaults s data =
    if previousEnd s' =? buf_length (old ++ data) then (set_previousEnd 0 s', rows, None)
    else if buf_length (old ++ data) - previousEnd s' <? buf_length data then
           (set_prev (Some data)
              (set_previousEnd
                 (previousEnd s' - (buf_length (old ++ data) - buf_length data)) s'),
            rows, None)
         else (set_prev (Some (old ++ data)) s', rows, None)).
  { unfold _transform. unfold old in *. destruct (prev s) as [p|].
    - by rewrite Hloop.
    - change (buf_length []) with 0 in Hloop. change ([] ++ data) with data in *.
      by rewrite Hloop. }
  pose proof (buf_length_nonneg cur'). pose proof (buf_length_nonneg p0).
  assert (Hlenb : buf_length (old ++ data) = buf_length p0 + buf_length cur')
    by (rewrite Hb; buf_idx).
  rewrite Hunf, Hpe, Hlenb.
  destruct (Z.eqb_spec (buf_length p0) (buf_length p0 + buf_length cur')) as [He|Hne].
  - (* the buffer ends with a line feed *)
    assert (cur' = []) as Hc.
    { destruct cur' as [|a t]; [done|]. pose proof (buf_length_nonneg t).
      rewrite buf_length_cons in He. lia. }
    eexists _, rows. split; [done|]. split; [done|].
    split; [by destruct s'|]. destruct s'; simpl in *. by rewrite Hpv'.
  - assert (Hcne : cur' <> []) by (intros Hc; rewrite Hc, buf_length_nil in Hne; lia).
    destruct (Z.ltb_spec (buf_length p0 + buf_length cur' - buf_length p0)
                (buf_length data)) as [Hlt|Hge].
    + (* the open line lies within the new chunk *)
      eexists _, rows. split; [done|]. split; [done|].
      split; [by destruct s'|].
      destruct (app_eq_inv _ _ _ _ Hb) as [(k & Ho & Hc)|(k & Hp0 & Hd)].
      { exfalso. pose proof (buf_length_nonneg k). rewrite Hc in Hlt. revert Hlt.
        buf_idx. }
      assert (Hk : k <> []).
      { intros ->. simpl in Hd. rewrite Hd in Hlt. lia. }
      destruct s'; simpl in *. split; [done|]. exists k. repeat split; [done| |].
      * rewrite Hd. buf_idx.
      * right. destruct Hls as [Hn|Hl].
        -- rewrite Hn in Hp0. by destruct old, k.
        -- rewrite Hp0, last_app in Hl. destruct (last k) eqn:Hlk; [done|].
           by apply last_None in Hlk.
    + (* the open line started in an earlier chunk *)
      eexists _, rows. split; [done|]. split; [done|].
      split; [by destruct s'|].
      destruct s'; simpl in *. split; [done|]. by exists p0.
Qed.

(** Chunks of plain text, then the end of the input. *)
Lemma feed_plain (chunks : list Buffer) : forall s closed cur,
  plain cur -> plain (concat chunks) ->
  buf_length cur + buf_length (concat chunks) <= MAX_SAFE_INTEGER ->
  reading s closed cur ->
  exists rows,
    Node.feed (T := csv defaults) s chunks = (rows, None) /\
    rows_of_lines (close_lines (split_go nl closed cur (concat chunks))) =
    rows_of_lines closed ++ rows.
Proof.
  induction chunks as [|data chunks IH]; intros s closed cur Hpc Hpl Hmax Hrd.
  - simpl. unfold _flush. destruct Hrd as [Hfl Hpv].
    destruct Hfl as (He & _ & _ & Hfi & Hhs & _). rewrite He.
    destruct (prev s) as [p|].
    + destruct Hpv as (Hne & p0 & Hp & Hpe & Hls).
      replace (buf_length p + 1) with (buf_length p0 + buf_length cur + 1)
        by (rewrite Hp; buf_idx).
      rewrite Hpe, (parseLine_plain p p0 cur []);
        [|by rewrite app_nil_r|done|intros _; by apply line_start_bytes].
      unfold close_lines. simpl. destruct cur as [|c cur]; [done|].
      rewrite rows_of_lines_snoc.
      destruct closed as [|h closed]; rewrite Hfi; simpl.
      * by exists [].
      * eexists. split; [done|]. by rewrite (Hhs h closed eq_refl).
    + destruct Hpv as [-> _]. exists []. by rewrite app_nil_r.
  - simpl concat in *. apply plain_app in Hpl as [Hpd Hpl].
    pose proof (buf_length_nonneg (concat chunks)).
    pose proof (buf_length_nonneg data).
    rewrite buf_length_app in Hmax.
    destruct (transform_plain s data closed cur) as (s' & rows & Ht & Hrows & Hrd');
      [done|done|lia|done|].
    pose proof (split_go_cur_length nl data closed cur).
    destruct (IH s' _ _ (split_go_cur_Forall _ nl data closed cur Hpc Hpd) Hpl
                ltac:(lia) Hrd') as (rows' & Hf & Hrows').
    exists (rows ++ rows'). split.
    + simpl. change (t_transform s data) with (_transform defaults s data).
      rewrite Ht. by rewrite Hf.
    + by rewrite split_go_app, Hrows', Hrows, app_assoc.
Qed.

Lemma reading_new : reading (new_state defaults) [] [].
Proof. by repeat split. Qed.

(** The parser reads a plain text as the text says, whatever the way the
    text is cut into chunks. *)
Lemma decode_plain (chunks : list Buffer) :
  plain (concat chunks) ->
  buf_length (concat chunks) <= MAX_SAFE_INTEGER ->
  decode defaults chunks = (dataset_of (concat chunks), None).
Proof.
  intros Hp Hmax.
  destruct (feed_plain chunks (new_state defaults) [] []) as (rows & Hf & Hrows);
    [constructor|done|by rewrite buf_length_nil|apply reading_new|].
  change (rows_of_lines [] ++ rows) with rows in Hrows.
  unfold decode. rewrite Hf. f_equal. by rewrite <- Hrows.
Qed.

(** *** Rows *)

Lemma pretty_N_go_ne_underscore x s s' :
  s <> String "_" s' -> pretty_N_go x s <> String "_" s'.
Proof.
  revert s. induction (N.lt_wf_0 x) as [x _ IH]; intros s Hs.
  assert (x = 0 \/ 0 < x)%N as [-> |Hx] by lia.
  - by rewrite pretty_N_go_0.
  - rewrite pretty_N_go_step by done. apply IH.
    + by apply N.div_lt.
    + unfold pretty_N_char. by repeat case_match.
Qed.

Lemma index_key_not_proto (j : nat) :
  String.eqb (String "_" (pretty j)) "__proto__" = false.
Proof.
  apply String.eqb_neq. intros [= He]. revert He.
  unfold pretty, pretty_nat, pretty, pretty_N. case_decide; [done|].
  by apply pretty_N_go_ne_underscore.
Qed.

Lemma obj_set_lookup o key value k v :
  obj_set o key value !! k = Some v -> o !! k = Some v \/ v = value.
Proof.
  unfold obj_set. destruct (String.eqb key "__proto__"); [by left|].
  rewrite lookup_insert. case_decide; [|by left]. intros [= <-]. by right.
Qed.

Lemma obj_set_keys o key value :
  obj_keys (obj_set o key value) =
  obj_keys o ∪ (if String.eqb key "__proto__" then ∅ else {[key]}).
Proof.
  unfold obj_set, obj_keys. destruct (String.eqb key "__proto__").
  - set_solver.
  - rewrite dom_insert_L. set_solver.
Qed.

(** Every value of a record is one of the cells it was made from. *)
Lemma writeRow_go_values hs cells : forall index o k v,
  writeRow_go hs cells index o !! k = Some v -> o !! k = Some v \/ v ∈ cells.
Proof.
  induction cells as [|cell cells IH]; intros index o k v Hk; simpl in Hk; [by left|].
  apply IH in Hk as [Hk|Hk]; [|right; by constructor].
  destruct (hs !! index) as [h|]; [destruct (skipped h); [by left|]|];
    apply obj_set_lookup in Hk as [?| ->]; (by left) || (right; by constructor).
Qed.

Lemma writeRow_values hs cells k v : writeRow hs cells !! k = Some v -> v ∈ cells.
Proof.
  intros Hk. apply writeRow_go_values in Hk as [Hk|?]; [|done].
  by rewrite lookup_empty in Hk.
Qed.

Lemma writeRow_go_keys hs cells : forall index o,
  obj_keys (writeRow_go hs cells index o) =
  obj_keys o ∪ list_to_set (omap (column_key hs) (seq index (length cells))).
Proof.
  induction cells as [|cell cells IH]; intros index o; simpl.
  - set_solver.
  - rewrite IH. unfold column_key at 2, stored. destruct (hs !! index) as [h|].
    + destruct (skipped h); [rewrite orb_true_r; simpl; set_solver|].
      rewrite obj_set_keys, orb_false_r.
      destruct (String.eqb h "__proto__"); simpl; set_solver.
    + rewrite obj_set_keys, index_key_not_proto. simpl. set_solver.
Qed.

(** The keys of a record depend on the headers and on the number of cells
    of its line. *)
Lemma writeRow_keys hs cells : obj_keys (writeRow hs cells) = row_keys hs (length cells).
Proof.
  unfold writeRow, row_keys. rewrite writeRow_go_keys. unfold obj_keys.
  rewrite dom_empty_L. set_solver.
Qed.

Lemma omap_column_key_headers (hs : list string) : forall pre,
  Forall (fun h => stored h = true) hs ->
  omap (column_key (pre ++ hs)) (seq (length pre) (length hs)) = hs.
Proof.
  induction hs as [|h hs IH]; intros pre Hp; simpl; [done|].
  inversion Hp as [|? ? Hh Hp']; subst. unfold column_key at 1.
  rewrite lookup_app_r by lia. rewrite Nat.sub_diag. simpl.
  rewrite Hh. f_equal.
  specialize (IH (pre ++ [h]) Hp'). rewrite <- app_assoc, length_app in IH.
  simpl in IH. by rewrite Nat.add_1_r in IH.
Qed.

(** As many cells as headers, every one of them stored: the keys are the
    headers. *)
Lemma row_keys_full hs :
  Forall (fun h => stored h = true) hs ->
  row_keys hs (length hs) = list_to_set hs.
Proof.
  intros Hp. unfold row_keys. f_equal. by apply (omap_column_key_headers hs []).
Qed.

(** *** Errors *)

Lemma transform_loop_error opts fuel : forall b start i s out s' out' e,
  transform_loop opts fuel b start i s out = (s', out', Some e) ->
  e = JsError "Row exceeds the maximum size".
Proof.
  induction fuel as [|fuel IH]; intros b start i s out s' out' e; simpl; [done|].
  repeat case_match; try done; try (by apply IH); by intros [= _ _ <-].
Qed.

Lemma transform_error opts s data s' rows e :
  _transform opts s data = (s', rows, Some e) ->
  e = JsError "Row exceeds the maximum size".
Proof.
  unfold _transform.
  destruct (transform_loop _ _ _ _ _ _ _) as [[s1 out] [e1|]] eqn:Hl.
  - intros [= _ _ <-]. by eapply transform_loop_error.
  - by repeat case_match.
Qed.

Lemma flush_no_error opts s : (_flush opts s).2 = None.
Proof. unfold _flush. by repeat case_match. Qed.

Lemma feed_error opts chunks : forall s rows e,
  Node.feed (T := csv opts) s chunks = (rows, Some e) ->
  e = JsError "Row exceeds the maximum size".
Proof.
  induction chunks as [|c chunks IH]; intros s rows e; simpl.
  - intros He. pose proof (flush_no_error opts s) as Hn. by rewrite He in Hn.
  - change (t_transform s c) with (_transform opts s c).
    destruct (_transform opts s c) as [[s' rows1] [e1|]] eqn:Ht.
    + intros [= _ <-]. by eapply transform_error.
    + destruct (Node.feed s' chunks) as [rows' err] eqn:Hf. intros [= _ ->].
      by eapply IH.
Qed.

(** *** One header for all the rows of a file *)

Lemma made_with_nil hs : made_with hs [].
Proof. intros r Hr. by apply elem_of_nil in Hr. Qed.

Lemma made_with_app hs rows1 rows2 :
  made_with hs rows1 -> made_with hs rows2 -> made_with hs (rows1 ++ rows2).
Proof. intros H1 H2 r Hr. apply elem_of_app in Hr as [?|?]; eauto. Qed.

Lemma shaped_refl s : shaped s s [].
Proof. repeat split; try done. intros _. apply made_with_nil. Qed.

Lemma shaped_same_head s s1 s' new :
  same_head s s1 -> shaped s1 s' new -> shaped s s' new.
Proof.
  intros [Hf Hh] (Hk & Ht & Hm). repeat split; try done.
  - rewrite <- Hf in H. by apply Hk.
  - rewrite <- Hh. rewrite <- Hf in H. by apply Hk.
Qed.

Lemma parseLine_shape opts b st e s s' rows :
  parseLine opts b st e s = (s', rows) ->
  first s' = false /\ shaped s s' rows.
Proof.
  unfold parseLine. destruct (parseLine_loop _ _ _ _ _ _ _ _) as [off cells].
  destruct s as [esc fst ln pe rl q pv hs nlc]. simpl.
  destruct fst; intros [= <- <-]; simpl.
  - split; [done|]. repeat split; try done. intros _. apply made_with_nil.
  - split; [done|]. repeat split; try done. intros _ r Hr.
    apply list_elem_of_singleton in Hr as ->. eauto.
Qed.

Lemma shaped_trans s s1 s' rows new :
  first s1 = false -> shaped s s1 rows -> shaped s1 s' new -> shaped s s' (rows ++ new).
Proof.
  intros Hf1 (Hk1 & _ & Hm1) (Hk2 & _ & Hm2).
  destruct (Hk2 Hf1) as [Hf' Hh']. repeat split.
  - done.
  - destruct (Hk1 H) as [_ Hh1]. congruence.
  - congruence.
  - intros _. apply made_with_app; [|by apply Hm2]. rewrite Hh'. by apply Hm1.
Qed.

Lemma transform_loop_shape opts fuel : forall b start i s out s' out' err,
  transform_loop opts fuel b start i s out = (s', out', err) ->
  exists new, out' = out ++ new /\ shaped s s' new.
Proof.
  induction fuel as [|fuel IH]; intros b start i s out s' out' err; simpl.
  - intros [= <- <- <-]. exists []. rewrite app_nil_r. split; [done|apply shaped_refl].
  - assert (Hgo : forall s1 i1,
      same_head s s1 ->
      transform_loop opts fuel b start i1 s1 out = (s', out', err) ->
      exists new, out' = out ++ new /\ shaped s s' new).
    { intros s1 i1 Hs Hl. apply IH in Hl as (new & ? & ?). exists new.
      split; [done|]. by eapply shaped_same_head. }
    assert (Hstop : forall s1 e1,
      same_head s s1 -> (s1, out, e1) = (s', out', err) ->
      exists new, out' = out ++ new /\ shaped s s' new).
    { intros s1 e1 Hs [= <- <- _]. exists []. rewrite app_nil_r. split; [done|].
      eapply shaped_same_head; [done|apply shaped_refl]. }
    destruct (i <? buf_length b); [|apply Hstop; by destruct s].
    destruct (_ >? _); [apply Hstop; by destruct s|].
    destruct (_ && _ && _ && _); [apply Hgo; by destruct s|].
    destruct (byte_is _ (quote opts));
      [apply Hgo; by destruct s as [[|] ? ? ? ? ? ? ? ?]|].
    destruct (quoted s); [apply Hgo; by destruct s|].
    set (s1 := if first s && negb (customNewline opts) then _ else _).
    assert (Hs1 : same_head s s1).
    { unfold s1. by destruct s; simpl; repeat case_match. }
    clearbody s1.
    destruct (byte_is _ (cur_newline s1)); [|by apply Hgo].
    destruct (parseLine opts b (previousEnd s1) (i + 1) s1) as [s2 rows] eqn:Hp.
    apply parseLine_shape in Hp as [Hf2 Hsh2].
    intros Hl. apply IH in Hl as (new & -> & Hsh).
    exists (rows ++ new). split; [by rewrite app_assoc|].
    eapply shaped_same_head; [exact Hs1|].
    eapply shaped_trans; [exact Hf2|exact Hsh2|].
    eapply shaped_same_head; [|exact Hsh]. by destruct s2.
Qed.

Lemma transform_shape opts s data s' rows err :
  _transform opts s data = (s', rows, err) -> shaped s s' rows.
Proof.
  unfold _transform.
  destruct (transform_loop _ _ _ _ _ _ _) as [[s1 out] e1] eqn:Hl.
  apply transform_loop_shape in Hl as (new & -> & Hsh). simpl.
  assert (Hsh' : shaped s s1 new).
  { eapply shaped_same_head; [|exact Hsh]. by destruct s. }
  assert (Hpost : forall s2, same_head s1 s2 -> shaped s s2 new).
  { intros s2 [Hf Hh]. destruct Hsh' as (Hk & Ht & Hm). repeat split.
    - rewrite Hf. by apply Hk.
    - rewrite Hh. by apply Hk.
    - rewrite Hf. done.
    - rewrite Hf, Hh. done. }
  destruct e1; [intros [= <- <- _]; by apply Hpost|].
  repeat case_match; intros [= <- <- _]; apply Hpost; by destruct s1.
Qed.

Lemma flush_shape opts s rows err :
  _flush opts s = (rows, err) -> exists s', shaped s s' rows.
Proof.
  unfold _flush. destruct (escaped s); [intros [= <- _]; eexists; apply shaped_refl|].
  destruct (prev s) as [p|]; [|intros [= <- _]; eexists; apply shaped_refl].
  destruct (parseLine _ _ _ _ _) as [s' rows'] eqn:Hp. simpl. intros [= <- _].
  apply parseLine_shape in Hp as [_ Hsh]. eauto.
Qed.

(** All the rows of a file are made with the same headers. *)
Lemma feed_shape opts (chunks : list Buffer) : forall s rows err,
  Node.feed (T := csv opts) s chunks = (rows, err) ->
  exists hs, made_with hs rows /\ (first s = false -> hs = headers s).
Proof.
  induction chunks as [|data chunks IH]; intros s rows err; simpl.
  - intros Hf. apply flush_shape in Hf as (s' & Hk & Ht & Hm).
    destruct (first s') eqn:Hf'.
    + rewrite Ht by done. exists (headers s). split; [apply made_with_nil|done].
    + exists (headers s'). split; [by apply Hm|]. intros Hfs. by apply Hk.
  - change (t_transform s data) with (_transform opts s data).
    destruct (_transform opts s data) as [[s' rows1] [e|]] eqn:Ht;
      apply transform_shape in Ht as (Hk & Hnil & Hm).
    + intros [= <- _]. destruct (first s') eqn:Hf'.
      * rewrite Hnil by done. exists (headers s). split; [apply made_with_nil|done].
      * exists (headers s'). split; [by apply Hm|]. intros Hfs. by apply Hk.
    + destruct (Node.feed s' chunks) as [rows2 err2] eqn:Hfe. intros [= <- _].
      apply IH in Hfe as (hs & Hm2 & Hhs). destruct (first s') eqn:Hf'.
      * rewrite Hnil by done. exists hs. split; [done|].
        intros Hfs. destruct (Hk Hfs) as [? _]. congruence.
      * exists hs. rewrite (Hhs eq_refl) in *. split.
        -- apply made_with_app; [by apply Hm|done].
        -- intros Hfs. by apply Hk.
Qed.

(** *** A header and nothing else *)

(** The first line never makes a row, whatever it contains. *)
Lemma parseLine_first opts b st e s :
  first s = true ->
  exists cells,
    parseLine opts b st e s = (set_headers cells (set_lineNumber (lineNumber s + 1) s), []).
Proof.
  intros Hf. unfold parseLine.
  destruct (parseLine_loop _ _ _ _ _ _ _ _) as [off cells].
  assert (Hf' : forall n, first (set_lineNumber n s) = true) by (by destruct s).
  rewrite Hf'. eauto.
Qed.

(** Bytes of a line, read before the headers are known: nothing is parsed. *)
Lemma transform_loop_one_line (rest : Buffer) :
  forall b pre post fuel start s out,
  b = pre ++ rest ++ post ->
  one_line rest ->
  rowLength s + buf_length rest <= MAX_SAFE_INTEGER ->
  first s = true -> cur_newline s = nl ->
  exists s',
    transform_loop defaults (length rest + fuel) b start (buf_length pre) s out =
    transform_loop defaults fuel b start (buf_length pre + buf_length rest) s' out /\
    first s' = true /\ cur_newline s' = nl /\ prev s' = prev s /\
    previousEnd s' = previousEnd s /\ rowLength s' = rowLength s + buf_length rest.
Proof.
  induction rest as [|x rest IH]; intros b pre post fuel start s out Hb Hl Hmax Hf Hn.
  - exists s. rewrite buf_length_nil, !Z.add_0_r. by repeat split.
  - inversion Hl as [|? ? [Hxn Hxc] Hl']; subst x0 l.
    pose proof (buf_length_nonneg rest). rewrite buf_length_cons in Hmax.
    assert (Hlen : (buf_length pre <? buf_length b) = true).
    { apply Z.ltb_lt. subst b. pose proof (buf_length_nonneg post). buf_idx. }
    assert (Hget : buf_get b (buf_length pre) = Some x).
    { subst b. by rewrite buf_get_app_r. }
    assert (Hxn' : Ascii.eqb x nl = false) by by apply Ascii.eqb_neq.
    assert (Hxc' : Ascii.eqb x cr = false) by by apply Ascii.eqb_neq.
    assert (Hnext : forall s1 : state,
      first s1 = true -> cur_newline s1 = nl -> prev s1 = prev s ->
      previousEnd s1 = previousEnd s -> rowLength s1 = rowLength s + 1 ->
      exists s',
        transform_loop defaults (length rest + fuel) b start (buf_length pre + 1) s1 out =
        transform_loop defaults fuel b start (buf_length pre + buf_length (x :: rest))
          s' out /\
        first s' = true /\ cur_newline s' = nl /\ prev s' = prev s /\
        previousEnd s' = previousEnd s /\
        rowLength s' = rowLength s + buf_length (x :: rest)).
    { intros s1 Hf1 Hn1 Hp1 He1 Hr1.
      destruct (IH b (pre ++ [x]) post fuel start s1 out) as (s' & Hloop & ? & ? & ? & ? & ?);
        [subst b; by rewrite <- !app_assoc|done|lia|done|done|].
      exists s'.
      replace (buf_length (pre ++ [x]) + buf_length rest)
        with (buf_length pre + buf_length (x :: rest)) in Hloop by buf_idx.
      replace (buf_length (pre ++ [x])) with (buf_length pre + 1) in Hloop by buf_idx.
      rewrite Hloop. rewrite buf_length_cons. repeat split; try congruence. lia. }
    simpl (length (x :: rest) + fuel)%nat. rewrite transform_loop_S, Hlen. cbv zeta.
    rewrite Hget, !byte_is_Some.
    destruct s as [esc fst ln pe rl q pv hs nlc]. simpl in Hf, Hn, Hmax. subst fst nlc.
    unfold set_rowLength. simpl.
    destruct (Z.gtb_spec (rl + 1) MAX_SAFE_INTEGER) as [?|_]; [lia|].
    rewrite Hxn', Hxc'. simpl. rewrite Hxn'.
    repeat case_match; by apply Hnext.
Qed.

Lemma header_only_split data rest :
  header_only (data ++ rest) ->
  (one_line data /\ header_only rest) \/
  (exists h, data = h ++ [nl] /\ one_line h /\ rest = []).
Proof.
  intros (h & eol & He & Hh & Heol).
  destruct (app_eq_inv _ _ _ _ He) as [(k & Hd & Hk)|(k & Hd & Hk)].
  - destruct Heol as [-> | ->].
    + symmetry in Hk. apply app_eq_nil in Hk as [-> ->]. rewrite app_nil_r in Hd.
      subst. left. split; [done|]. exists [], []. repeat split; [constructor|by left].
    + destruct k as [|c k]; simpl in Hk.
      * subst. rewrite app_nil_r. left. split; [done|].
        exists [], [nl]. repeat split; [constructor|by right].
      * injection Hk as <- Hk. symmetry in Hk. apply app_eq_nil in Hk as [-> ->].
        right. by exists h.
  - subst. apply Forall_app in Hh as [Hd Hk]. left. split; [done|]. by exists k, eol.
Qed.

(** One chunk of such a text: no row comes out. *)
Lemma transform_header s data rest :
  header_only (data ++ rest) ->
  header_phase s (data ++ rest) ->
  exists s', _transform defaults s data = (s', [], None) /\
             header_only rest /\ header_phase s' rest.
Proof.
  intros Ho [(Hf & Hn & Hmax)|(Hf & Hpv & Hpe & Hnil)].
  2:{ (* the header is closed and the text is over *)
    apply app_eq_nil in Hnil as [-> ->]. exists (set_previousEnd 0 (set_prev None s)).
    split; [|split].
    - unfold _transform. rewrite Hpv. simpl. destruct s; simpl in *. by rewrite Hpe.
    - exists [], []. repeat split; [constructor|by left].
    - right. by destruct s. }
  set (old := match prev s with Some p => p | None => [] end).
  assert (Hunf : _transform defaults s data =
    match transform_loop defaults (Z.to_nat (buf_length (old ++ data) - buf_length old))
            (old ++ data) (buf_length old) (buf_length old) (set_prev None s) [] with
    | (s, out, Some e) => (s, out, Some e)
    | (s, out, None) =>
        if previousEnd s =? buf_length (old ++ data) then (set_previousEnd 0 s, out, None)
        else if buf_length (old ++ data) - previousEnd s <? buf_length data then
               (set_prev (Some data)
                  (set_previousEnd
                     (previousEnd s - (buf_length (old ++ data) - buf_length data)) s),
                out, None)
             else (set_prev (Some (old ++ data)) s, out, None)
    end).
  { unfold _transform, old. by destruct (prev s). }
  assert (Hfuel : Z.to_nat (buf_length (old ++ data) - buf_length old) = length data).
  { rewrite buf_length_app. unfold buf_length. lia. }
  rewrite Hunf, Hfuel. clear Hunf Hfuel.
  pose proof (buf_length_nonneg rest). pose proof (buf_length_nonneg data).
  rewrite buf_length_app in Hmax.
  destruct (header_only_split _ _ Ho) as [[Hd Hr]|(h & -> & Hh & ->)].
  - (* the chunk lies within the header *)
    destruct (transform_loop_one_line data (old ++ data) old [] O (buf_length old)
                (set_prev None s) [])
      as (s' & Hloop & Hf' & Hn' & _ & _ & Hrl');
      [by rewrite app_nil_r|done|destruct s; simpl in *; lia
      |by destruct s|by destruct s|].
    rewrite Nat.add_0_r in Hloop. rewrite Hloop. simpl transform_loop.
    cbv beta iota.
    assert (Hrl : rowLength s' + buf_length rest <= MAX_SAFE_INTEGER).
    { rewrite Hrl'. destruct s; simpl in *. lia. }
    repeat case_match; eexists; (split; [done|]); (split; [done|]); left;
      by destruct s'.
  - (* the chunk brings the rest of the header and the line feed *)
    pose proof (buf_length_nonneg h).
    rewrite buf_length_app, buf_length_cons, buf_length_nil in Hmax.
    destruct (transform_loop_one_line h (old ++ h ++ [nl]) old [nl] 1%nat (buf_length old)
                (set_prev None s) [])
      as (s' & Hloop & Hf' & Hn' & Hpv' & _ & Hrl');
      [done|done|destruct s; simpl in *; lia|by destruct s|by destruct s|].
    rewrite length_app. simpl (length [nl]). rewrite Hloop.
    assert (Hlen : (buf_length old + buf_length h <? buf_length (old ++ h ++ [nl])) = true).
    { apply Z.ltb_lt. buf_idx. }
    assert (Hget : buf_get (old ++ h ++ [nl]) (buf_length old + buf_length h) = Some nl).
    { rewrite <- buf_length_app, app_assoc. by rewrite buf_get_app_r. }
    assert (Hend : buf_length old + buf_length h + 1 = buf_length (old ++ h ++ [nl]))
      by buf_idx.
    rewrite transform_loop_S, Hlen. cbv zeta. rewrite Hget, !byte_is_Some.
    assert (Hpv0 : prev s' = None) by (rewrite Hpv'; by destruct s).
    destruct s' as [esc fst ln pe rl q pv hs nlc]. simpl in Hf', Hn', Hrl', Hpv0.
    subst fst nlc pv. unfold set_rowLength. simpl.
    destruct (Z.gtb_spec (rl + 1) MAX_SAFE_INTEGER) as [?|_];
      [destruct s; simpl in *; lia|].
    rewrite andb_false_r. simpl.
    destruct q.
    + (* inside a quoted field: the line stays open *)
      repeat case_match; eexists; (split; [done|]);
        (split; [exists [], []; repeat split; [constructor|by left]|]); left; simpl;
        (repeat split; [done..|]); rewrite buf_length_nil; destruct s; simpl in *; lia.
    + (* the line feed closes the header *)
      simpl.
      destruct (parseLine_first defaults (old ++ h ++ [nl]) pe
                  (buf_length old + buf_length h + 1)
                  (State esc true ln pe (rl + 1) false None hs nl) eq_refl)
        as (cells & Hpl).
      unfold set_newline; simpl. rewrite Hpl. simpl. rewrite Hend, Z.eqb_refl.
      eexists. split; [done|].
      split; [exists [], []; repeat split; [constructor|by left]|]. by right.
Qed.

Lemma flush_first s : first s = true -> _flush defaults s = ([], None).
Proof.
  intros Hf. unfold _flush. destruct (escaped s); [done|].
  destruct (prev s) as [p|]; [|done].
  destruct (parseLine_first defaults p (previousEnd s) (buf_length p + 1) s Hf)
    as (cells & ->). done.
Qed.

Lemma feed_header (chunks : list Buffer) : forall s,
  header_only (concat chunks) ->
  header_phase s (concat chunks) ->
  Node.feed (T := csv defaults) s chunks = ([], None).
Proof.
  induction chunks as [|data chunks IH]; intros s Ho Hp.
  - simpl. destruct Hp as [(Hf & _)|(_ & Hpv & _)].
    + by apply flush_first.
    + unfold _flush. rewrite Hpv. by destruct (escaped s).
  - simpl concat in *.
    destruct (transform_header s data (concat chunks) Ho Hp) as (s' & Ht & Ho' & Hp').
    simpl. change (t_transform s data) with (_transform defaults s data).
    rewrite Ht. by rewrite (IH s' Ho' Hp').
Qed.

(** A text made of a header line only, or of nothing, gives no record,
    however it is cut into chunks. *)
Lemma decode_header_only (chunks : list Buffer) :
  header_only (concat chunks) ->
  buf_length (concat chunks) <= MAX_SAFE_INTEGER ->
  decode defaults chunks = ([], None).
Proof.
  intros Ho Hmax. apply feed_header; [done|]. left. by repeat split.
Qed.

(** A carriage return in front of a line feed, before the headers are known:
    the line feed stays the line terminator. *)
Lemma transform_loop_cr_step fuel b start i s out :
  buf_get b i = Some cr -> buf_get b (i + 1) = Some nl ->
  0 <= i -> i + 1 < buf_length b ->
  first s = true -> cur_newline s = nl ->
  rowLength s + 1 <= MAX_SAFE_INTEGER ->
  exists s1,
    transform_loop defaults (S fuel) b start i s out =
    transform_loop defaults fuel b start (i + 1) s1 out /\
    first s1 = true /\ cur_newline s1 = nl /\ prev s1 = prev s /\
    previousEnd s1 = previousEnd s /\ rowLength s1 = rowLength s + 1.
Proof.
  intros Hget Hnext Hi Hlt Hf Hn Hmax.
  assert (Hlen : (i <? buf_length b) = true) by (apply Z.ltb_lt; lia).
  assert (Hlen1 : (i + 1 <? buf_length b) = true) by (apply Z.ltb_lt; lia).
  rewrite transform_loop_S, Hlen, Hlen1. cbv zeta. rewrite Hget, Hnext, !byte_is_Some.
  destruct s as [esc fst ln pe rl q pv hs nlc]. simpl in Hf, Hn, Hmax. subst fst nlc.
  unfold set_rowLength. simpl.
  destruct (Z.gtb_spec (rl + 1) MAX_SAFE_INTEGER) as [?|_]; [lia|].
  rewrite andb_false_r. simpl.
  destruct q; eexists; (split; [reflexivity|]); by repeat split.
Qed.

(** The line feed that ends the text, before the headers are known: either
    it lies inside a quoted field and nothing is parsed, or it closes the
    header. *)
Lemma transform_loop_last_lf b start i s out :
  buf_get b i = Some nl -> 0 <= i -> i + 1 = buf_length b ->
  first s = true -> cur_newline s = nl -> prev s = None ->
  rowLength s + 1 <= MAX_SAFE_INTEGER ->
  exists s1,
    transform_loop defaults 1 b start i s out = (s1, out, None) /\
    prev s1 = None /\
    ((first s1 = true /\ cur_newline s1 = nl /\ rowLength s1 = rowLength s + 1) \/
     (first s1 = false /\ previousEnd s1 = buf_length b)).
Proof.
  intros Hget Hi Hend Hf Hn Hpv Hmax.
  assert (Hlen : (i <? buf_length b) = true) by (apply Z.ltb_lt; lia).
  rewrite transform_loop_S, Hlen. cbv zeta. rewrite Hget, !byte_is_Some.
  destruct s as [esc fst ln pe rl q pv hs nlc]. simpl in Hf, Hn, Hmax, Hpv.
  subst fst nlc pv. unfold set_rowLength. simpl.
  destruct (Z.gtb_spec (rl + 1) MAX_SAFE_INTEGER) as [?|_]; [lia|].
  rewrite andb_false_r. simpl.
  destruct q.
  - eexists. split; [reflexivity|]. split; [done|]. by left.
  - simpl.
    destruct (parseLine_first defaults b pe (i + 1)
                (State esc true ln pe (rl + 1) false None hs nl) eq_refl)
      as (cells & Hpl).
    unfold set_newline; simpl. rewrite Hpl. simpl. rewrite app_nil_r.
    eexists. split; [reflexivity|]. split; [done|]. right. simpl. by split.
Qed.

(** A header ended by a carriage return and a line feed that arrive in the
    same chunk: no row comes out. *)
Lemma transform_header_crlf s h :
  one_line h ->
  first s = true -> cur_newline s = nl ->
  rowLength s + buf_length (h ++ [cr; nl]) <= MAX_SAFE_INTEGER ->
  exists s', _transform defaults s (h ++ [cr; nl]) = (s', [], None) /\
             header_phase s' [].
Proof.
  intros Hh Hf Hn Hmax.
  set (data := h ++ [cr; nl]) in *.
  set (old := match prev s with Some p => p | None => [] end).
  assert (Hunf : _transform defaults s data =
    match transform_loop defaults (Z.to_nat (buf_length (old ++ data) - buf_length old))
            (old ++ data) (buf_length old) (buf_length old) (set_prev None s) [] with
    | (s, out, Some e) => (s, out, Some e)
    | (s, out, None) =>
        if previousEnd s =? buf_length (old ++ data) then (set_previousEnd 0 s, out, None)
        else if buf_length (old ++ data) - previousEnd s <? buf_length data then
               (set_prev (Some data)
                  (set_previousEnd
                     (previousEnd s - (buf_length (old ++ data) - buf_length data)) s),
                out, None)
             else (set_prev (Some (old ++ data)) s, out, None)
    end).
  { unfold _transform, old. by destruct (prev s). }
  assert (Hfuel : Z.to_nat (buf_length (old ++ data) - buf_length old)
                  = (length h + 2)%nat).
  { unfold data. rewrite !buf_length_app. unfold buf_length. simpl. lia. }
  rewrite Hunf, Hfuel. clear Hunf Hfuel.
  pose proof (buf_length_nonneg h). pose proof (buf_length_nonneg old).
  unfold data in Hmax. rewrite buf_length_app in Hmax.
  change (buf_length [cr; nl]) with 2 in Hmax.
  destruct (transform_loop_one_line h (old ++ data) old [cr; nl] 2%nat (buf_length old)
              (set_prev None s) [])
    as (s1 & Hloop & Hf1 & Hn1 & Hpv1 & _ & Hrl1);
    [done|done|destruct s; simpl in *; lia|by destruct s|by destruct s|].
  rewrite Hloop.
  assert (Hb : old ++ data = (old ++ h) ++ cr :: [nl])
    by (unfold data; by rewrite <- app_assoc).
  assert (Hb' : old ++ data = (old ++ h ++ [cr]) ++ [nl])
    by (unfold data; by rewrite <- !app_assoc).
  assert (Hlenb : buf_length (old ++ data) = buf_length old + buf_length h + 2).
  { unfold data. rewrite !buf_length_app. change (buf_length [cr; nl]) with 2. lia. }
  destruct (transform_loop_cr_step 1 (old ++ data) (buf_length old)
              (buf_length old + buf_length h) s1 [])
    as (s2 & Hcr & Hf2 & Hn2 & Hpv2 & _ & Hrl2); try done.
  { rewrite <- buf_length_app, Hb. by rewrite buf_get_app_r. }
  { replace (buf_length old + buf_length h + 1) with (buf_length (old ++ h ++ [cr]))
      by buf_idx.
    rewrite Hb'. by rewrite buf_get_app_r. }
  { lia. }
  { lia. }
  { rewrite Hrl1. destruct s; simpl in *; lia. }
  rewrite Hcr.
  destruct (transform_loop_last_lf (old ++ data) (buf_length old)
              (buf_length old + buf_length h + 1) s2 [])
    as (s3 & Hlf & Hpv3 & Hcase); try done.
  { replace (buf_length old + buf_length h + 1) with (buf_length (old ++ h ++ [cr]))
      by buf_idx.
    rewrite Hb'. by rewrite buf_get_app_r. }
  { lia. }
  { lia. }
  { rewrite Hpv2, Hpv1. by destruct s. }
  { rewrite Hrl2, Hrl1. destruct s; simpl in *; lia. }
  rewrite Hlf.
  destruct Hcase as [(Hf3 & Hn3 & Hrl3)|(Hf3 & Hpe3)].
  - assert (Hrl : rowLength s3 + buf_length [] <= MAX_SAFE_INTEGER).
    { rewrite Hrl3, Hrl2, Hrl1, buf_length_nil. destruct s; simpl in *; lia. }
    repeat case_match; eexists; (split; [done|]); left; by destruct s3.
  - rewrite Hpe3, Z.eqb_refl. eexists. split; [done|]. right. by destruct s3.
Qed.

(** A chunk that lies within the header line: no row comes out and the
    header stays open. *)
Lemma transform_within_line s data :
  one_line data ->
  first s = true -> cur_newline s = nl ->
  rowLength s + buf_length data <= MAX_SAFE_INTEGER ->
  exists s', _transform defaults s data = (s', [], None) /\
             first s' = true /\ cur_newline s' = nl /\
             rowLength s' = rowLength s + buf_length data.
Proof.
  intros Hd Hf Hn Hmax.
  set (old := match prev s with Some p => p | None => [] end).
  assert (Hunf : _transform defaults s data =
    match transform_loop defaults (Z.to_nat (buf_length (old ++ data) - buf_length old))
            (old ++ data) (buf_length old) (buf_length old) (set_prev None s) [] with
    | (s, out, Some e) => (s, out, Some e)
    | (s, out, None) =>
        if previousEnd s =? buf_length (old ++ data) then (set_previousEnd 0 s, out, None)
        else if buf_length (old ++ data) - previousEnd s <? buf_length data then
               (set_prev (Some data)
                  (set_previousEnd
                     (previousEnd s - (buf_length (old ++ data) - buf_length data)) s),
                out, None)
             else (set_prev (Some (old ++ data)) s, out, None)
    end).
  { unfold _transform, old. by destruct (prev s). }
  assert (Hfuel : Z.to_nat (buf_length (old ++ data) - buf_length old) = length data).
  { rewrite buf_length_app. unfold buf_length. lia. }
  rewrite Hunf, Hfuel. clear Hunf Hfuel.
  destruct (transform_loop_one_line data (old ++ data) old [] O (buf_length old)
              (set_prev None s) [])
    as (s' & Hloop & Hf' & Hn' & _ & _ & Hrl');
    [by rewrite app_nil_r|done|destruct s; simpl in *; lia
    |by destruct s|by destruct s|].
  rewrite Nat.add_0_r in Hloop. rewrite Hloop. simpl transform_loop.
  cbv beta iota.
  assert (Hrl : rowLength s' = rowLength s + buf_length data).
  { rewrite Hrl'. by destruct s. }
  repeat case_match; eexists; (split; [done|]); by destruct s'.
Qed.

(** A header ended by a carriage return and a line feed that arrive in the
    same chunk, after any number of chunks that lie within the header: no
    row comes out. *)
Lemma feed_header_crlf (cs : list Buffer) : forall s h,
  one_line (concat cs ++ h) ->
  first s = true -> cur_newline s = nl ->
  rowLength s + buf_length (concat cs ++ h ++ [cr; nl]) <= MAX_SAFE_INTEGER ->
  Node.feed (T := csv defaults) s (cs ++ [h ++ [cr; nl]]) = ([], None).
Proof.
  induction cs as [|c cs IH]; intros s h Hl Hf Hn Hmax.
  - simpl in Hl, Hmax.
    destruct (transform_header_crlf s h Hl Hf Hn Hmax) as (s' & Ht & Hp).
    simpl. change (t_transform s (h ++ [cr; nl]))
      with (_transform defaults s (h ++ [cr; nl])).
    rewrite Ht.
    assert (Hfl : _flush defaults s' = ([], None)).
    { apply (feed_header [] s'); [|done].
      exists [], []. repeat split; [constructor|by left]. }
    change (t_flush s') with (_flush defaults s'). by rewrite Hfl.
  - simpl concat in *. rewrite <- app_assoc in Hl, Hmax.
    apply Forall_app in Hl as [Hc Hl].
    pose proof (buf_length_nonneg c).
    pose proof (buf_length_nonneg (concat cs ++ h ++ [cr; nl])).
    rewrite buf_length_app in Hmax.
    destruct (transform_within_line s c Hc Hf Hn) as (s' & Ht & Hf' & Hn' & Hrl'); [lia|].
    simpl. change (t_transform s c) with (_transform defaults s c).
    rewrite Ht. rewrite (IH s' h Hl Hf' Hn'); [done|]. lia.
Qed.

Lemma decode_header_crlf_blocks (cs : list Buffer) h :
  one_line (concat cs ++ h) ->
  buf_length (concat cs ++ h ++ [cr; nl]) <= MAX_SAFE_INTEGER ->
  decode defaults (cs ++ [h ++ [cr; nl]]) = ([], None).
Proof. intros Hl Hmax. by apply feed_header_crlf. Qed.

End Parser.

End CsvFacts.

(** * Properties of the loader *)

Module LoaderFacts.

Import Node CsvParser CsvText Loader.

(** *** The blocks of a file *)

Lemma chunks_go_concat n (Hn : (0 < n)%nat) : forall fuel (content : Buffer),
  (length content <= fuel)%nat -> concat (chunks_go fuel n content) = content.
Proof.
  induction fuel as [|fuel IH]; intros content Hl.
  - destruct content; [done|simpl in Hl; lia].
  - simpl. destruct content as [|c content]; [done|].
    remember (c :: content) as l. simpl. rewrite IH.
    + apply take_drop.
    + rewrite length_drop. subst l. simpl in *. lia.
Qed.

Lemma concat_chunks (content : Buffer) : concat (chunks highWaterMark content) = content.
Proof. apply chunks_go_concat; [|done]. unfold highWaterMark. lia. Qed.

Lemma chunks_go_nil fuel n : chunks_go fuel n [] = [].
Proof. by destruct fuel. Qed.

(** A file that fits in one block is read in one chunk. *)
Lemma chunks_single n (content : Buffer) :
  content <> [] -> (length content <= n)%nat -> chunks n content = [content].
Proof.
  intros Hne Hl. unfold chunks.
  destruct (length content) as [|k] eqn:Hk.
  - by destruct content.
  - destruct content as [|c content]; [done|].
    cbn [chunks_go]. rewrite take_ge, drop_ge by lia. by rewrite chunks_go_nil.
Qed.

Lemma chunks_go_enough n (Hn : (0 < n)%nat) : forall fuel fuel' (content : Buffer),
  (length content <= fuel)%nat -> (length content <= fuel')%nat ->
  chunks_go fuel n content = chunks_go fuel' n content.
Proof.
  induction fuel as [|fuel IH]; intros fuel' content Hl Hl'.
  - destruct content; [|simpl in Hl; lia]. by destruct fuel'.
  - destruct content as [|c content]; [by destruct fuel'|].
    destruct fuel' as [|fuel']; [simpl in Hl'; lia|].
    cbn [chunks_go]. f_equal. apply IH; rewrite length_drop; simpl in *; lia.
Qed.

(** A file longer than a block: the first block, then the blocks of the
    rest. *)
Lemma chunks_app_block n (pre post : Buffer) :
  (0 < n)%nat -> length pre = n -> chunks n (pre ++ post) = pre :: chunks n post.
Proof.
  intros Hn Hl. unfold chunks.
  destruct (pre ++ post) as [|y l] eqn:E; [destruct pre; [simpl in Hl; lia|done]|].
  assert (Hlen : length (y :: l) = (n + length post)%nat)
    by (by rewrite <- E, length_app, Hl).
  destruct (length (y :: l)) as [|k] eqn:Hk; [done|].
  cbn [chunks_go]. rewrite <- E.
  rewrite take_app_length', drop_app_length' by done. f_equal.
  apply chunks_go_enough; lia.
Qed.

(** The two bytes that end a file arrive in the same block unless the first
    of them is the last byte of a block. *)
Lemma chunks_tail n (tail : Buffer) (Hn : (2 <= n)%nat) (Ht : length tail = 2%nat) :
  forall k (h : Buffer), (length h <= k)%nat ->
  (length (h ++ tail) mod n)%nat <> 1%nat ->
  exists cs h', chunks n (h ++ tail) = cs ++ [h' ++ tail] /\ concat cs ++ h' = h.
Proof.
  induction k as [|k IH]; intros h Hk Hmod.
  - destruct h; [|simpl in Hk; lia]. exists [], []. split; [|done].
    simpl. apply chunks_single; [by destruct tail|lia].
  - destruct (decide (length (h ++ tail) <= n)%nat) as [Hle|Hgt].
    + exists [], h. split; [|done]. apply chunks_single; [|done].
      destruct tail; [done|]. by destruct h.
    + rewrite length_app, Ht in Hgt, Hmod.
      assert (Hge : (n <= length h)%nat).
      { destruct (decide (n <= length h)%nat) as [?|Hlt]; [done|]. exfalso. apply Hmod.
        replace (length h + 2)%nat with (1 + 1 * n)%nat by lia.
        rewrite Nat.Div0.mod_add. apply Nat.mod_small. lia. }
      rewrite <- (take_drop n h), <- app_assoc.
      rewrite chunks_app_block; [|lia|rewrite length_take; lia].
      destruct (IH (drop n h)) as (cs & h' & Hc & He).
      * rewrite length_drop. lia.
      * rewrite length_app, length_drop, Ht.
        replace (length h + 2)%nat with ((length h - n + 2) + 1 * n)%nat in Hmod by lia.
        by rewrite Nat.Div0.mod_add in Hmod.
      * exists (take n h :: cs), h'. split; [by rewrite Hc|].
        simpl. by rewrite <- app_assoc, He.
Qed.

Lemma plain_decide (content : Buffer) :
  forallb (fun c => negb (Ascii.eqb c dquote) && negb (Ascii.eqb c cr)) content = true ->
  plain content.
Proof.
  intros Hb. apply Forall_forall. intros c Hc.
  rewrite forallb_forall in Hb. specialize (Hb c (proj1 (list_elem_of_In _ _) Hc)).
  apply andb_true_iff in Hb as [H1 H2].
  apply negb_true_iff in H1, H2. split; by apply Ascii.eqb_neq.
Qed.

(** The sample files are read the same way by every release. *)
Lemma decode_ab_files (rel : release) content :
  content ∈ ab_files ->
  decode defaults (chunks highWaterMark content) = (ab_rows, None).
Proof.
  intros Hin. unfold ab_files in Hin. destruct rel as [[|]];
    repeat (apply elem_of_cons in Hin as [-> | Hin]); try (by apply elem_of_nil in Hin);
    vm_compute; reflexivity.
Qed.

Section Loader.

Context {rel : release}.

Lemma load_decode fs p content :
  fs !! p = Some (File true content) ->
  load fs p = (feed_outcome (decode defaults (chunks highWaterMark content)), []).
Proof. intros Hf. by apply (NodeFacts.load_readable (T := csv defaults)). Qed.

(** A plain text is loaded as the text says. *)
Lemma load_plain fs p content :
  fs !! p = Some (File true content) ->
  plain content ->
  buf_length content <= MAX_SAFE_INTEGER ->
  load fs p = (Resolved (dataset_of content), []).
Proof.
  intros Hf Hp Hmax. rewrite (load_decode _ _ _ Hf), CsvFacts.decode_plain.
  - by rewrite concat_chunks.
  - by rewrite concat_chunks.
  - by rewrite concat_chunks.
Qed.

Lemma dataset_of_records content :
  dataset_of content = map (record_of (header_fields content)) (data_lines content).
Proof.
  unfold dataset_of, header_fields, data_lines, rows_of_lines.
  by destruct (text_lines content).
Qed.

(** C1: a file with the header [a,b] and the rows [1,2] and [3,4] is loaded
    as the two records, in that order. *)
Theorem load_a_b_file fs p content :
  fs !! p = Some (File true content) ->
  content ∈ ab_files ->
  load fs p =
  (Resolved [ {[ "a" := "1"; "b" := "2" ]}; {[ "a" := "3"; "b" := "4" ]} ]%string, []).
Proof.
  intros Hf Hin. by rewrite (load_decode _ _ _ Hf), (decode_ab_files rel content Hin).
Qed.


(** C3, the code as it is written: a failure that reaches the caller is
    either the error of the parser, for a file that could be read, or the
    error with which [fs] refuses a path that holds a NUL character.  An
    error of access to the file never arrives as a failed result. *)
Theorem only_parser_errors_are_delivered opts fs p e :
  (Node.load (T := csv opts) fs p).1 = Failed e ->
  (readable fs p = true /\ e = JsError "Row exceeds the maximum size") \/
  (path_ok p = false /\ e = invalid_path).
Proof.
  intros Hl. destruct (path_ok p) eqn:Hp.
  - left. destruct (readable fs p) eqn:Hr.
    + split; [done|]. unfold readable in Hr.
      destruct (fs !! p) as [[|[|] content]|] eqn:Hf; try done.
      rewrite (NodeFacts.load_readable (T := csv opts) fs p content Hf) in Hl.
      simpl in Hl. unfold feed_outcome in Hl.
      destruct (feed _ _) as [rows [e'|]] eqn:Hfe; [|done].
      injection Hl as ->. by eapply CsvFacts.feed_error.
    + destruct (NodeFacts.load_unreadable (T := csv opts) fs p Hp Hr)
        as (code & syscall & path & _ & Hu).
      by rewrite Hu in Hl.
  - right. split; [done|].
    rewrite (NodeFacts.load_invalid (T := csv opts) fs p Hp) in Hl. by injection Hl.
Qed.

End Loader.

(** *** The theorems at sample files *)

#[local] Existing Instance latest.

Lemma load_a_b_file_witness :
  ab_fs !! "data/ab.csv"%string = Some (File true (unlines ["a,b"; "1,2"; "3,4"]%string)) /\
  unlines ["a,b"; "1,2"; "3,4"]%string ∈ ab_files /\
  load ab_fs "data/ab.csv" =
  (Resolved [ {[ "a" := "1"; "b" := "2" ]}; {[ "a" := "3"; "b" := "4" ]} ]%string, []).
Proof.
  assert (Hf : ab_fs !! "data/ab.csv"%string
               = Some (File true (unlines ["a,b"; "1,2"; "3,4"]%string)))
    by (vm_compute; reflexivity).
  assert (Hin : unlines ["a,b"; "1,2"; "3,4"]%string ∈ ab_files)
    by (vm_compute; left).
  split; [exact Hf|]. split; [exact Hin|].
  exact (load_a_b_file ab_fs "data/ab.csv" _ Hf Hin).
Defined.

(** Outside plain text: a quoted field loses its quotes and keeps its
    comma. *)
Example quoted_field_is_unquoted :
  load quoted_fs "data/quoted.csv" =
  (Resolved [ {[ "a" := "x,y"; "b" := "2" ]} ]%string, []).
Proof. vm_compute. reflexivity. Qed.

(** A column named [__proto__] sets no property. *)
Example proto_column_sets_no_key :
  load quoted_fs "data/proto.csv" = (Resolved [ {[ "b" := "2" ]} ]%string, []).
Proof. vm_compute. reflexivity. Qed.


Lemma only_parser_errors_are_delivered_witness :
  (Node.load (T := csv narrow) wide_fs "data/wide.csv").1
  = Failed (JsError "Row exceeds the maximum size") /\
  ((readable wide_fs "data/wide.csv" = true /\
    JsError "Row exceeds the maximum size" = JsError "Row exceeds the maximum size") \/
   (path_ok "data/wide.csv" = false /\
    JsError "Row exceeds the maximum size" = invalid_path)).
Proof.
  assert (Hl : (Node.load (T := csv narrow) wide_fs "data/wide.csv").1
               = Failed (JsError "Row exceeds the maximum size"))
    by (vm_compute; reflexivity).
  split; [exact Hl|].
  exact (only_parser_errors_are_delivered narrow wide_fs "data/wide.csv" _ Hl).
Defined.

Lemma inaccessible_path_never_settles_witness :
  path_ok "data/missing.csv" = true /\
  readable (∅ : filesystem) "data/missing.csv" = false /\
  exists code syscall path,
    load ∅ "data/missing.csv" = (Unsettled, [SystemError code syscall path]).
Proof.
  split; [reflexivity|]. split; [reflexivity|].
  exact (NodeFacts.inaccessible_path_never_settles (T := csv defaults)
           ∅ "data/missing.csv" eq_refl eq_refl).
Defined.

Lemma settled_outcome_is_final_witness :
  observe
    (exec (T := csv defaults) [Invoke ab_fs "data/ab.csv"; Fire 0; Fire 0] empty_world) 0
  = Resolved [ {[ "a" := "1"; "b" := "2" ]}; {[ "a" := "3"; "b" := "4" ]} ]%string /\
  Resolved [ {[ "a" := "1"; "b" := "2" ]}; {[ "a" := "3"; "b" := "4" ]} ]%string
  <> (Unsettled : outcome row) /\
  observe
    (exec (T := csv defaults) ([Invoke ab_fs "data/ab.csv"; Fire 0; Fire 0]
           ++ [Fire 0; Invoke ragged_fs "data/ragged.csv"; Fire 1; Fire 1; Fire 0])
       empty_world) 0
  = Resolved [ {[ "a" := "1"; "b" := "2" ]}; {[ "a" := "3"; "b" := "4" ]} ]%string.
Proof.
  assert (Ho : observe
                 (exec (T := csv defaults) [Invoke ab_fs "data/ab.csv"; Fire 0; Fire 0] empty_world) 0
               = Resolved [ {[ "a" := "1"; "b" := "2" ]};
                            {[ "a" := "3"; "b" := "4" ]} ]%string)
    by (vm_compute; reflexivity).
  assert (Hs : Resolved [ {[ "a" := "1"; "b" := "2" ]};
                          {[ "a" := "3"; "b" := "4" ]} ]%string
               <> (Unsettled : outcome row)) by discriminate.
  split; [exact Ho|]. split; [exact Hs|].
  exact (NodeFacts.settled_outcome_is_final (T := csv defaults) _ _ 0 _ Ho Hs).
Defined.

Lemma concurrent_invocations_independent_witness :
  wf (empty_world (Row := row) (St := state)) /\
  w_uncaught (empty_world (Row := row) (St := state)) = [] /\
  let a := Node.readDataFromCSV (T := csv defaults) ab_fs "data/missing.csv" empty_world in
  let b := Node.readDataFromCSV (T := csv defaults) ab_fs "data/ab.csv" a.2 in
  let b' := Node.readDataFromCSV (T := csv defaults) ab_fs "data/ab.csv" empty_world in
  (forall ca cb, w_calls b.2 !! a.1 = Some ca -> w_calls b.2 !! b.1 = Some cb ->
                 c_data ca <> c_data cb) /\
  (w_uncaught (exec [Fire 1; Fire 1] b.2) = [] ->
   observe (exec [Fire 1; Fire 1] b.2) a.1
   = observe (run (replicate (fired a.1 [Fire 1; Fire 1]) a.1) a.2) a.1 /\
   observe (exec [Fire 1; Fire 1] b.2) b.1
   = observe (run (replicate (fired b.1 [Fire 1; Fire 1]) b'.1) b'.2) b'.1) /\
  (path_ok "data/missing.csv" = true -> readable ab_fs "data/missing.csv" = false ->
   w_uncaught (exec (Fire a.1 :: [Fire 1; Fire 1]) b.2) <> [] /\
   observe (exec (Fire a.1 :: [Fire 1; Fire 1]) b.2) b.1 = observe b.2 b.1 /\
   forall content, ab_fs !! "data/ab.csv"%string = Some (File true content) ->
     observe b.2 b.1 = Unsettled /\
     observe (drain b'.1 b'.2) b'.1
     = feed_outcome (feed t_new (chunks highWaterMark content))).
Proof.
  split; [exact NodeFacts.wf_empty|]. split; [reflexivity|].
  exact (NodeFacts.concurrent_invocations_independent (T := csv defaults)
           ab_fs "data/missing.csv" "data/ab.csv" empty_world
           [Fire 1; Fire 1] NodeFacts.wf_empty eq_refl).
Defined.

(** The same two calls, run: the event of the missing file ends the process
    and the second caller never receives the dataset that the file gives when
    it is loaded alone. *)
Example missing_file_ends_the_other_invocation :
  let a := Node.readDataFromCSV (T := csv defaults) ab_fs "data/missing.csv" empty_world in
  let b := Node.readDataFromCSV (T := csv defaults) ab_fs "data/ab.csv" a.2 in
  observe (exec [Fire a.1; Fire b.1; Fire b.1] b.2) b.1 = Unsettled /\
  w_uncaught (exec [Fire a.1; Fire b.1; Fire b.1] b.2)
  = [SystemError "ENOENT" "open" (Some "data/missing.csv"%string)] /\
  load ab_fs "data/ab.csv" = (Resolved ab_rows, []).
Proof. vm_compute. done. Qed.

End LoaderFacts.

(** * What an invocation does to the process *)

Module PlumbingFacts.
Section PlumbingFacts.

Context {Row St : Type} {T : Transform Row St}.
Import Node NodeFacts Process.

Implicit Types (c : call St) (h : gmap loc (list Row)) (w : world Row St).
Implicit Types (v : view Row St) (ch : call St * gmap loc (list Row)).

(** Chunks of data alone never fulfil the promise: only [end] does. *)
Lemma data_does_not_resolve chunk v :
  v_promise v <> Fulfilled tt -> v_promise (deliver_v (FsData chunk) v) <> Fulfilled tt.
Proof.
  intros Hp. destruct v as [p a [| |] st]; [|done|done].
  rewrite deliver_v_data. destruct (t_transform st chunk) as [[st' rows] [e|]]; simpl.
  - by destruct p.
  - done.
Qed.

Lemma run_data_does_not_resolve chunks : forall v,
  v_promise v <> Fulfilled tt ->
  v_promise (run_v (map FsData chunks) v) <> Fulfilled tt.
Proof.
  induction chunks as [|c chunks IH]; intros v Hp; [done|].
  simpl map. rewrite run_v_cons. by apply IH, data_does_not_resolve.
Qed.

Lemma observe_v_resolved v ds :
  observe_v v = Resolved ds -> v_promise v = Fulfilled tt.
Proof. unfold observe_v. by destruct (v_promise v) as [|[]|]. Qed.

Lemma pending_tracks w id v0 d t : tracks w id v0 d t -> pending_events w id = length t.
Proof. intros (c & Hc & Hs & _). unfold pending_events. by rewrite Hc, Hs. Qed.

(** X1: a readable file always settles the promise.  Taken alone, the
    invocation ends resolved with the rows the transform pushed for the
    blocks of the file, in that order, or rejected with the error of the
    transform, and nothing is thrown.  Inside a process, under any
    interleaving with other invocations, the caller observes that same
    outcome as soon as the read stream has emitted all its events. *)
Theorem readable_file_settles fs p content :
  fs !! p = Some (File true content) ->
  load fs p = (feed_outcome (feed t_new (chunks highWaterMark content)), []) /\
  forall w acts,
    wf w ->
    pending_events (exec acts (readDataFromCSV fs p w).2) (readDataFromCSV fs p w).1 = O ->
    observe (exec acts (readDataFromCSV fs p w).2) (readDataFromCSV fs p w).1
    = feed_outcome (feed t_new (chunks highWaterMark content)).
Proof.
  intros Hf. split; [by apply load_readable|].
  intros w acts Hw Hn.
  destruct (tracks_exec (readDataFromCSV fs p w).1 acts _ _ _ _
              (wf_invoke fs p w Hw) (tracks_new fs p w)) as (k & _ & Ht & _).
  rewrite (pending_tracks _ _ _ _ _ Ht) in Hn.
  rewrite (observe_tracks _ _ _ _ _ Ht).
  destruct (start_readable fs p content Hf) as [-> He]. rewrite He in *.
  rewrite length_drop in Hn. rewrite take_ge by lia.
  change ([] ++ ?l) with l.
  unfold new_view. rewrite run_v_feed. unfold feed_outcome.
  by destruct (feed _ _) as [rows [e|]].
Qed.

(** X2: a caller never receives a dataset before the whole file has been
    read.  If, at any point of a process, the promise of an invocation is
    resolved, then the path names a readable file, the read stream has
    emitted every block of it and its [end], and the dataset is the complete
    sequence of rows the transform makes of the file. *)
Theorem resolved_means_whole_file_read fs p w acts ds :
  wf w ->
  observe (exec acts (readDataFromCSV fs p w).2) (readDataFromCSV fs p w).1 = Resolved ds ->
  exists content,
    fs !! p = Some (File true content) /\
    (length (chunks highWaterMark content) < fired (readDataFromCSV fs p w).1 acts)%nat /\
    feed t_new (chunks highWaterMark content) = (ds, None).
Proof.
  intros Hw. destruct (observe_exec fs p w acts Hw) as (n & Hn & -> & _).
  set (m := fired _ acts) in *. clearbody m. intros Ho.
  pose proof (observe_v_resolved _ _ Ho) as Hp.
  destruct (path_ok p) eqn:Hok.
  2:{ destruct (start_invalid (T := T) fs p Hok) as [Hv He].
      rewrite Hv, He in Hp. by rewrite take_nil in Hp. }
  destruct (readable fs p) eqn:Hr.
  - unfold readable in Hr. destruct (fs !! p) as [[|[|] content]|] eqn:Hf; try done.
    exists content. split; [done|].
    destruct (start_readable (T := T) fs p content Hf) as [Hv He].
    rewrite Hv, He in Ho, Hp.
    destruct (decide (n <= length (chunks highWaterMark content))%nat) as [Hle|Hgt].
    + exfalso. rewrite take_app_le in Hp by (by rewrite length_map).
      rewrite firstn_map in Hp.
      by apply (run_data_does_not_resolve (take n (chunks highWaterMark content)) new_view).
    + split; [lia|].
      rewrite take_ge in Ho by (rewrite length_app, length_map; simpl; lia).
      unfold new_view in Ho. rewrite run_v_feed in Ho.
      destruct (feed _ _) as [rows [e|]]; [done|]. by injection Ho as ->.
  - destruct (start_unreadable (T := T) fs p Hok Hr) as (code & syscall & path & Hv & He).
    rewrite Hv, He in Hp. by destruct n as [|[|n]].
Qed.

(** *** What an invocation touches *)

(** An event of the read stream appends rows to the array and nothing
    else. *)
Lemma deliver_v_array ev v :
  exists rows, v_array (deliver_v ev v) = (fun a => a ++ rows) <$> v_array v.
Proof.
  assert (Hid : v_array v = (fun a => a ++ []) <$> v_array v).
  { destruct (v_array v); simpl; [by rewrite app_nil_r|done]. }
  destruct ev as [chunk| |e]; [| |by exists []].
  - destruct v as [p a [| |] st]; [|by exists []|by exists []].
    rewrite deliver_v_data.
    destruct (t_transform st chunk) as [[st' rows] [e|]]; by exists rows.
  - destruct v as [p a [| |] st]; [|by exists []|by exists []].
    rewrite deliver_v_end.
    destruct (t_flush st) as [rows [e|]]; by exists rows.
Qed.

(** One turn of the event loop for [id]: the other invocations and the
    arrays of the others are as before. *)
Lemma step_frame w id c :
  w_calls w !! id = Some c ->
  (exists c', w_calls (step w id) !! id = Some c' /\ c_data c' = c_data c) /\
  (forall id', id' <> id -> w_calls (step w id) !! id' = w_calls w !! id') /\
  (forall l, l <> c_data c -> w_heap (step w id) !! l = w_heap w !! l).
Proof.
  intros Hc. destruct (w_uncaught w) as [|e es] eqn:Hu;
    [|rewrite step_dead by (by rewrite Hu); by eauto].
  rewrite step_alive by done. rewrite Hc.
  destruct (c_source c) as [|ev rest]; [by eauto|].
  destruct (framed_deliver ev (set_source rest c, w_heap w)) as (Hd & _ & _ & Hh).
  simpl in *. repeat split.
  - eexists. by rewrite lookup_insert_eq.
  - intros id' Hne. by rewrite lookup_insert_ne.
  - done.
Qed.

Lemma run_frame n id : forall w c,
  w_calls w !! id = Some c ->
  (forall id', id' <> id -> w_calls (run (replicate n id) w) !! id' = w_calls w !! id') /\
  (forall l, l <> c_data c -> w_heap (run (replicate n id) w) !! l = w_heap w !! l).
Proof.
  induction n as [|n IH]; intros w c Hc; [done|].
  destruct (step_frame w id c Hc) as ((c' & Hc' & Hd) & Hcalls & Hheap).
  destruct (IH (step w id) c' Hc') as (IHc & IHh).
  simpl. split.
  - intros id' Hne. unfold run in IHc. by rewrite IHc, Hcalls.
  - intros l Hne. unfold run in IHh. rewrite IHh by congruence. by apply Hheap.
Qed.

(** X3: an invocation touches only what it created.  Whatever number of
    events of its read stream are processed, every array that existed before
    the call has the content it had, and every earlier invocation is in the
    state it was in. *)
Theorem invocation_touches_only_its_own fs p w n :
  let a := readDataFromCSV fs p w in
  let w' := run (replicate n a.1) a.2 in
  (forall l arr, w_heap w !! l = Some arr -> w_heap w' !! l = Some arr) /\
  (forall id c, w_calls w !! id = Some c -> w_calls w' !! id = Some c).
Proof.
  intros a w'. unfold w', a. clear a w'.
  set (l0 := fresh (dom (w_heap w))). set (id0 := fresh (dom (w_calls w))).
  destruct (invoke_call fs p w) as (c0 & -> & Hd0 & _). fold l0 id0 in Hd0 |- *. simpl.
  set (w0 := World (<[l0:=[]]> (w_heap w)) (<[id0:=c0]> (w_calls w)) (w_uncaught w)).
  assert (Hc0 : w_calls w0 !! id0 = Some c0) by (simpl; by rewrite lookup_insert_eq).
  destruct (run_frame n id0 w0 c0 Hc0) as (Hcalls & Hheap).
  split.
  - intros l arr Hl.
    assert (Hne : l <> l0).
    { intros ->. apply (is_fresh (dom (w_heap w))). apply elem_of_dom. by eexists. }
    rewrite Hheap by (by rewrite Hd0). simpl. by rewrite lookup_insert_ne.
  - intros id c Hid.
    assert (Hne : id <> id0).
    { intros ->. apply (is_fresh (dom (w_calls w))). apply elem_of_dom. by eexists. }
    rewrite (Hcalls id Hne). simpl. by rewrite lookup_insert_ne.
Qed.

(** Any action of the process keeps the array of an invocation an
    extension of what it was. *)
Lemma exec1_appends w act id c a :
  wf w -> w_calls w !! id = Some c -> w_heap w !! c_data c = Some a ->
  exists c' rows, w_calls (exec1 w act) !! id = Some c' /\ c_data c' = c_data c /\
                  w_heap (exec1 w act) !! c_data c = Some (a ++ rows).
Proof.
  intros Hw Hc Ha.
  destruct (w_uncaught w) as [|e es] eqn:Hu.
  2:{ rewrite exec1_dead by (by rewrite Hu). exists c, []. by rewrite app_nil_r. }
  destruct act as [fs p|id'].
  - rewrite exec1_invoke by done.
    destruct (invoke_call fs p w) as (c0 & -> & _). simpl.
    exists c, []. rewrite app_nil_r. repeat split.
    + rewrite lookup_insert_ne; [done|]. intros <-.
      apply (is_fresh (dom (w_calls w))). apply elem_of_dom. by eexists.
    + rewrite lookup_insert_ne; [done|]. intros Heq.
      apply (is_fresh (dom (w_heap w))). rewrite Heq. apply elem_of_dom. by eexists.
  - simpl exec1. destruct (decide (id' = id)) as [->|Hne].
    + rewrite step_alive by done. rewrite Hc.
      destruct (c_source c) as [|ev rest] eqn:Hs.
      { exists c, []. by rewrite app_nil_r. }
      set (ch := (set_source rest c, w_heap w)).
      destruct (framed_deliver ev ch) as (Hd & _ & _ & _).
      pose proof (view_deliver ev ch) as Hv.
      destruct (deliver_v_array ev (view_of ch)) as (rows & Hrows).
      rewrite <- Hv in Hrows. unfold view_of in Hrows. simpl in Hrows, Hd.
      exists (deliver ev ch).1, rows. simpl. repeat split.
      * by rewrite lookup_insert_eq.
      * done.
      * rewrite <- Hd, Hrows, Ha. done.
    + destruct (w_calls w !! id') as [c'|] eqn:Hc'.
      * destruct (step_frame w id' c' Hc') as (_ & Hcalls & Hheap).
        exists c, []. rewrite app_nil_r. repeat split.
        -- by rewrite Hcalls.
        -- rewrite Hheap; [done|]. intros Heq. destruct Hw as [_ Hinj].
           apply Hne. symmetry. by apply (Hinj id id' c c').
      * exists c, []. rewrite app_nil_r. rewrite step_alive by done. by rewrite Hc'.
Qed.

Lemma exec_appends acts : forall w id c a,
  wf w -> w_calls w !! id = Some c -> w_heap w !! c_data c = Some a ->
  exists c' rows, w_calls (exec acts w) !! id = Some c' /\ c_data c' = c_data c /\
                  w_heap (exec acts w) !! c_data c = Some (a ++ rows).
Proof.
  induction acts as [|act acts IH]; intros w id c a Hw Hc Ha.
  - exists c, []. by rewrite app_nil_r.
  - destruct (exec1_appends w act id c a Hw Hc Ha) as (c1 & rows1 & Hc1 & Hd1 & Ha1).
    assert (Hw1 : wf (exec1 w act)) by (by apply wf_exec1).
    rewrite <- Hd1 in Ha1.
    destruct (IH (exec1 w act) id c1 _ Hw1 Hc1 Ha1) as (c2 & rows2 & Hc2 & Hd2 & Ha2).
    exists c2, (rows1 ++ rows2). simpl. repeat split; [done|congruence|].
    rewrite <- Hd1, Ha2. by rewrite app_assoc.
Qed.

(** X4: rows are only ever appended.  Whatever happens in the process after
    a given point, the array of an invocation keeps the rows it held, in
    place, and can only have grown at its end. *)
Theorem rows_are_only_appended acts1 acts2 id (a1 : list Row) :
  array_of (exec acts1 empty_world) id = Some a1 ->
  exists rows, array_of (exec (acts1 ++ acts2) empty_world) id = Some (a1 ++ rows).
Proof.
  unfold array_of. intros Ha.
  destruct (w_calls (exec acts1 empty_world) !! id) as [c1|] eqn:Hc; [|done].
  rewrite exec_app.
  destruct (exec_appends acts2 (exec acts1 empty_world) id c1 a1)
    as (c2 & rows & Hc2 & Hd & Ha2); [apply wf_exec, wf_empty|done|done|].
  exists rows. by rewrite Hc2, Hd.
Qed.

End PlumbingFacts.
End PlumbingFacts.

(** * The size of a file and the outcome *)

Module SizeFacts.

Import Node CsvParser CsvText Loader CsvFacts LoaderFacts.

Section Size.

Context {rel : release}.

(** The length of the row being read grows by one with each byte and starts
    again from zero after a line. *)
Lemma transform_loop_bounded opts fuel : forall b start i s out k,
  rowLength s <= k -> 0 <= k -> k + Z.of_nat fuel <= maxRowBytes opts ->
  exists s' out',
    transform_loop opts fuel b start i s out = (s', out', None) /\
    rowLength s' <= k + Z.of_nat fuel.
Proof.
  induction fuel as [|fuel IH]; intros b start i s out k Hk Hk0 Hmax.
  - exists s, out. simpl. split; [done|lia].
  - assert (Hstep : forall s1 out1, rowLength s1 <= k + 1 ->
      exists s' out',
        transform_loop opts fuel b start (i + 1) s1 out1 = (s', out', None) /\
        rowLength s' <= k + Z.of_nat (S fuel)).
    { intros s1 out1 H1.
      destruct (IH b start (i + 1) s1 out1 (k + 1)) as (s' & out' & Hl & Hb); [lia..|].
      exists s', out'. split; [done|lia]. }
    simpl. destruct (i <? buf_length b); [|exists s, out; split; [done|lia]].
    destruct s as [esc fst ln pe rl q pv hs nlc]. simpl in Hk.
    unfold set_rowLength. simpl.
    destruct (Z.gtb_spec (rl + 1) (maxRowBytes opts)) as [?|_]; [lia|].
    repeat case_match; apply Hstep; simpl; lia.
Qed.

Lemma transform_bounded opts s data k :
  rowLength s <= k -> 0 <= k -> k + buf_length data <= maxRowBytes opts ->
  exists s' rows,
    _transform opts s data = (s', rows, None) /\ rowLength s' <= k + buf_length data.
Proof.
  intros Hk Hk0 Hmax. unfold _transform.
  set (start := match prev s with Some p => buf_length p | None => 0 end).
  set (buffer := match prev s with Some p => p ++ data | None => data end).
  assert (Hfuel : Z.to_nat (buf_length buffer - start) = length data).
  { unfold buffer, start. destruct (prev s); [rewrite buf_length_app|];
      unfold buf_length; lia. }
  rewrite Hfuel.
  destruct (transform_loop_bounded opts (length data) buffer start start
              (set_prev None s) [] k) as (s1 & out & Hl & Hb);
    [by destruct s|done|done|].
  rewrite Hl. fold (buf_length data) in Hb.
  repeat case_match; eexists _, _; (split; [done|]); by destruct s1.
Qed.

Lemma feed_bounded opts chunks : forall s k,
  rowLength s <= k -> 0 <= k -> k + buf_length (concat chunks) <= maxRowBytes opts ->
  exists rows, Node.feed (T := csv opts) s chunks = (rows, None).
Proof.
  induction chunks as [|c chunks IH]; intros s k Hk Hk0 Hmax; simpl.
  - pose proof (flush_no_error opts s) as Hn.
    destruct (_flush opts s) as [rows err]. simpl in Hn. subst err. by exists rows.
  - simpl in Hmax. rewrite buf_length_app in Hmax.
    pose proof (buf_length_nonneg c). pose proof (buf_length_nonneg (concat chunks)).
    change (t_transform s c) with (_transform opts s c).
    destruct (transform_bounded opts s c k) as (s' & rows & Ht & Hb); [lia..|].
    rewrite Ht.
    destruct (IH s' (k + buf_length c)) as (rows' & Hf); [lia..|].
    rewrite Hf. by eexists.
Qed.

(** X5: a readable file no larger than the row limit of the parser always
    loads.  Whatever its bytes are (quotes closed or not, any line ends), the
    promise is resolved with a dataset: it is not rejected, it does not stay
    pending, and nothing is thrown.  With [csv()] the limit is 2^53 - 1. *)
Theorem readable_file_always_resolves opts fs p content :
  fs !! p = Some (File true content) ->
  buf_length content <= maxRowBytes opts ->
  exists ds, Node.load (T := csv opts) fs p = (Resolved ds, []).
Proof.
  intros Hf Hmax.
  rewrite (NodeFacts.load_readable (T := csv opts) fs p content Hf).
  destruct (feed_bounded opts (chunks highWaterMark content) (new_state opts) 0)
    as (rows & Hfe); [done|done|by rewrite concat_chunks|].
  exists rows. simpl. by rewrite Hfe.
Qed.

End Size.

(** *** The theorems at sample files *)

#[local] Existing Instance latest.

Lemma readable_file_always_resolves_witness :
  ab_fs !! "data/ab.csv"%string = Some (File true CsvTable.ab_file) /\
  buf_length CsvTable.ab_file <= maxRowBytes defaults /\
  exists ds, Node.load (T := csv defaults) ab_fs "data/ab.csv" = (Resolved ds, []).
Proof.
  assert (Hf : ab_fs !! "data/ab.csv"%string = Some (File true CsvTable.ab_file))
    by (vm_compute; reflexivity).
  assert (Hm : buf_length CsvTable.ab_file <= maxRowBytes defaults)
    by (vm_compute; discriminate).
  split; [exact Hf|]. split; [exact Hm|].
  exact (readable_file_always_resolves defaults ab_fs "data/ab.csv" _ Hf Hm).
Defined.

End SizeFacts.

(** * Records, lines and tables *)

Module RowFacts.

Import Node CsvParser CsvText CsvTable Loader CsvFacts LoaderFacts.

Section Rows.

Context {rel : release}.

(** *** Where a cell is stored *)

Lemma writeRow_step hs index (o : row) cell :
  match hs !! index with
  | Some header => if skipped header then o else obj_set o header cell
  | None => obj_set o (String "_" (pretty index)) cell
  end =
  match column_key hs index with
  | Some key => <[key := cell]> o
  | None => o
  end.
Proof.
  unfold column_key, stored, obj_set. destruct (hs !! index) as [h|].
  - destruct (skipped h); [by rewrite orb_true_r|]. rewrite orb_false_r.
    by destruct (String.eqb h "__proto__").
  - by rewrite index_key_not_proto.
Qed.

(** Columns that do not write [key] leave it as it is. *)
Lemma writeRow_go_untouched hs key cells : forall index o,
  (forall j, (j < length cells)%nat -> column_key hs (index + j) <> Some key) ->
  writeRow_go hs cells index o !! key = o !! key.
Proof.
  induction cells as [|cell cells IH]; intros index o Hfree; [done|].
  simpl. rewrite writeRow_step, IH.
  - specialize (Hfree O ltac:(simpl; lia)). rewrite Nat.add_0_r in Hfree.
    destruct (column_key hs index) as [k|]; [|done].
    rewrite lookup_insert_ne; [done|congruence].
  - intros j Hj. replace (S index + j)%nat with (index + S j)%nat by lia.
    apply Hfree. simpl. lia.
Qed.

(** The last column that writes a key decides its value. *)
Lemma writeRow_go_lookup hs key v cells : forall index o j,
  column_key hs (index + j) = Some key ->
  cells !! j = Some v ->
  (forall j', (j < j' < length cells)%nat -> column_key hs (index + j') <> Some key) ->
  writeRow_go hs cells index o !! key = Some v.
Proof.
  induction cells as [|cell cells IH]; intros index o j Hkey Hv Hlast; [done|].
  simpl. rewrite writeRow_step. destruct j as [|j].
  - simpl in Hv. injection Hv as ->. rewrite Nat.add_0_r in Hkey.
    rewrite Hkey, writeRow_go_untouched; [by rewrite lookup_insert_eq|].
    intros j Hj. replace (S index + j)%nat with (index + S j)%nat by lia.
    apply Hlast. simpl. lia.
  - apply (IH (S index) _ j).
    + by replace (S index + j)%nat with (index + S j)%nat by lia.
    + done.
    + intros j' Hj'. replace (S index + j')%nat with (index + S j')%nat by lia.
      apply Hlast. simpl. lia.
Qed.

Lemma writeRow_lookup hs cells j key v :
  column_key hs j = Some key ->
  cells !! j = Some v ->
  (forall j', (j < j' < length cells)%nat -> column_key hs j' <> Some key) ->
  writeRow hs cells !! key = Some v.
Proof. intros Hk Hv Hl. by apply (writeRow_go_lookup hs key v cells O ∅ j). Qed.

(** X6: where a field ends up.  For plain text, the record of a data line
    holds the field of column [j] under the name of that column (the header
    of the column, or [_j] beyond the header), unless a later column of the
    line writes the same name: with repeated names the last column wins. *)
Theorem field_is_stored_under_its_column fs p content ds i line j key v :
  fs !! p = Some (File true content) ->
  load fs p = (Resolved ds, []) ->
  plain content ->
  buf_length content <= MAX_SAFE_INTEGER ->
  data_lines content !! i = Some line ->
  column_key (header_fields content) j = Some key ->
  fields line !! j = Some v ->
  (forall j', (j < j' < length (fields line))%nat ->
              column_key (header_fields content) j' <> Some key) ->
  exists r, ds !! i = Some r /\ r !! key = Some v.
Proof.
  intros Hf Hl Hp Hmax Hi Hk Hv Hlast.
  rewrite (load_plain _ _ _ Hf Hp Hmax) in Hl. injection Hl as <-.
  rewrite dataset_of_records, list_lookup_fmap, Hi. simpl.
  eexists. split; [done|]. by apply (writeRow_lookup _ _ j).
Qed.

(** X7: for plain text the outcome does not depend on how the bytes of the
    file are cut into chunks: the parser fed any pieces that make up the
    content gives what the loader gives with its blocks of 64 KiB. *)
Theorem block_size_does_not_matter fs p content (pieces : list Buffer) :
  fs !! p = Some (File true content) ->
  plain content ->
  buf_length content <= MAX_SAFE_INTEGER ->
  concat pieces = content ->
  feed_outcome (decode defaults pieces) = (load fs p).1.
Proof.
  intros Hf Hp Hmax Hc. rewrite (load_plain _ _ _ Hf Hp Hmax).
  rewrite decode_plain; by rewrite Hc.
Qed.

(** *** Lines *)

Lemma split_go_open sep (l : Buffer) : forall closed cur,
  l <> [] -> last l <> Some sep -> (split_go sep closed cur l).2 <> [].
Proof.
  induction l as [|c l IH]; intros closed cur Hne Hlast; [done|].
  simpl. destruct (decide (l = [])) as [->|Hl].
  - simpl in *. destruct (Ascii.eqb_spec c sep) as [->|Hc]; [done|].
    simpl. by destruct cur.
  - assert (Hlast' : last l <> Some sep).
    { destruct l; [done|]. by rewrite last_cons_cons in Hlast. }
    destruct (Ascii.eqb c sep); by apply IH.
Qed.

(** A line feed at the very end of a text adds no line. *)
Lemma dataset_of_final_nl (content : Buffer) :
  last content <> Some nl -> dataset_of (content ++ [nl]) = dataset_of content.
Proof.
  intros Hlast. unfold dataset_of, text_lines. rewrite split_go_app.
  destruct (decide (content = [])) as [->|Hne]; [done|].
  pose proof (split_go_open nl content [] [] Hne Hlast) as Hcur.
  destruct (split_go nl [] [] content) as [closed cur]. simpl in *.
  unfold close_lines. simpl. by destruct cur.
Qed.

(** X8: a line feed at the very end of a plain text adds no record: the
    file whose last line is not ended and the same file with the line feed
    added load alike. *)
Theorem final_line_feed_adds_no_record fs p p' content :
  fs !! p = Some (File true content) ->
  fs !! p' = Some (File true (content ++ [nl])) ->
  plain content ->
  last content <> Some nl ->
  buf_length (content ++ [nl]) <= MAX_SAFE_INTEGER ->
  load fs p' = load fs p.
Proof.
  intros Hf Hf' Hp Hlast Hmax.
  rewrite (load_plain _ _ _ Hf Hp), (load_plain _ _ _ Hf'), ?dataset_of_final_nl; try done.
  - apply plain_app. split; [done|]. by repeat constructor.
  - rewrite buf_length_app in Hmax. pose proof (buf_length_nonneg [nl]). lia.
Qed.

(** X9: an empty line among the data lines of a plain text is not skipped:
    it gives an empty record, at the position of the line. *)
Theorem blank_line_gives_empty_record fs p content ds i :
  fs !! p = Some (File true content) ->
  load fs p = (Resolved ds, []) ->
  plain content ->
  buf_length content <= MAX_SAFE_INTEGER ->
  data_lines content !! i = Some [] ->
  ds !! i = Some ∅.
Proof.
  intros Hf Hl Hp Hmax Hi.
  rewrite (load_plain _ _ _ Hf Hp Hmax) in Hl. injection Hl as <-.
  by rewrite dataset_of_records, list_lookup_fmap, Hi.
Qed.

(** *** A table written and read back *)

Lemma split_go_segment sep (s : Buffer) : forall closed cur,
  Forall (fun x => x <> sep) s ->
  split_go sep closed cur s = (closed, cur ++ s).
Proof.
  induction s as [|c s IH]; intros closed cur Hs; simpl.
  - by rewrite app_nil_r.
  - inversion Hs as [|? ? Hc Hs']; subst.
    destruct (Ascii.eqb_spec c sep) as [?|_]; [done|].
    rewrite IH by done. by rewrite <- app_assoc.
Qed.

Lemma split_go_join_segments sep (segments : list Buffer) : forall s closed cur,
  Forall (Forall (fun x => x <> sep)) (s :: segments) ->
  (split_go sep closed cur (join sep (s :: segments))).1 ++
  [(split_go sep closed cur (join sep (s :: segments))).2]
  = closed ++ (cur ++ s) :: segments.
Proof.
  induction segments as [|s' segments IH]; intros s closed cur Hfree.
  - inversion Hfree; subst. simpl. by rewrite split_go_segment.
  - inversion Hfree as [|? ? Hs Hrest]; subst.
    change (join sep (s :: s' :: segments)) with (s ++ sep :: join sep (s' :: segments)).
    rewrite split_go_app, (split_go_segment sep s closed cur Hs). simpl.
    rewrite Ascii.eqb_refl, (IH s' _ [] Hrest). simpl. by rewrite <- app_assoc.
Qed.

(** Joining segments that hold no separator and splitting again gives the
    segments back. *)
Lemma split_on_join sep (segments : list Buffer) :
  segments <> [] ->
  Forall (Forall (fun x => x <> sep)) segments ->
  split_on sep (join sep segments) = segments.
Proof.
  intros Hne Hfree. destruct segments as [|s segments]; [done|].
  pose proof (split_go_join_segments sep segments s [] [] Hfree) as Hs.
  unfold split_on. by destruct (split_go _ _ _ _).
Qed.

Lemma join_Forall (P : ascii -> Prop) sep (segments : list Buffer) :
  P sep -> Forall (Forall P) segments -> Forall P (join sep segments).
Proof.
  intros Hsep. induction segments as [|s [|s' segments] IH]; intros Hs.
  - constructor.
  - by inversion Hs.
  - inversion Hs; subst.
    change (Forall P (s ++ sep :: join sep (s' :: segments))).
    apply Forall_app. split; [done|]. constructor; [done|by apply IH].
Qed.

Lemma bare_sep_free cells :
  Forall bare cells -> Forall (Forall (fun x => x <> comma)) cells.
Proof.
  intros Hb. eapply Forall_impl; [exact Hb|]. intros cell Hc.
  eapply Forall_impl; [exact Hc|]. by intros c (? & _).
Qed.

Lemma fields_render_line cells :
  writable cells -> fields (render_line cells) = map buf_toString cells.
Proof.
  intros [Hb Hne]. unfold render_line, fields.
  destruct cells as [|c cells]; [done|].
  rewrite split_on_join; [|done|by apply bare_sep_free].
  destruct (join comma (c :: cells)) eqn:Hj; [|done].
  destruct cells as [|c' cells]; simpl in Hj.
  - by subst c.
  - by destruct c.
Qed.

Lemma render_line_one_line cells :
  Forall bare cells -> Forall (fun x => x <> nl) (render_line cells).
Proof.
  intros Hb. apply join_Forall; [done|].
  eapply Forall_impl; [exact Hb|]. intros cell Hc.
  eapply Forall_impl; [exact Hc|]. by intros c (_ & ? & _).
Qed.

Lemma split_go_render (table : list (list Buffer)) : forall closed,
  Forall writable table ->
  split_go nl closed [] (render table) = (closed ++ map render_line table, []).
Proof.
  induction table as [|cells table IH]; intros closed Hw; simpl.
  - by rewrite app_nil_r.
  - inversion Hw as [|? ? [Hb _] Hw']; subst.
    unfold render. simpl. fold (render table).
    rewrite <- app_assoc, split_go_app,
      (split_go_segment nl _ closed [] (render_line_one_line _ Hb)).
    simpl. rewrite IH by done. by rewrite <- app_assoc.
Qed.

Lemma text_lines_render table :
  Forall writable table -> text_lines (render table) = map render_line table.
Proof. intros Hw. unfold text_lines. by rewrite split_go_render. Qed.

Lemma plain_render table : Forall writable table -> plain (render table).
Proof.
  intros Hw. unfold render, plain. apply Forall_concat, Forall_fmap.
  eapply Forall_impl; [exact Hw|]. intros cells [Hb _]. simpl.
  apply Forall_app. split; [|by repeat constructor].
  apply join_Forall; [done|].
  eapply Forall_impl; [exact Hb|]. intros cell Hc.
  eapply Forall_impl; [exact Hc|]. by intros c (_ & _ & ? & ?).
Qed.

Lemma dataset_of_render header rows :
  Forall writable (header :: rows) ->
  dataset_of (render (header :: rows)) = map (record header) rows.
Proof.
  intros Hw. unfold dataset_of. rewrite text_lines_render by done.
  inversion Hw as [|? ? Hh Hrows]; subst. simpl.
  rewrite fields_render_line by done.
  rewrite map_map. apply map_ext_Forall.
  eapply Forall_impl; [exact Hrows|]. intros cells Hc. simpl.
  by rewrite fields_render_line.
Qed.

(** X10: a table written out as text is read back.  When no cell holds a
    comma, a line terminator or a quote character, and no line is made of
    one empty cell, the file with the header and the rows, the cells joined
    by commas and every line ended by a line feed, loads as the records of
    the rows under the header. *)
Theorem table_is_read_back fs p header rows :
  fs !! p = Some (File true (render (header :: rows))) ->
  Forall writable (header :: rows) ->
  buf_length (render (header :: rows)) <= MAX_SAFE_INTEGER ->
  load fs p = (Resolved (map (record header) rows), []).
Proof.
  intros Hf Hw Hmax.
  rewrite (load_plain _ _ _ Hf (plain_render _ Hw) Hmax).
  by rewrite dataset_of_render.
Qed.

(** *** The name [__proto__] *)

Lemma proto_not_a_column_key hs j : column_key hs j <> Some "__proto__"%string.
Proof.
  unfold column_key, stored. destruct (hs !! j) as [h|].
  - destruct (String.eqb_spec h "__proto__"); [done|].
    destruct (skipped h); simpl; congruence.
  - intros [= Heq]. pose proof (index_key_not_proto j) as Hk.
    rewrite Heq in Hk. done.
Qed.

Lemma writeRow_no_proto hs cells : writeRow hs cells !! "__proto__"%string = None.
Proof.
  unfold writeRow. rewrite (writeRow_go_untouched hs "__proto__" cells 0 ∅); [done|].
  intros j _. apply proto_not_a_column_key.
Qed.

(** X12: no record ever has a property named [__proto__].  Whatever the
    options of the parser and the content of the file, a column with that
    name is dropped from every record of the dataset. *)
Theorem no_record_has_a_proto_key opts fs p ds (r : row) :
  (Node.load (T := csv opts) fs p).1 = Resolved ds ->
  r ∈ ds ->
  r !! "__proto__"%string = None.
Proof.
  intros Hl Hr. destruct (path_ok p) eqn:Hok.
  2:{ by rewrite (NodeFacts.load_invalid (T := csv opts) fs p Hok) in Hl. }
  destruct (readable fs p) eqn:Hrd.
  - unfold readable in Hrd. destruct (fs !! p) as [[|[|] content]|] eqn:Hf; try done.
    rewrite (NodeFacts.load_readable (T := csv opts) fs p content Hf) in Hl.
    simpl in Hl. unfold feed_outcome in Hl.
    destruct (feed _ _) as [rows [e|]] eqn:Hfe; [done|]. injection Hl as ->.
    destruct (feed_shape _ _ _ _ _ Hfe) as (hs & Hm & _).
    destruct (Hm r Hr) as (cells & ->). apply writeRow_no_proto.
  - destruct (NodeFacts.load_unreadable (T := csv opts) fs p Hok Hrd)
      as (code & syscall & path & _ & Hu).
    by rewrite Hu in Hl.
Qed.

End Rows.

(** *** The theorems at sample files *)

#[local] Existing Instance latest.

Lemma field_is_stored_under_its_column_witness :
  ab_fs !! "data/ab.csv"%string = Some (File true ab_file) /\
  load ab_fs "data/ab.csv" = (Resolved ab_rows, []) /\
  plain ab_file /\
  buf_length ab_file <= MAX_SAFE_INTEGER /\
  data_lines ab_file !! 0%nat = Some (bytes "1,2") /\
  column_key (header_fields ab_file) 1 = Some "b"%string /\
  fields (bytes "1,2") !! 1%nat = Some "2"%string /\
  (forall j', (1 < j' < length (fields (bytes "1,2")))%nat ->
              column_key (header_fields ab_file) j' <> Some "b"%string) /\
  exists r, ab_rows !! 0%nat = Some r /\ r !! "b"%string = Some "2"%string.
Proof.
  assert (Hf : ab_fs !! "data/ab.csv"%string = Some (File true ab_file))
    by (vm_compute; reflexivity).
  assert (Hl : load ab_fs "data/ab.csv" = (Resolved ab_rows, []))
    by (vm_compute; reflexivity).
  assert (Hp : plain ab_file) by (apply plain_decide; vm_compute; reflexivity).
  assert (Hm : buf_length ab_file <= MAX_SAFE_INTEGER) by (vm_compute; discriminate).
  assert (Hi : data_lines ab_file !! 0%nat = Some (bytes "1,2"))
    by (vm_compute; reflexivity).
  assert (Hk : column_key (header_fields ab_file) 1 = Some "b"%string)
    by (vm_compute; reflexivity).
  assert (Hv : fields (bytes "1,2") !! 1%nat = Some "2"%string)
    by (vm_compute; reflexivity).
  assert (Hlast : forall j', (1 < j' < length (fields (bytes "1,2")))%nat ->
                    column_key (header_fields ab_file) j' <> Some "b"%string).
  { intros j' Hj'. exfalso. change (length (fields (bytes "1,2"))) with 2%nat in Hj'. lia. }
  split; [exact Hf|]. split; [exact Hl|]. split; [exact Hp|]. split; [exact Hm|].
  split; [exact Hi|]. split; [exact Hk|]. split; [exact Hv|]. split; [exact Hlast|].
  exact (field_is_stored_under_its_column ab_fs "data/ab.csv" _ _ _ _ _ _ _
           Hf Hl Hp Hm Hi Hk Hv Hlast).
Defined.

Lemma block_size_does_not_matter_witness :
  ab_fs !! "data/ab.csv"%string = Some (File true ab_file) /\
  plain ab_file /\
  buf_length ab_file <= MAX_SAFE_INTEGER /\
  concat ab_pieces = ab_file /\
  feed_outcome (decode defaults ab_pieces) = (load ab_fs "data/ab.csv").1.
Proof.
  assert (Hf : ab_fs !! "data/ab.csv"%string = Some (File true ab_file))
    by (vm_compute; reflexivity).
  assert (Hp : plain ab_file) by (apply plain_decide; vm_compute; reflexivity).
  assert (Hm : buf_length ab_file <= MAX_SAFE_INTEGER) by (vm_compute; discriminate).
  assert (Hc : concat ab_pieces = ab_file) by (vm_compute; reflexivity).
  split; [exact Hf|]. split; [exact Hp|]. split; [exact Hm|]. split; [exact Hc|].
  exact (block_size_does_not_matter ab_fs "data/ab.csv" _ _ Hf Hp Hm Hc).
Defined.

Lemma final_line_feed_adds_no_record_witness :
  final_fs !! "data/open.csv"%string = Some (File true open_file) /\
  final_fs !! "data/closed.csv"%string = Some (File true (open_file ++ [nl])) /\
  plain open_file /\
  last open_file <> Some nl /\
  buf_length (open_file ++ [nl]) <= MAX_SAFE_INTEGER /\
  load final_fs "data/closed.csv" = load final_fs "data/open.csv".
Proof.
  assert (Hf : final_fs !! "data/open.csv"%string = Some (File true open_file))
    by (vm_compute; reflexivity).
  assert (Hf' : final_fs !! "data/closed.csv"%string
                = Some (File true (open_file ++ [nl])))
    by (vm_compute; reflexivity).
  assert (Hp : plain open_file) by (apply plain_decide; vm_compute; reflexivity).
  assert (Hlast : last open_file <> Some nl) by (vm_compute; discriminate).
  assert (Hm : buf_length (open_file ++ [nl]) <= MAX_SAFE_INTEGER)
    by (vm_compute; discriminate).
  split; [exact Hf|]. split; [exact Hf'|]. split; [exact Hp|]. split; [exact Hlast|].
  split; [exact Hm|].
  exact (final_line_feed_adds_no_record final_fs "data/open.csv" "data/closed.csv" _
           Hf Hf' Hp Hlast Hm).
Defined.

Lemma blank_line_gives_empty_record_witness :
  blank_fs !! "data/blank.csv"%string = Some (File true blank_file) /\
  load blank_fs "data/blank.csv" = (Resolved blank_rows, []) /\
  plain blank_file /\
  buf_length blank_file <= MAX_SAFE_INTEGER /\
  data_lines blank_file !! 0%nat = Some [] /\
  blank_rows !! 0%nat = Some ∅.
Proof.
  assert (Hf : blank_fs !! "data/blank.csv"%string = Some (File true blank_file))
    by (vm_compute; reflexivity).
  assert (Hl : load blank_fs "data/blank.csv" = (Resolved blank_rows, []))
    by (vm_compute; reflexivity).
  assert (Hp : plain blank_file) by (apply plain_decide; vm_compute; reflexivity).
  assert (Hm : buf_length blank_file <= MAX_SAFE_INTEGER) by (vm_compute; discriminate).
  assert (Hi : data_lines blank_file !! 0%nat = Some []) by (vm_compute; reflexivity).
  split; [exact Hf|]. split; [exact Hl|]. split; [exact Hp|]. split; [exact Hm|].
  split; [exact Hi|].
  exact (blank_line_gives_empty_record blank_fs "data/blank.csv" _ _ _ Hf Hl Hp Hm Hi).
Defined.

Lemma table_is_read_back_witness :
  ab_fs !! "data/ab.csv"%string = Some (File true (render (ab_header :: ab_cells))) /\
  Forall writable (ab_header :: ab_cells) /\
  buf_length (render (ab_header :: ab_cells)) <= MAX_SAFE_INTEGER /\
  load ab_fs "data/ab.csv" = (Resolved (map (record ab_header) ab_cells), []).
Proof.
  assert (Hf : ab_fs !! "data/ab.csv"%string
               = Some (File true (render (ab_header :: ab_cells))))
    by (vm_compute; reflexivity).
  assert (Hw : Forall writable (ab_header :: ab_cells))
    by (repeat constructor; discriminate).
  assert (Hm : buf_length (render (ab_header :: ab_cells)) <= MAX_SAFE_INTEGER)
    by (vm_compute; discriminate).
  split; [exact Hf|]. split; [exact Hw|]. split; [exact Hm|].
  exact (table_is_read_back ab_fs "data/ab.csv" _ _ Hf Hw Hm).
Defined.

Lemma no_record_has_a_proto_key_witness :
  (Node.load (T := csv defaults) quoted_fs "data/proto.csv").1 = Resolved proto_rows /\
  ({[ "b" := "2" ]}%string : row) ∈ proto_rows /\
  ({[ "b" := "2" ]}%string : row) !! "__proto__"%string = None.
Proof.
  assert (Hl : (Node.load (T := csv defaults) quoted_fs "data/proto.csv").1
               = Resolved proto_rows) by (vm_compute; reflexivity).
  assert (Hr : ({[ "b" := "2" ]}%string : row) ∈ proto_rows) by apply list_elem_of_here.
  split; [exact Hl|]. split; [exact Hr|].
  exact (no_record_has_a_proto_key defaults quoted_fs "data/proto.csv" _ _ Hl Hr).
Defined.

End RowFacts.

(** * Carriage returns *)

Module CrlfFacts.

Import Node CsvParser CsvText CsvLines Loader CsvFacts LoaderFacts RowFacts.

Ltac st_simpl :=
  cbn [set_rowLength set_previousEnd set_headers set_lineNumber rowLength escaped first
       lineNumber previousEnd quoted prev headers cur_newline fst snd].

Section Crlf.

Context {rel : release}.

Lemma bare_line_plain l : bare_line l -> plain l.
Proof. intros Hl. eapply Forall_impl; [exact Hl|]. by intros c (_ & ? & ?). Qed.

(** The bytes of a line only make the row longer. *)
Lemma transform_loop_bare (seg : Buffer) : forall b pre post fuel start s out,
  b = pre ++ seg ++ post -> bare_line seg ->
  escaped s = false -> quoted s = false -> cur_newline s = nl ->
  rowLength s + buf_length seg <= MAX_SAFE_INTEGER ->
  transform_loop defaults (length seg + fuel) b start (buf_length pre) s out =
  transform_loop defaults fuel b start (buf_length pre + buf_length seg)
    (set_rowLength (rowLength s + buf_length seg) s) out.
Proof.
  induction seg as [|x seg IH]; intros b pre post fuel start s out Hb Hl He Hq Hn Hmax.
  - rewrite buf_length_nil, !Z.add_0_r. simpl. by destruct s.
  - inversion Hl as [|? ? (Hxn & Hxc & Hxq) Hl']; subst x0 l.
    pose proof (buf_length_nonneg seg). rewrite buf_length_cons in Hmax.
    assert (Hlen : (buf_length pre <? buf_length b) = true).
    { apply Z.ltb_lt. subst b. pose proof (buf_length_nonneg post). buf_idx. }
    assert (Hget : buf_get b (buf_length pre) = Some x).
    { subst b. by rewrite buf_get_app_r. }
    assert (Hxn' : Ascii.eqb x nl = false) by by apply Ascii.eqb_neq.
    assert (Hxc' : Ascii.eqb x cr = false) by by apply Ascii.eqb_neq.
    assert (Hxq' : Ascii.eqb x dquote = false) by by apply Ascii.eqb_neq.
    simpl (length (x :: seg) + fuel)%nat. rewrite transform_loop_S, Hlen. cbv zeta.
    rewrite Hget, !byte_is_Some.
    destruct s as [esc fst ln pe rl q pv hs nlc]. simpl in He, Hq, Hn, Hmax.
    subst esc q nlc. unfold set_rowLength. simpl.
    destruct (Z.gtb_spec (rl + 1) MAX_SAFE_INTEGER) as [?|_]; [lia|].
    rewrite Hxn', Hxc', Hxq'. simpl.
    assert (Hs1 :
      (if fst && true
       then State false fst ln pe (rl + 1) false pv hs nl
       else State false fst ln pe (rl + 1) false pv hs nl)
      = State false fst ln pe (rl + 1) false pv hs nl) by by destruct fst.
    rewrite Hs1. simpl. rewrite Hxn'.
    replace (buf_length pre + 1) with (buf_length (pre ++ [x])) by buf_idx.
    rewrite (IH b (pre ++ [x]) post fuel start _ out);
      [|subst b; by rewrite <- !app_assoc|done|done|done|done|simpl; lia].
    unfold set_rowLength. simpl. f_equal; [buf_idx|]. f_equal. buf_idx.
Qed.

(** A carriage return in front of a line feed makes the row longer by one
    byte. *)
Lemma transform_loop_cr fuel b start i s out :
  buf_get b i = Some cr -> buf_get b (i + 1) = Some nl ->
  0 <= i -> i + 1 < buf_length b ->
  escaped s = false -> quoted s = false -> cur_newline s = nl ->
  rowLength s + 1 <= MAX_SAFE_INTEGER ->
  transform_loop defaults (S fuel) b start i s out =
  transform_loop defaults fuel b start (i + 1) (set_rowLength (rowLength s + 1) s) out.
Proof.
  intros Hget Hnext Hi Hlt He Hq Hn Hmax.
  assert (Hlen : (i <? buf_length b) = true) by (apply Z.ltb_lt; lia).
  assert (Hlen1 : (i + 1 <? buf_length b) = true) by (apply Z.ltb_lt; lia).
  rewrite transform_loop_S, Hlen, Hlen1. cbv zeta. rewrite Hget, Hnext, !byte_is_Some.
  destruct s as [esc fst ln pe rl q pv hs nlc]. simpl in He, Hq, Hn, Hmax.
  subst esc q nlc. unfold set_rowLength. simpl.
  destruct (Z.gtb_spec (rl + 1) MAX_SAFE_INTEGER) as [?|_]; [lia|].
  by destruct fst.
Qed.

(** A line feed outside quotes ends the line. *)
Lemma transform_loop_nl fuel b start i s out :
  buf_get b i = Some nl -> 0 <= i < buf_length b ->
  escaped s = false -> quoted s = false -> cur_newline s = nl ->
  rowLength s + 1 <= MAX_SAFE_INTEGER ->
  transform_loop defaults (S fuel) b start i s out =
  transform_loop defaults fuel b start (i + 1)
    (set_rowLength 0 (set_previousEnd (i + 1)
       (parseLine defaults b (previousEnd s) (i + 1)
          (set_rowLength (rowLength s + 1) s)).1))
    (out ++ (parseLine defaults b (previousEnd s) (i + 1)
               (set_rowLength (rowLength s + 1) s)).2).
Proof.
  intros Hget Hi He Hq Hn Hmax.
  assert (Hlen : (i <? buf_length b) = true) by (apply Z.ltb_lt; lia).
  rewrite transform_loop_S, Hlen. cbv zeta. rewrite Hget, !byte_is_Some.
  destruct s as [esc fst ln pe rl q pv hs nlc]. simpl in He, Hq, Hn, Hmax.
  subst esc q nlc. unfold set_rowLength. simpl.
  destruct (Z.gtb_spec (rl + 1) MAX_SAFE_INTEGER) as [?|_]; [lia|].
  assert (Hs1 :
    (if fst && true
     then set_newline nl (State false fst ln pe (rl + 1) false pv hs nl)
     else State false fst ln pe (rl + 1) false pv hs nl)
    = State false fst ln pe (rl + 1) false pv hs nl) by by destruct fst.
  rewrite Hs1. simpl.
  by destruct (parseLine defaults b pe (i + 1) _) as [s' rows].
Qed.

(** [parseLine] drops the carriage return in front of the line feed. *)
Lemma parseLine_crlf (b pre line post : Buffer) s :
  b = pre ++ line ++ cr :: post ->
  plain line ->
  (line = [] -> byte_is (last pre) cr = false) ->
  parseLine defaults b (buf_length pre) (buf_length pre + buf_length line + 2) s =
  parseLine defaults b (buf_length pre) (buf_length pre + buf_length line + 1) s.
Proof.
  intros Hb Hp Hbnd.
  assert (Hne : (buf_length b =? 0) = false).
  { apply Z.eqb_neq. subst b. pose proof (buf_length_nonneg pre).
    pose proof (buf_length_nonneg line). pose proof (buf_length_nonneg post). buf_idx. }
  assert (Hcr : buf_get b (buf_length pre + buf_length line) = Some cr).
  { subst b. by rewrite <- buf_length_app, app_assoc, buf_get_app_r. }
  assert (Hlast : buf_get b (buf_length pre + buf_length line - 1) = last (pre ++ line)).
  { subst b. rewrite <- buf_length_app, app_assoc. apply buf_get_pred. }
  assert (Hno : byte_is (last (pre ++ line)) cr = false).
  { rewrite last_app. destruct (last line) as [x|] eqn:Hl.
    - apply byte_is_ne. by apply (last_Forall _ _ _ Hp Hl).
    - apply last_None in Hl. by apply Hbnd. }
  unfold parseLine.
  replace (buf_length pre + buf_length line + 2 - 1)
    with (buf_length pre + buf_length line + 1) by lia.
  replace (buf_length pre + buf_length line + 1 - 1)
    with (buf_length pre + buf_length line) by lia.
  rewrite Hcr, Hlast, Hno, Hne, byte_is_refl, andb_false_r. simpl andb. cbv iota.
  by replace (buf_length pre + buf_length line + 1 - 1)
    with (buf_length pre + buf_length line) by lia.
Qed.


(** One line ended by a carriage return and a line feed: the first one sets
    the headers, every other one gives the record of its fields. *)
Lemma transform_loop_crlf_line b p0 line post fuel start s out closed :
  b = p0 ++ line ++ [cr; nl] ++ post ->
  bare_line line ->
  at_line_start s p0 closed ->
  line_start p0 ->
  buf_length b <= MAX_SAFE_INTEGER ->
  exists s',
    transform_loop defaults (length line + (2 + fuel)) b start (buf_length p0) s out =
    transform_loop defaults fuel b start (buf_length (p0 ++ line ++ [cr; nl])) s'
      (out ++ match closed with
              | [] => []
              | h :: _ => [writeRow (fields h) (fields line)]
              end) /\
    at_line_start s' (p0 ++ line ++ [cr; nl]) (closed ++ [line]).
Proof.
  intros Hb Hl (He & Hq & Hn & Hpv & Hf & Hhs & Hpe & Hrl) Hls Hmax.
  pose proof (buf_length_nonneg p0). pose proof (buf_length_nonneg line).
  pose proof (buf_length_nonneg post).
  assert (Hlenb : buf_length b = buf_length p0 + buf_length line + 2 + buf_length post).
  { subst b. buf_idx. }
  destruct s as [esc fst ln pe rl q pv hs nlc]. simpl in He, Hq, Hn, Hpv, Hf, Hpe, Hrl.
  subst esc q nlc pv pe rl. simpl in Hhs.
  rewrite (transform_loop_bare line b p0 ([cr; nl] ++ post)); [|done..|simpl; lia].
  change (2 + fuel)%nat with (S (S fuel)). st_simpl.
  rewrite transform_loop_cr; [|subst b..|lia|lia|done|done|done|st_simpl; lia].
  2:{ by rewrite <- buf_length_app, app_assoc, buf_get_app_r. }
  2:{ replace (buf_length p0 + buf_length line + 1)
        with (buf_length (p0 ++ line ++ [cr])) by buf_idx.
      replace (p0 ++ line ++ [cr; nl] ++ post) with ((p0 ++ line ++ [cr]) ++ nl :: post)
        by (by rewrite <- !app_assoc).
      by rewrite buf_get_app_r. }
  st_simpl.
  rewrite transform_loop_nl; [|subst b|lia|done|done|done|st_simpl; lia].
  2:{ replace (buf_length p0 + buf_length line + 1)
        with (buf_length (p0 ++ line ++ [cr])) by buf_idx.
      replace (p0 ++ line ++ [cr; nl] ++ post) with ((p0 ++ line ++ [cr]) ++ nl :: post)
        by (by rewrite <- !app_assoc).
      by rewrite buf_get_app_r. }
  st_simpl.
  replace (buf_length p0 + buf_length line + 1 + 1)
    with (buf_length p0 + buf_length line + 2) by lia.
  destruct (line_start_bytes p0 Hls) as [Hpcr Hpco].
  rewrite (parseLine_crlf b p0 line (nl :: post));
    [|by subst b|by apply bare_line_plain|done].
  rewrite (parseLine_plain b p0 line (cr :: nl :: post));
    [|by subst b|by apply bare_line_plain|done].
  st_simpl.
  replace (buf_length (p0 ++ line ++ [cr; nl]))
    with (buf_length p0 + buf_length line + 2) by buf_idx.
  destruct closed as [|h closed]; subst fst; st_simpl.
  - eexists. split; [done|]. repeat split; try done.
    + intros h rest [= <- _]. done.
    + simpl. buf_idx.
  - pose proof (Hhs h closed eq_refl) as Hh. subst hs.
    eexists. split; [done|]. repeat split; try done.
    + by intros h' rest [= <- _].
    + simpl. buf_idx.
Qed.

Lemma line_start_snoc (p : Buffer) : line_start (p ++ [nl]).
Proof. right. by rewrite last_snoc. Qed.

(** All the lines ended by a carriage return and a line feed. *)
Lemma transform_loop_crlf_lines (lines : list Buffer) :
  forall b p0 post fuel start s out closed,
  b = p0 ++ text_of [cr; nl] lines [] ++ post ->
  Forall bare_line lines ->
  at_line_start s p0 closed ->
  line_start p0 ->
  buf_length b <= MAX_SAFE_INTEGER ->
  exists s' rows,
    transform_loop defaults (length (text_of [cr; nl] lines []) + fuel) b start
      (buf_length p0) s out =
    transform_loop defaults fuel b start (buf_length (p0 ++ text_of [cr; nl] lines []))
      s' (out ++ rows) /\
    rows_of_lines (closed ++ lines) = rows_of_lines closed ++ rows /\
    at_line_start s' (p0 ++ text_of [cr; nl] lines []) (closed ++ lines).
Proof.
  induction lines as [|line lines IH];
    intros b p0 post fuel start s out closed Hb Hl Hs Hls Hmax.
  - exists s, []. unfold text_of. simpl. rewrite !app_nil_r. by split; [|split].
  - apply Forall_cons in Hl as [Hline Hl'].
    assert (Ht : text_of [cr; nl] (line :: lines) []
                 = line ++ [cr; nl] ++ text_of [cr; nl] lines []).
    { unfold text_of. simpl. by rewrite !app_nil_r, <- app_assoc. }
    rewrite Ht in *.
    replace (length (line ++ [cr; nl] ++ text_of [cr; nl] lines []) + fuel)%nat
      with (length line + (2 + (length (text_of [cr; nl] lines []) + fuel)))%nat
      by (rewrite !length_app; simpl; lia).
    destruct (transform_loop_crlf_line b p0 line (text_of [cr; nl] lines [] ++ post)
                (length (text_of [cr; nl] lines []) + fuel) start s out closed)
      as (s1 & Hloop1 & Hs1); [by rewrite Hb, <- !app_assoc|done..|].
    rewrite Hloop1.
    destruct (IH b (p0 ++ line ++ [cr; nl]) post fuel start s1
                (out ++ match closed with
                        | [] => []
                        | h :: _ => [writeRow (fields h) (fields line)]
                        end) (closed ++ [line]))
      as (s2 & rows & Hloop2 & Hrows & Hs2);
      [by rewrite Hb, <- !app_assoc|done|done| |done|].
    { replace (p0 ++ line ++ [cr; nl]) with ((p0 ++ line ++ [cr]) ++ [nl])
        by (by rewrite <- !app_assoc).
      apply line_start_snoc. }
    rewrite Hloop2.
    exists s2, (match closed with
                | [] => []
                | h :: _ => [writeRow (fields h) (fields line)]
                end ++ rows).
    replace (p0 ++ line ++ [cr; nl] ++ text_of [cr; nl] lines [])
      with ((p0 ++ line ++ [cr; nl]) ++ text_of [cr; nl] lines [])
      by (by rewrite <- !app_assoc).
    replace (closed ++ line :: lines) with ((closed ++ [line]) ++ lines)
      by (by rewrite <- app_assoc).
    split; [by rewrite <- (app_assoc out)|split; [|done]].
    rewrite Hrows, rows_of_lines_snoc. by rewrite <- app_assoc.
Qed.

Lemma text_of_last eol lines (last_line : Buffer) :
  text_of eol lines last_line = text_of eol lines [] ++ last_line.
Proof. unfold text_of. by rewrite app_nil_r. Qed.

Lemma line_start_text_of lines : line_start (text_of [cr; nl] lines []).
Proof.
  destruct lines as [|line lines _] using rev_ind; [by left|].
  unfold text_of. rewrite map_app, concat_app, app_nil_r. simpl. rewrite app_nil_r.
  replace (concat (map (fun l => l ++ [cr; nl]) lines) ++ line ++ [cr; nl])
    with ((concat (map (fun l => l ++ [cr; nl]) lines) ++ line ++ [cr]) ++ [nl])
    by (by rewrite <- !app_assoc).
  apply line_start_snoc.
Qed.

(** A text whose lines end with a carriage return and a line feed, when it
    arrives in one chunk: the rows are those of its lines. *)
Lemma decode_crlf lines last_line :
  Forall bare_line lines -> bare_line last_line ->
  buf_length (text_of [cr; nl] lines last_line) <= MAX_SAFE_INTEGER ->
  decode defaults [text_of [cr; nl] lines last_line]
  = (rows_of_lines (all_lines lines last_line), None).
Proof.
  intros Hl Hlast Hmax. rewrite text_of_last in *.
  set (body := text_of [cr; nl] lines []) in *.
  pose proof (buf_length_nonneg body). pose proof (buf_length_nonneg last_line).
  rewrite buf_length_app in Hmax.
  assert (Hs0 : at_line_start (set_prev None (new_state defaults)) [] []) by done.
  destruct (transform_loop_crlf_lines lines (body ++ last_line) [] last_line
              (length last_line + 0) 0 (set_prev None (new_state defaults)) [] [])
    as (s1 & rows & Hloop & Hrows & Hs1);
    [done|done|done|by left|by rewrite buf_length_app|].
  simpl in Hrows, Hs1, Hloop. fold body in Hloop, Hs1.
  destruct Hs1 as (He & Hq & Hn & Hpv & Hf & Hhs & Hpe & Hrl).
  rewrite (transform_loop_bare last_line (body ++ last_line) body [] 0 0 s1 rows)
    in Hloop; [|by rewrite app_nil_r|done..|lia].
  simpl transform_loop in Hloop. rewrite Hrl, Z.add_0_l in Hloop.
  assert (Ht : transform_loop defaults
                 (Z.to_nat (buf_length (body ++ last_line) - 0)) (body ++ last_line) 0 0
                 (set_prev None (new_state defaults)) []
               = (set_rowLength (buf_length last_line) s1, rows, None)).
  { rewrite <- Hloop. f_equal. rewrite buf_length_app. unfold buf_length.
    rewrite Nat.add_0_r. unfold body. lia. }
  unfold decode. cbn [feed].
  change (t_transform (new_state defaults) (body ++ last_line))
    with (_transform defaults (new_state defaults) (body ++ last_line)).
  unfold _transform. cbn [prev new_state]. rewrite Ht. st_simpl. rewrite Hpe.
  rewrite buf_length_app.
  destruct last_line as [|x last_line].
  - rewrite buf_length_nil, Z.add_0_r, Z.eqb_refl.
    change (t_flush ?s) with (_flush defaults s). unfold _flush.
    destruct s1; simpl in *. subst. simpl. unfold all_lines.
    by rewrite !app_nil_r.
  - rewrite buf_length_cons in *. pose proof (buf_length_nonneg last_line).
    destruct (Z.eqb_spec (buf_length body) (buf_length body + (1 + buf_length last_line)));
      [lia|].
    assert (Hfl : forall s2, escaped s2 = false -> prev s2 = Some (body ++ x :: last_line) ->
                    previousEnd s2 = buf_length body -> first s2 = first s1 ->
                    headers s2 = headers s1 ->
                    _flush defaults s2 =
                    (match lines with
                     | [] => []
                     | h :: _ => [writeRow (fields h) (fields (x :: last_line))]
                     end, None)).
    { intros s2 He2 Hp2 Hpe2 Hf2 Hh2. unfold _flush. rewrite He2, Hp2, Hpe2.
      replace (buf_length (body ++ x :: last_line) + 1)
        with (buf_length body + buf_length (x :: last_line) + 1) by buf_idx.
      rewrite (parseLine_plain (body ++ x :: last_line) body (x :: last_line) []);
        [|by rewrite app_nil_r|by apply bare_line_plain|done].
      rewrite Hf2, Hh2, Hf. destruct lines as [|h lines]; [done|].
      by rewrite (Hhs h lines eq_refl). }
    assert (Hres : rows_of_lines (all_lines lines (x :: last_line)) =
                   rows ++ match lines with
                           | [] => []
                           | h :: _ => [writeRow (fields h) (fields (x :: last_line))]
                           end).
    { unfold all_lines. by rewrite rows_of_lines_snoc, Hrows. }
    rewrite Hres.
    destruct (_ <? _);
      change (t_flush ?s) with (_flush defaults s);
      (rewrite Hfl; [done|destruct s1; simpl in *; first [done|lia]..]).
Qed.

(** *** The same lines ended by line feeds alone *)

Lemma bare_line_no_nl l : bare_line l -> Forall (fun x => x <> nl) l.
Proof. intros Hl. eapply Forall_impl; [exact Hl|]. by intros c (? & _). Qed.

Lemma split_go_lf_lines (lines : list Buffer) : forall closed,
  Forall bare_line lines ->
  split_go nl closed [] (text_of [nl] lines []) = (closed ++ lines, []).
Proof.
  induction lines as [|line lines IH]; intros closed Hl.
  - unfold text_of. simpl. by rewrite app_nil_r.
  - apply Forall_cons in Hl as [Hline Hl].
    replace (text_of [nl] (line :: lines) []) with (line ++ nl :: text_of [nl] lines [])
      by (unfold text_of; simpl; by rewrite !app_nil_r, <- app_assoc).
    rewrite split_go_app, (split_go_segment nl line closed [] (bare_line_no_nl _ Hline)).
    simpl. rewrite IH by done. by rewrite <- app_assoc.
Qed.

Lemma text_lines_lf lines last_line :
  Forall bare_line lines -> bare_line last_line ->
  text_lines (text_of [nl] lines last_line) = all_lines lines last_line.
Proof.
  intros Hl Hlast. unfold text_lines. rewrite text_of_last, split_go_app.
  rewrite split_go_lf_lines by done. simpl.
  rewrite (split_go_segment nl last_line lines [] (bare_line_no_nl _ Hlast)).
  unfold close_lines, all_lines. simpl. destruct last_line; [|done].
  by rewrite app_nil_r.
Qed.

Lemma plain_text_of_lf lines last_line :
  Forall bare_line lines -> bare_line last_line -> plain (text_of [nl] lines last_line).
Proof.
  intros Hl Hlast. unfold text_of. apply plain_app. split; [|by apply bare_line_plain].
  apply Forall_concat, Forall_fmap. eapply Forall_impl; [exact Hl|].
  intros line Hline. simpl. apply plain_app. split; [by apply bare_line_plain|].
  by repeat constructor.
Qed.

Lemma length_text_of_le lines last_line :
  (length (text_of [nl] lines last_line) <= length (text_of [cr; nl] lines last_line))%nat.
Proof.
  unfold text_of. rewrite !length_app. apply Nat.add_le_mono_r.
  induction lines as [|line lines IH]; simpl; [done|].
  rewrite !length_app. simpl. lia.
Qed.

(** X11: line ends of Windows.  A file of at most one read block (64 KiB)
    whose lines hold no quote character and are ended by a carriage return
    and a line feed, the last one possibly not ended, loads as the records
    of its lines, and so as the same lines ended by line feeds alone. *)
Theorem crlf_file_reads_as_its_lines fs p lines last_line :
  fs !! p = Some (File true (text_of [cr; nl] lines last_line)) ->
  Forall bare_line lines -> bare_line last_line ->
  (length (text_of [cr; nl] lines last_line) <= highWaterMark)%nat ->
  load fs p = (Resolved (rows_of_lines (all_lines lines last_line)), []) /\
  forall p', fs !! p' = Some (File true (text_of [nl] lines last_line)) ->
             load fs p' = load fs p.
Proof.
  intros Hf Hl Hlast Hblock.
  assert (Hsize : forall b : Buffer, (length b <= highWaterMark)%nat ->
                                     buf_length b <= MAX_SAFE_INTEGER).
  { intros b Hb. unfold buf_length.
    apply (Z.le_trans _ (Z.of_nat highWaterMark)); [lia|by vm_compute]. }
  assert (Hload : load fs p = (Resolved (rows_of_lines (all_lines lines last_line)), [])).
  { rewrite (load_decode _ _ _ Hf).
    destruct (decide (text_of [cr; nl] lines last_line = [])) as [He|Hne].
    - rewrite He. destruct lines as [|line lines].
      + unfold text_of in He. simpl in He. by subst last_line.
      + unfold text_of in He. simpl in He. by destruct line.
    - rewrite chunks_single by done. rewrite decode_crlf; [done..|by apply Hsize]. }
  split; [done|]. intros p' Hf'. rewrite Hload.
  rewrite (load_plain _ _ _ Hf' (plain_text_of_lf _ _ Hl Hlast)).
  - unfold dataset_of. by rewrite text_lines_lf.
  - apply Hsize. pose proof (length_text_of_le lines last_line). lia.
Qed.

End Crlf.

(** *** The theorems at sample files *)

#[local] Existing Instance latest.

Lemma crlf_file_reads_as_its_lines_witness :
  win_fs !! "data/win.csv"%string
  = Some (File true (text_of [cr; nl] win_lines (bytes "3,4"))) /\
  Forall bare_line win_lines /\
  bare_line (bytes "3,4") /\
  (length (text_of [cr; nl] win_lines (bytes "3,4")) <= highWaterMark)%nat /\
  load win_fs "data/win.csv"
  = (Resolved (rows_of_lines (all_lines win_lines (bytes "3,4"))), []) /\
  forall p', win_fs !! p' = Some (File true (text_of [nl] win_lines (bytes "3,4"))) ->
             load win_fs p' = load win_fs "data/win.csv".
Proof.
  assert (Hf : win_fs !! "data/win.csv"%string
               = Some (File true (text_of [cr; nl] win_lines (bytes "3,4"))))
    by (vm_compute; reflexivity).
  assert (Hl : Forall bare_line win_lines)
    by (repeat constructor; discriminate).
  assert (Hlast : bare_line (bytes "3,4")) by (repeat constructor; discriminate).
  assert (Hb : (length (text_of [cr; nl] win_lines (bytes "3,4")) <= highWaterMark)%nat)
    by (apply Nat.leb_le; vm_compute; reflexivity).
  split; [exact Hf|]. split; [exact Hl|]. split; [exact Hlast|]. split; [exact Hb|].
  exact (crlf_file_reads_as_its_lines win_fs "data/win.csv" _ _ Hf Hl Hlast Hb).
Defined.

End CrlfFacts.

(** * Quoted cells *)

Module QuotedFacts.

Import Node CsvParser CsvText CsvLines CsvQuoted Loader CsvFacts LoaderFacts RowFacts CrlfFacts.

Ltac buf_len :=
  repeat progress (rewrite ?buf_length_app, ?buf_length_cons, ?buf_length_nil); lia.

Ltac buf_eq :=
  try subst; rewrite <- ?app_assoc; simpl; rewrite <- ?app_assoc; done.

Section Quotes.

Context {rel : release}.



(** *** [parseLine] on a line with quoted cells *)

(** Bytes that are neither a comma nor a quote, outside quotes. *)
Lemma parseLine_loop_bare (t : Buffer) : forall b pre post fuel e cells off,
  b = pre ++ t ++ post ->
  Forall (fun x => x <> comma /\ x <> dquote) t ->
  buf_length pre + buf_length t <= e ->
  parseLine_loop defaults (length t + fuel) b e (buf_length pre) false off cells =
  parseLine_loop defaults fuel b e (buf_length pre + buf_length t) false off cells.
Proof.
  induction t as [|x t IH]; intros b pre post fuel e cells off Hb Ht He.
  - by rewrite buf_length_nil, Z.add_0_r.
  - apply Forall_cons in Ht as [[Hxc Hxq] Ht].
    pose proof (buf_length_nonneg t). rewrite buf_length_cons in He.
    assert (Hget : buf_get b (buf_length pre) = Some x).
    { subst b. by rewrite buf_get_app_r. }
    simpl (length (x :: t) + fuel)%nat. cbn [parseLine_loop].
    destruct (Z.ltb_spec (buf_length pre) e); [|lia].
    cbn [quote escape separator defaults].
    rewrite Hget, (byte_is_ne x dquote Hxq), (byte_is_ne x comma Hxc). simpl.
    replace (buf_length pre + 1) with (buf_length (pre ++ [x])) by buf_len.
    rewrite (IH b (pre ++ [x]) post fuel e cells off);
      [|subst b; by rewrite <- !app_assoc|done|buf_len].
    f_equal. buf_len.
Qed.

(** Bytes other than the quote, between quotes. *)
Lemma parseLine_loop_inside (t : Buffer) : forall b pre post fuel e cells off,
  b = pre ++ t ++ post ->
  Forall (fun x => x <> dquote) t ->
  buf_length pre + buf_length t <= e ->
  parseLine_loop defaults (length t + fuel) b e (buf_length pre) true off cells =
  parseLine_loop defaults fuel b e (buf_length pre + buf_length t) true off cells.
Proof.
  induction t as [|x t IH]; intros b pre post fuel e cells off Hb Ht He.
  - by rewrite buf_length_nil, Z.add_0_r.
  - apply Forall_cons in Ht as [Hxq Ht].
    pose proof (buf_length_nonneg t). rewrite buf_length_cons in He.
    assert (Hget : buf_get b (buf_length pre) = Some x).
    { subst b. by rewrite buf_get_app_r. }
    simpl (length (x :: t) + fuel)%nat. cbn [parseLine_loop].
    destruct (Z.ltb_spec (buf_length pre) e); [|lia].
    cbn [quote escape separator defaults].
    rewrite Hget, (byte_is_ne x dquote Hxq). simpl. rewrite andb_false_r.
    replace (buf_length pre + 1) with (buf_length (pre ++ [x])) by buf_len.
    rewrite (IH b (pre ++ [x]) post fuel e cells off);
      [|subst b; by rewrite <- !app_assoc|done|buf_len].
    f_equal. buf_len.
Qed.

Lemma parseLine_loop_done fuel b e i q off cells :
  e <= i -> parseLine_loop defaults fuel b e i q off cells = (off, cells).
Proof.
  intros Hi. destruct fuel; [done|]. cbn [parseLine_loop].
  by destruct (Z.ltb_spec i e); [lia|].
Qed.

(** The quote that opens a cell. *)
Lemma parseLine_loop_open fuel b e i off cells :
  buf_get b i = Some dquote -> i < e ->
  parseLine_loop defaults (S fuel) b e i false off cells =
  parseLine_loop defaults fuel b e (i + 1) true off cells.
Proof.
  intros Hget Hi. cbn [parseLine_loop].
  destruct (Z.ltb_spec i e); [|lia].
  cbn [quote escape separator defaults]. by rewrite Hget, byte_is_refl.
Qed.

(** The quote that closes a cell, in front of a comma. *)
Lemma parseLine_loop_close fuel b e i off cells :
  buf_get b i = Some dquote -> buf_get b (i + 1) = Some comma -> i < e ->
  parseLine_loop defaults (S fuel) b e i true off cells =
  parseLine_loop defaults fuel b e (i + 1) false off cells.
Proof.
  intros Hget Hnext Hi. cbn [parseLine_loop].
  destruct (Z.ltb_spec i e); [|lia].
  cbn [quote escape separator defaults]. rewrite Hget, Hnext, !byte_is_refl.
  by destruct (Z.leb_spec (i + 1) e); [|lia].
Qed.

(** The quote that closes the last cell of the line. *)
Lemma parseLine_loop_close_last fuel b e i off cells :
  buf_get b i = Some dquote -> byte_is (buf_get b (i + 1)) comma = false -> i + 1 = e ->
  parseLine_loop defaults (S fuel) b e i true off cells =
  parseLine_loop defaults fuel b e (i + 1) true off cells.
Proof.
  intros Hget Hnext Hi. cbn [parseLine_loop].
  destruct (Z.ltb_spec i e); [|lia].
  cbn [quote escape separator defaults]. rewrite Hget, Hnext, !byte_is_refl.
  destruct (Z.ltb_spec (i + 1) e); [lia|]. simpl.
  by rewrite andb_false_r.
Qed.

(** A comma outside quotes ends a cell. *)
Lemma parseLine_loop_comma fuel b e i off cells :
  buf_get b i = Some comma -> i < e ->
  parseLine_loop defaults (S fuel) b e i false off cells =
  parseLine_loop defaults fuel b e (i + 1) false (i + 1)
    (cells ++ [parseCell defaults b off i]).
Proof.
  intros Hget Hi. cbn [parseLine_loop].
  destruct (Z.ltb_spec i e); [|lia].
  cbn [quote escape separator defaults]. by rewrite Hget.
Qed.

Lemma cell_bytes_no_quote_inside t :
  Forall (fun x => x <> nl /\ x <> cr /\ x <> dquote) t -> Forall (fun x => x <> dquote) t.
Proof. intros Ht. eapply Forall_impl; [exact Ht|]. by intros x (_ & _ & ?). Qed.

(** A cell in front of a comma is passed, and the loop is outside quotes
    again. *)
Lemma parseLine_loop_cell c b pre post fuel e cells off :
  b = pre ++ cell_bytes c ++ comma :: post ->
  cell_ok c ->
  buf_length pre + buf_length (cell_bytes c) < e ->
  parseLine_loop defaults (length (cell_bytes c) + fuel) b e (buf_length pre) false off cells
  = parseLine_loop defaults fuel b e (buf_length pre + buf_length (cell_bytes c)) false
      off cells.
Proof.
  intros Hb Hc He. destruct c as [t|t]; cbn [cell_bytes cell_ok] in *.
  - apply (parseLine_loop_bare t b pre (comma :: post)); [done| |lia].
    eapply Forall_impl; [exact Hc|]. by intros x (? & _ & _ & ?).
  - destruct Hc as [Hne Ht]. pose proof (buf_length_nonneg pre).
    pose proof (buf_length_nonneg t).
    rewrite buf_length_cons, buf_length_app, buf_length_cons, buf_length_nil in *.
    replace (length (dquote :: t ++ [dquote]) + fuel)%nat with (S (length t + S fuel))
      by (simpl; rewrite length_app; simpl; lia).
    rewrite parseLine_loop_open;
      [|subst b; by rewrite buf_get_app_r|lia].
    replace (buf_length pre + 1) with (buf_length (pre ++ [dquote])) by buf_len.
    rewrite (parseLine_loop_inside t b (pre ++ [dquote]) (dquote :: comma :: post));
      [|buf_eq|by apply cell_bytes_no_quote_inside|buf_len].
    rewrite parseLine_loop_close; [f_equal; buf_len|subst b..|buf_len].
    + replace (buf_length (pre ++ [dquote]) + buf_length t)
        with (buf_length (pre ++ dquote :: t)) by buf_len.
      replace (pre ++ (dquote :: t ++ [dquote]) ++ comma :: post)
        with ((pre ++ dquote :: t) ++ dquote :: comma :: post)
        by buf_eq.
      by rewrite buf_get_app_r.
    + replace (buf_length (pre ++ [dquote]) + buf_length t + 1)
        with (buf_length (pre ++ dquote :: t ++ [dquote])) by buf_len.
      replace (pre ++ (dquote :: t ++ [dquote]) ++ comma :: post)
        with ((pre ++ dquote :: t ++ [dquote]) ++ comma :: post)
        by buf_eq.
      by rewrite buf_get_app_r.
Qed.

(** The last cell of the line is passed up to the end of the line. *)
Lemma parseLine_loop_last_cell c b pre post fuel e cells off :
  b = pre ++ cell_bytes c ++ post ->
  cell_ok c ->
  byte_is (head post) comma = false ->
  e = buf_length pre + buf_length (cell_bytes c) ->
  parseLine_loop defaults (length (cell_bytes c) + fuel) b e (buf_length pre) false off cells
  = (off, cells).
Proof.
  intros Hb Hc Hpost ->. destruct c as [t|t]; cbn [cell_bytes cell_ok] in *.
  - rewrite (parseLine_loop_bare t b pre post); [|done| |lia].
    + by apply parseLine_loop_done.
    + eapply Forall_impl; [exact Hc|]. by intros x (? & _ & _ & ?).
  - destruct Hc as [Hne Ht]. pose proof (buf_length_nonneg pre).
    pose proof (buf_length_nonneg t).
    rewrite buf_length_cons, buf_length_app, buf_length_cons, buf_length_nil in *.
    replace (length (dquote :: t ++ [dquote]) + fuel)%nat with (S (length t + S fuel))
      by (simpl; rewrite length_app; simpl; lia).
    rewrite parseLine_loop_open;
      [|subst b; by rewrite buf_get_app_r|lia].
    replace (buf_length pre + 1) with (buf_length (pre ++ [dquote])) by buf_len.
    rewrite (parseLine_loop_inside t b (pre ++ [dquote]) (dquote :: post));
      [|buf_eq|by apply cell_bytes_no_quote_inside|buf_len].
    rewrite parseLine_loop_close_last; [apply parseLine_loop_done; buf_len|subst b..|buf_len].
    + replace (buf_length (pre ++ [dquote]) + buf_length t)
        with (buf_length (pre ++ dquote :: t)) by buf_len.
      replace (pre ++ (dquote :: t ++ [dquote]) ++ post)
        with ((pre ++ dquote :: t) ++ dquote :: post)
        by buf_eq.
      by rewrite buf_get_app_r.
    + replace (buf_length (pre ++ [dquote]) + buf_length t + 1)
        with (buf_length (pre ++ dquote :: t ++ [dquote])) by buf_len.
      replace (pre ++ (dquote :: t ++ [dquote]) ++ post)
        with ((pre ++ dquote :: t ++ [dquote]) ++ post)
        by buf_eq.
      by rewrite buf_get_app_r.
Qed.

(** [parseCell] gives the text of a cell, without its quotes. *)
Lemma parseCell_cell c (pre post : Buffer) :
  cell_ok c ->
  (c = Bare [] -> byte_is (head post) dquote = false) ->
  parseCell defaults (pre ++ cell_bytes c ++ post) (buf_length pre)
    (buf_length pre + buf_length (cell_bytes c))
  = buf_toString (cell_text c).
Proof.
  intros Hc Hpost. destruct c as [t|t]; cbn [cell_bytes cell_text cell_ok] in *.
  - apply parseCell_plain.
    + eapply Forall_impl; [exact Hc|]. by intros x (_ & _ & _ & ?).
    + intros ->. by apply Hpost.
  - destruct Hc as [Hne Ht]. unfold parseCell.
    pose proof (buf_length_nonneg pre). pose proof (buf_length_nonneg t).
    assert (Hs : buf_get (pre ++ (dquote :: t ++ [dquote]) ++ post) (buf_length pre)
                 = Some dquote) by by rewrite buf_get_app_r.
    assert (He : buf_get (pre ++ (dquote :: t ++ [dquote]) ++ post)
                   (buf_length pre + buf_length (dquote :: t ++ [dquote]) - 1)
                 = Some dquote).
    { replace (buf_length pre + buf_length (dquote :: t ++ [dquote]) - 1)
        with (buf_length (pre ++ dquote :: t)) by buf_len.
      replace (pre ++ (dquote :: t ++ [dquote]) ++ post)
        with ((pre ++ dquote :: t) ++ dquote :: post)
        by buf_eq.
      by rewrite buf_get_app_r. }
    cbn [quote escape separator defaults]. rewrite Hs, He, byte_is_refl. simpl andb.
    cbv iota.
    replace (pre ++ (dquote :: t ++ [dquote]) ++ post)
      with ((pre ++ [dquote]) ++ t ++ ([dquote] ++ post))
      by buf_eq.
    replace (buf_length pre + 1) with (buf_length (pre ++ [dquote])) by buf_len.
    replace (buf_length pre + buf_length (dquote :: t ++ [dquote]) - 1)
      with (buf_length (pre ++ [dquote]) + buf_length t) by buf_len.
    rewrite (parseCell_loop_plain t (pre ++ [dquote]) ([dquote] ++ post) []);
      [done|by apply cell_bytes_no_quote_inside|unfold buf_length; lia].
Qed.

Lemma line_bytes_cons c (cells : list cell) :
  cells <> [] -> line_bytes (c :: cells) = cell_bytes c ++ comma :: line_bytes cells.
Proof. intros Hne. unfold line_bytes. by destruct cells. Qed.

(** The loop of [parseLine] over a line: it leaves the offset of the last
    cell and the texts of the cells before it. *)
Lemma parseLine_loop_cells (init : list cell) : forall c b pre post fuel e acc,
  b = pre ++ line_bytes (init ++ [c]) ++ post ->
  Forall cell_ok (init ++ [c]) ->
  byte_is (head post) comma = false ->
  e = buf_length pre + buf_length (line_bytes (init ++ [c])) ->
  parseLine_loop defaults (length (line_bytes (init ++ [c])) + fuel) b e
    (buf_length pre) false (buf_length pre) acc
  = (e - buf_length (cell_bytes c), acc ++ line_texts init).
Proof.
  induction init as [|c1 init IH]; intros c b pre post fuel e acc Hb Hok Hpost He.
  - simpl app in *. change (line_bytes [c]) with (cell_bytes c) in *.
    apply Forall_cons in Hok as [Hc _].
    rewrite (parseLine_loop_last_cell c b pre post); [|done..].
    rewrite app_nil_r. f_equal. lia.
  - simpl app in *. apply Forall_cons in Hok as [Hc1 Hok].
    assert (Hne : init ++ [c] <> []) by (by destruct init).
    rewrite (line_bytes_cons c1 _ Hne) in *.
    pose proof (buf_length_nonneg pre). pose proof (buf_length_nonneg (cell_bytes c1)).
    pose proof (buf_length_nonneg (line_bytes (init ++ [c]))).
    pose proof (buf_length_nonneg (cell_bytes c)).
    replace (length (cell_bytes c1 ++ comma :: line_bytes (init ++ [c])) + fuel)%nat
      with (length (cell_bytes c1) + S (length (line_bytes (init ++ [c])) + fuel))%nat
      by (rewrite length_app; simpl; lia).
    rewrite (parseLine_loop_cell c1 b pre (line_bytes (init ++ [c]) ++ post));
      [|buf_eq|done|subst e; buf_len].
    rewrite parseLine_loop_comma; [|subst b|subst e; buf_len].
    2:{ rewrite <- buf_length_app.
        replace (pre ++ (cell_bytes c1 ++ comma :: line_bytes (init ++ [c])) ++ post)
          with ((pre ++ cell_bytes c1) ++ comma :: line_bytes (init ++ [c]) ++ post)
          by buf_eq.
        by rewrite buf_get_app_r. }
    assert (Hcell : parseCell defaults b (buf_length pre)
                      (buf_length pre + buf_length (cell_bytes c1))
                    = buf_toString (cell_text c1)).
    { subst b.
      replace (pre ++ (cell_bytes c1 ++ comma :: line_bytes (init ++ [c])) ++ post)
        with (pre ++ cell_bytes c1 ++ (comma :: line_bytes (init ++ [c]) ++ post))
        by buf_eq.
      by apply parseCell_cell. }
    rewrite Hcell.
    replace (buf_length pre + buf_length (cell_bytes c1) + 1)
      with (buf_length (pre ++ cell_bytes c1 ++ [comma])) by buf_len.
    rewrite (IH c b (pre ++ cell_bytes c1 ++ [comma]) post fuel e);
      [|buf_eq|done|done|subst e; buf_len].
    f_equal. unfold line_texts. simpl. by rewrite <- app_assoc.
Qed.

Lemma cell_bytes_one_line c :
  cell_ok c -> Forall (fun x => x <> nl /\ x <> cr) (cell_bytes c).
Proof.
  destruct c as [t|t]; simpl.
  - intros Ht. eapply Forall_impl; [exact Ht|]. by intros x (_ & ? & ? & _).
  - intros [_ Ht]. constructor; [done|]. apply Forall_app. split; [|by repeat constructor].
    eapply Forall_impl; [exact Ht|]. by intros x (? & ? & _).
Qed.

Lemma line_bytes_one_line cells :
  Forall cell_ok cells -> Forall (fun x => x <> nl /\ x <> cr) (line_bytes cells).
Proof.
  intros Hok. apply join_Forall; [done|]. apply Forall_fmap.
  eapply Forall_impl; [exact Hok|]. intros c. apply cell_bytes_one_line.
Qed.

Lemma cell_bytes_last c x :
  cell_ok c -> last (cell_bytes c) = Some x -> x <> comma.
Proof.
  destruct c as [t|t]; simpl.
  - intros Ht Hl. by destruct (last_Forall _ _ _ Ht Hl) as (? & _).
  - intros _. rewrite app_comm_cons, last_snoc. by intros [= <-].
Qed.

Lemma line_bytes_snoc init c :
  init <> [] -> line_bytes (init ++ [c]) = line_bytes init ++ comma :: cell_bytes c.
Proof.
  intros Hne. unfold line_bytes. rewrite map_app. simpl.
  apply join_snoc. by destruct init.
Qed.

(** [parseLine] on a line of cells, bare or quoted: its cells are the texts
    of the cells. *)
Lemma parseLine_quoted (b pre post : Buffer) cells s :
  b = pre ++ line_bytes cells ++ post ->
  line_ok cells ->
  byte_is (head post) comma = false ->
  line_start pre ->
  parseLine defaults b (buf_length pre) (buf_length pre + buf_length (line_bytes cells) + 1) s
  = if first s
    then (set_headers (line_texts cells) (set_lineNumber (lineNumber s + 1) s), [])
    else (set_lineNumber (lineNumber s + 1) s, [writeRow (headers s) (line_texts cells)]).
Proof.
  intros Hb [Hok Hne] Hpost Hls.
  pose proof (line_bytes_one_line cells Hok) as Hline.
  destruct (line_start_bytes pre Hls) as [Hpcr Hpco].
  assert (Hlast : buf_get b (buf_length pre + buf_length (line_bytes cells) - 1)
                  = last (pre ++ line_bytes cells)).
  { subst b. rewrite <- buf_length_app, app_assoc. apply buf_get_pred. }
  assert (Hcr : byte_is (last (pre ++ line_bytes cells)) cr = false).
  { rewrite last_app. destruct (last (line_bytes cells)) as [x|] eqn:Hl; [|done].
    apply byte_is_ne. by destruct (last_Forall _ _ _ Hline Hl). }
  unfold parseLine.
  replace (buf_length pre + buf_length (line_bytes cells) + 1 - 1)
    with (buf_length pre + buf_length (line_bytes cells)) by lia.
  rewrite Hlast, Hcr, andb_false_r.
  assert (Hfirst : first (set_lineNumber (lineNumber s + 1) s) = first s) by done.
  assert (Hhs : headers (set_lineNumber (lineNumber s + 1) s) = headers s) by done.
  assert (Hcells :
    (let '(offset, cells0) :=
       parseLine_loop defaults
         (Z.to_nat (buf_length pre + buf_length (line_bytes cells) - buf_length pre)) b
         (buf_length pre + buf_length (line_bytes cells)) (buf_length pre) false
         (buf_length pre) [] in
     let cells1 :=
       if offset <? buf_length pre + buf_length (line_bytes cells)
       then cells0 ++
            [parseCell defaults b offset (buf_length pre + buf_length (line_bytes cells))]
       else cells0 in
     if byte_is (last (pre ++ line_bytes cells)) (separator defaults)
     then cells1 ++ [""%string] else cells1) = line_texts cells).
  { destruct cells as [|c init _] using rev_ind.
    - change (line_bytes []) with (@nil ascii) in *.
      rewrite buf_length_nil, Z.add_0_r, Z.sub_diag, app_nil_r. simpl.
      rewrite Z.ltb_irrefl. cbn [separator defaults]. by rewrite Hpco.
    - replace (Z.to_nat (buf_length pre + buf_length (line_bytes (init ++ [c]))
                         - buf_length pre))
        with (length (line_bytes (init ++ [c])) + 0)%nat by (unfold buf_length; lia).
      apply Forall_app in Hok as [Hinit Hc]. apply Forall_cons in Hc as [Hc _].
      rewrite (parseLine_loop_cells init c b pre post 0 _ []);
        [|done|by apply Forall_app; split; [|constructor]|done|done].
      pose proof (buf_length_nonneg (cell_bytes c)).
      cbn [separator defaults]. simpl app.
      destruct (cell_bytes c) as [|y bytes] eqn:Hbytes.
      + assert (Hcb : c = Bare []) by (by destruct c as [[|]|]).
        subst c. rewrite buf_length_nil, Z.sub_0_r, Z.ltb_irrefl.
        assert (Hinit' : init <> []) by (intros ->; by apply Hne).
        rewrite (line_bytes_snoc init _ Hinit'). simpl cell_bytes.
        rewrite app_assoc, last_snoc, byte_is_refl.
        unfold line_texts. by rewrite map_app.
      + assert (Hpos : 0 < buf_length (cell_bytes c)).
        { rewrite Hbytes, buf_length_cons. pose proof (buf_length_nonneg bytes). lia. }
        rewrite <- Hbytes in *. clear Hbytes.
        destruct (Z.ltb_spec
                    (buf_length pre + buf_length (line_bytes (init ++ [c]))
                     - buf_length (cell_bytes c))
                    (buf_length pre + buf_length (line_bytes (init ++ [c])))); [|lia].
        assert (Hsplit : exists pre', line_bytes (init ++ [c]) = pre' ++ cell_bytes c).
        { destruct init as [|c0 init].
          - by exists [].
          - exists (line_bytes (c0 :: init) ++ [comma]).
            rewrite line_bytes_snoc by done. by rewrite <- app_assoc. }
        destruct Hsplit as (pre' & Hsplit).
        assert (Hcell : parseCell defaults b
                          (buf_length pre + buf_length (line_bytes (init ++ [c]))
                           - buf_length (cell_bytes c))
                          (buf_length pre + buf_length (line_bytes (init ++ [c])))
                        = buf_toString (cell_text c)).
        { subst b. rewrite Hsplit.
          replace (buf_length pre + buf_length (pre' ++ cell_bytes c)
                   - buf_length (cell_bytes c)) with (buf_length (pre ++ pre')) by buf_len.
          replace (buf_length pre + buf_length (pre' ++ cell_bytes c))
            with (buf_length (pre ++ pre') + buf_length (cell_bytes c)) by buf_len.
          replace (pre ++ (pre' ++ cell_bytes c) ++ post)
            with ((pre ++ pre') ++ cell_bytes c ++ post) by buf_eq.
          apply parseCell_cell; [done|]. intros ->. by simpl in Hpos. }
        rewrite Hcell.
        assert (Hnoc : byte_is (last (pre ++ line_bytes (init ++ [c]))) comma = false).
        { rewrite Hsplit, app_assoc, last_app.
          destruct (last (cell_bytes c)) as [z|] eqn:Hz.
          - apply byte_is_ne. by apply (cell_bytes_last c).
          - apply last_None in Hz. rewrite Hz in Hpos. by simpl in Hpos. }
        rewrite Hnoc. unfold line_texts. by rewrite map_app. }
  destruct (parseLine_loop _ _ _ _ _ _ _ _) as [offset cells0].
  rewrite Hfirst, Hhs. rewrite ?Hlast. cbv zeta in Hcells. by rewrite Hcells.
Qed.

(** *** [_transform] on lines with quoted cells *)

(** A quote character that is not followed by another one opens or closes a
    quoted cell. *)
Lemma transform_loop_quote fuel b start i s out :
  buf_get b i = Some dquote -> 0 <= i < buf_length b ->
  byte_is (if i + 1 <? buf_length b then buf_get b (i + 1) else None) dquote = false ->
  escaped s = false ->
  rowLength s + 1 <= MAX_SAFE_INTEGER ->
  transform_loop defaults (S fuel) b start i s out =
  transform_loop defaults fuel b start (i + 1)
    (set_quoted (negb (quoted s)) (set_rowLength (rowLength s + 1) s)) out.
Proof.
  intros Hget Hi Hnext He Hmax.
  assert (Hlen : (i <? buf_length b) = true) by (apply Z.ltb_lt; lia).
  rewrite transform_loop_S, Hlen. cbv zeta. rewrite Hget, !byte_is_Some.
  destruct s as [esc fst ln pe rl q pv hs nlc]. simpl in He, Hmax. subst esc.
  unfold set_rowLength. cbn [rowLength escaped first lineNumber previousEnd quoted prev
                             headers cur_newline maxRowBytes escape quote defaults].
  destruct (Z.gtb_spec (rl + 1) MAX_SAFE_INTEGER) as [?|_]; [lia|].
  rewrite Hnext, Ascii.eqb_refl. by rewrite andb_false_r.
Qed.

(** Between quotes, bytes other than the quote only make the row longer. *)
Lemma transform_loop_inside (t : Buffer) : forall b pre post fuel start s out,
  b = pre ++ t ++ post ->
  Forall (fun x => x <> dquote) t ->
  escaped s = false -> quoted s = true ->
  rowLength s + buf_length t <= MAX_SAFE_INTEGER ->
  transform_loop defaults (length t + fuel) b start (buf_length pre) s out =
  transform_loop defaults fuel b start (buf_length pre + buf_length t)
    (set_rowLength (rowLength s + buf_length t) s) out.
Proof.
  induction t as [|x t IH]; intros b pre post fuel start s out Hb Ht He Hq Hmax.
  - rewrite buf_length_nil, !Z.add_0_r. simpl. by destruct s.
  - apply Forall_cons in Ht as [Hxq Ht].
    pose proof (buf_length_nonneg t). rewrite buf_length_cons in Hmax.
    assert (Hlen : (buf_length pre <? buf_length b) = true).
    { apply Z.ltb_lt. subst b. pose proof (buf_length_nonneg post). buf_len. }
    assert (Hget : buf_get b (buf_length pre) = Some x).
    { subst b. by rewrite buf_get_app_r. }
    assert (Hxq' : Ascii.eqb x dquote = false) by by apply Ascii.eqb_neq.
    simpl (length (x :: t) + fuel)%nat. rewrite transform_loop_S, Hlen. cbv zeta.
    rewrite Hget, !byte_is_Some.
    destruct s as [esc fst ln pe rl q pv hs nlc]. simpl in He, Hq, Hmax. subst esc q.
    unfold set_rowLength.
    cbn [rowLength escaped first lineNumber previousEnd quoted prev headers cur_newline
         maxRowBytes escape quote defaults].
    destruct (Z.gtb_spec (rl + 1) MAX_SAFE_INTEGER) as [?|_]; [lia|].
    rewrite Hxq'. cbn [negb andb].
    replace (buf_length pre + 1) with (buf_length (pre ++ [x])) by buf_len.
    rewrite (IH b (pre ++ [x]) post fuel start _ out); [|buf_eq|done|done|done|simpl; lia].
    unfold set_rowLength. simpl. f_equal; [buf_len|]. f_equal. buf_len.
Qed.

Lemma cell_bytes_bare_line t :
  Forall (fun x => x <> comma /\ x <> nl /\ x <> cr /\ x <> dquote) t -> bare_line t.
Proof. intros Ht. eapply Forall_impl; [exact Ht|]. by intros x (_ & ? & ? & ?). Qed.

(** A whole cell makes the row longer by its bytes and leaves the parser
    outside quotes. *)
Lemma transform_loop_cell c b pre post fuel start s out :
  b = pre ++ cell_bytes c ++ post ->
  cell_ok c ->
  byte_is (head post) dquote = false ->
  escaped s = false -> quoted s = false -> cur_newline s = nl ->
  rowLength s + buf_length (cell_bytes c) <= MAX_SAFE_INTEGER ->
  transform_loop defaults (length (cell_bytes c) + fuel) b start (buf_length pre) s out =
  transform_loop defaults fuel b start (buf_length pre + buf_length (cell_bytes c))
    (set_rowLength (rowLength s + buf_length (cell_bytes c)) s) out.
Proof.
  intros Hb Hc Hpost He Hq Hn Hmax. destruct c as [t|t]; cbn [cell_bytes cell_ok] in *.
  - apply (transform_loop_bare t b pre post); try done. by apply cell_bytes_bare_line.
  - destruct Hc as [Hne Ht]. pose proof (buf_length_nonneg pre).
    pose proof (buf_length_nonneg t). pose proof (buf_length_nonneg post).
    rewrite buf_length_cons, buf_length_app, buf_length_cons, buf_length_nil in *.
    assert (Hlenb : buf_length b = buf_length pre + (buf_length t + 2) + buf_length post).
    { subst b. buf_len. }
    replace (length (dquote :: t ++ [dquote]) + fuel)%nat with (S (length t + S fuel))
      by (simpl; rewrite length_app; simpl; lia).
    rewrite transform_loop_quote; [|subst b; by rewrite buf_get_app_r|lia| |done|lia].
    2:{ destruct (Z.ltb_spec (buf_length pre + 1) (buf_length b)); [|done].
        replace (buf_length pre + 1) with (buf_length (pre ++ [dquote])) by buf_len.
        replace b with ((pre ++ [dquote]) ++ t ++ dquote :: post) by buf_eq.
        rewrite buf_get_app_r. destruct t as [|x t]; [done|].
        apply Forall_cons in Ht as [(_ & _ & Hx) _]. simpl. by apply Ascii.eqb_neq. }
    replace (buf_length pre + 1) with (buf_length (pre ++ [dquote])) by buf_len.
    rewrite (transform_loop_inside t b (pre ++ [dquote]) (dquote :: post));
      [|buf_eq|by apply cell_bytes_no_quote_inside|by destruct s
       |destruct s; simpl in *; by subst|destruct s; simpl in *; lia].
    rewrite transform_loop_quote;
      [|subst b|buf_len| |by destruct s|destruct s; simpl in *; lia].
    + destruct s as [esc fst ln pe rl q pv hs nlc]. simpl in He, Hq. subst esc q.
      unfold set_rowLength, set_quoted. simpl. f_equal; [buf_len|]. f_equal. lia.
    + replace (buf_length (pre ++ [dquote]) + buf_length t)
        with (buf_length (pre ++ dquote :: t)) by buf_len.
      replace (pre ++ (dquote :: t ++ [dquote]) ++ post)
        with ((pre ++ dquote :: t) ++ dquote :: post) by buf_eq.
      by rewrite buf_get_app_r.
    + destruct (Z.ltb_spec (buf_length (pre ++ [dquote]) + buf_length t + 1)
                  (buf_length b)); [|done].
      replace (buf_length (pre ++ [dquote]) + buf_length t + 1)
        with (buf_length (pre ++ dquote :: t ++ [dquote])) by buf_len.
      replace b with ((pre ++ dquote :: t ++ [dquote]) ++ post) by buf_eq.
      by rewrite buf_get_app_r.
Qed.

Lemma set_rowLength_twice n m s : set_rowLength n (set_rowLength m s) = set_rowLength n s.
Proof. by destruct s. Qed.

(** The cells of a line, joined by commas. *)
Lemma transform_loop_cells (cells : list cell) : forall b pre post fuel start s out,
  b = pre ++ line_bytes cells ++ post ->
  Forall cell_ok cells ->
  byte_is (head post) dquote = false ->
  escaped s = false -> quoted s = false -> cur_newline s = nl ->
  rowLength s + buf_length (line_bytes cells) <= MAX_SAFE_INTEGER ->
  transform_loop defaults (length (line_bytes cells) + fuel) b start (buf_length pre) s out =
  transform_loop defaults fuel b start (buf_length pre + buf_length (line_bytes cells))
    (set_rowLength (rowLength s + buf_length (line_bytes cells)) s) out.
Proof.
  induction cells as [|c cells IH]; intros b pre post fuel start s out Hb Hok Hpost He Hq Hn Hmax.
  - change (line_bytes []) with (@nil ascii). rewrite buf_length_nil, !Z.add_0_r.
    simpl. by destruct s.
  - apply Forall_cons in Hok as [Hc Hok].
    destruct (decide (cells = [])) as [->|Hne].
    + change (line_bytes [c]) with (cell_bytes c) in *.
      by apply (transform_loop_cell c b pre post).
    + rewrite (line_bytes_cons c cells Hne) in *.
      pose proof (buf_length_nonneg (cell_bytes c)).
      pose proof (buf_length_nonneg (line_bytes cells)).
      rewrite buf_length_app, buf_length_cons in Hmax.
      replace (length (cell_bytes c ++ comma :: line_bytes cells) + fuel)%nat
        with (length (cell_bytes c) + (length [comma] + (length (line_bytes cells) + fuel)))%nat
        by (rewrite length_app; simpl; lia).
      rewrite (transform_loop_cell c b pre (comma :: line_bytes cells ++ post));
        [|buf_eq|done|done|done|done|done|lia].
      replace (buf_length pre + buf_length (cell_bytes c))
        with (buf_length (pre ++ cell_bytes c)) by buf_len.
      rewrite (transform_loop_bare [comma] b (pre ++ cell_bytes c) (line_bytes cells ++ post));
        [|buf_eq|by repeat constructor|by destruct s..|destruct s; simpl in *; buf_len].
      replace (buf_length (pre ++ cell_bytes c) + buf_length [comma])
        with (buf_length (pre ++ cell_bytes c ++ [comma])) by buf_len.
      rewrite (IH b (pre ++ cell_bytes c ++ [comma]) post);
        [|buf_eq|done|done|by destruct s..|destruct s; simpl in *; buf_len].
      rewrite !set_rowLength_twice. f_equal; [buf_len|].
      destruct s; simpl. f_equal. buf_len.
Qed.

(** One line ended by a line feed: the first one sets the headers, every
    other one gives the record of the texts of its cells. *)
Lemma transform_loop_quoted_line b p0 cells post fuel start s out header :
  b = p0 ++ line_bytes cells ++ [nl] ++ post ->
  line_ok cells ->
  line_start_state s p0 header ->
  line_start p0 ->
  buf_length b <= MAX_SAFE_INTEGER ->
  exists s',
    transform_loop defaults (length (line_bytes cells) + (1 + fuel)) b start
      (buf_length p0) s out =
    transform_loop defaults fuel b start (buf_length (p0 ++ line_bytes cells ++ [nl])) s'
      (out ++ match header with
              | None => []
              | Some hs => [writeRow hs (line_texts cells)]
              end) /\
    line_start_state s' (p0 ++ line_bytes cells ++ [nl])
      (Some (match header with None => line_texts cells | Some hs => hs end)).
Proof.
  intros Hb Hline (He & Hq & Hn & Hpv & Hf & Hhs & Hpe & Hrl) Hls Hmax.
  pose proof (buf_length_nonneg p0). pose proof (buf_length_nonneg (line_bytes cells)).
  pose proof (buf_length_nonneg post).
  assert (Hlenb : buf_length b
                  = buf_length p0 + buf_length (line_bytes cells) + 1 + buf_length post).
  { subst b. buf_len. }
  destruct s as [esc fst ln pe rl q pv hs nlc]. simpl in He, Hq, Hn, Hpv, Hf, Hpe, Hrl.
  subst esc q nlc pv pe rl. simpl in Hhs.
  rewrite (transform_loop_cells cells b p0 ([nl] ++ post));
    [|done|by destruct Hline|done|done|done|done|simpl; lia].
  change (1 + fuel)%nat with (S fuel). st_simpl.
  rewrite transform_loop_nl; [|subst b|lia|done|done|done|st_simpl; lia].
  2:{ by rewrite <- buf_length_app, app_assoc, buf_get_app_r. }
  st_simpl.
  rewrite (parseLine_quoted b p0 (nl :: post) cells); [|by subst b|done|done|done].
  st_simpl.
  replace (buf_length (p0 ++ line_bytes cells ++ [nl]))
    with (buf_length p0 + buf_length (line_bytes cells) + 1) by buf_len.
  destruct header as [hs0|]; subst fst; st_simpl.
  - rewrite (Hhs hs0 eq_refl).
    eexists. split; [done|]. repeat split; try done.
    + by intros hs' [= <-].
    + simpl. buf_len.
  - eexists. split; [done|]. repeat split; try done.
    + by intros hs' [= <-].
    + simpl. buf_len.
Qed.

Lemma table_bytes_cons cells table :
  table_bytes (cells :: table) = line_bytes cells ++ [nl] ++ table_bytes table.
Proof. unfold table_bytes. simpl. by rewrite <- app_assoc. Qed.

(** All the lines of a table. *)
Lemma transform_loop_table (table : list (list cell)) :
  forall b p0 post fuel start s out header,
  b = p0 ++ table_bytes table ++ post ->
  Forall line_ok table ->
  line_start_state s p0 header ->
  line_start p0 ->
  buf_length b <= MAX_SAFE_INTEGER ->
  exists s' header',
    transform_loop defaults (length (table_bytes table) + fuel) b start (buf_length p0) s out
    = transform_loop defaults fuel b start (buf_length (p0 ++ table_bytes table)) s'
        (out ++ records_under header table) /\
    line_start_state s' (p0 ++ table_bytes table) header'.
Proof.
  induction table as [|cells table IH];
    intros b p0 post fuel start s out header Hb Hok Hs Hls Hmax.
  - exists s, header. change (table_bytes []) with (@nil ascii).
    rewrite !app_nil_r. simpl. by destruct header; rewrite app_nil_r.
  - apply Forall_cons in Hok as [Hline Hok]. rewrite table_bytes_cons in *.
    replace (length (line_bytes cells ++ [nl] ++ table_bytes table) + fuel)%nat
      with (length (line_bytes cells) + (1 + (length (table_bytes table) + fuel)))%nat
      by (rewrite !length_app; simpl; lia).
    destruct (transform_loop_quoted_line b p0 cells (table_bytes table ++ post)
                (length (table_bytes table) + fuel) start s out header)
      as (s1 & Hloop1 & Hs1); [buf_eq|done..|].
    rewrite Hloop1.
    destruct (IH b (p0 ++ line_bytes cells ++ [nl]) post fuel start s1
                (out ++ match header with
                        | None => []
                        | Some hs => [writeRow hs (line_texts cells)]
                        end)
                (Some (match header with None => line_texts cells | Some hs => hs end)))
      as (s2 & header2 & Hloop2 & Hs2); [buf_eq|done|done| |done|].
    { replace (p0 ++ line_bytes cells ++ [nl]) with ((p0 ++ line_bytes cells) ++ [nl])
        by buf_eq.
      apply line_start_snoc. }
    rewrite Hloop2. exists s2, header2.
    replace (p0 ++ line_bytes cells ++ [nl] ++ table_bytes table)
      with ((p0 ++ line_bytes cells ++ [nl]) ++ table_bytes table) by buf_eq.
    split; [|done]. f_equal. rewrite <- app_assoc. f_equal.
    by destruct header.
Qed.

(** A table that arrives in one chunk. *)
Lemma decode_table header rows :
  Forall line_ok (header :: rows) ->
  buf_length (table_bytes (header :: rows)) <= MAX_SAFE_INTEGER ->
  decode defaults [table_bytes (header :: rows)]
  = (map (fun cells => writeRow (line_texts header) (line_texts cells)) rows, None).
Proof.
  intros Hok Hmax.
  set (content := table_bytes (header :: rows)) in *.
  assert (Hs0 : line_start_state (set_prev None (new_state defaults)) [] None) by done.
  destruct (transform_loop_table (header :: rows) content [] [] 0 0
              (set_prev None (new_state defaults)) [] None)
    as (s1 & header1 & Hloop & Hs1);
    [by rewrite app_nil_r|done|done|by left|done|].
  simpl app in Hloop, Hs1. fold content in Hloop, Hs1.
  destruct Hs1 as (He & Hq & Hn & Hpv & Hf & Hhs & Hpe & Hrl).
  assert (Ht : transform_loop defaults (Z.to_nat (buf_length content - 0)) content 0 0
                 (set_prev None (new_state defaults)) []
               = (s1, records_under None (header :: rows), None)).
  { replace (Z.to_nat (buf_length content - 0)) with (length content + 0)%nat
      by (unfold buf_length; lia).
    exact Hloop. }
  unfold decode. cbn [feed].
  change (t_transform (new_state defaults) content)
    with (_transform defaults (new_state defaults) content).
  unfold _transform. cbn [prev new_state]. rewrite Ht, Hpe, Z.eqb_refl.
  change (t_flush ?s) with (_flush defaults s). unfold _flush.
  destruct s1; simpl in *. subst. simpl. by rewrite app_nil_r.
Qed.

(** X13: quoted cells.  A file of at most one read block (64 KiB) whose
    lines are ended by line feeds and made of cells joined by commas, each
    cell written as it stands or between quote characters (then it may hold
    commas), loads as the records of the texts of the cells: the quotes are
    removed and the commas between them do not split the cell. *)
Theorem quoted_cells_are_read_without_quotes fs p header rows :
  fs !! p = Some (File true (table_bytes (header :: rows))) ->
  Forall line_ok (header :: rows) ->
  (length (table_bytes (header :: rows)) <= highWaterMark)%nat ->
  load fs p
  = (Resolved (map (fun cells => writeRow (line_texts header) (line_texts cells)) rows), []).
Proof.
  intros Hf Hok Hblock. rewrite (load_decode _ _ _ Hf).
  rewrite chunks_single; [|by rewrite table_bytes_cons; destruct (line_bytes header)|done].
  rewrite decode_table; [done|done|].
  unfold buf_length. apply (Z.le_trans _ (Z.of_nat highWaterMark)); [lia|by vm_compute].
Qed.

End Quotes.

(** *** The theorems at sample files *)

#[local] Existing Instance latest.

Lemma quoted_cells_are_read_without_quotes_witness :
  cells_fs !! "data/cells.csv"%string
  = Some (File true (table_bytes (cells_header :: cells_rows))) /\
  Forall line_ok (cells_header :: cells_rows) /\
  (length (table_bytes (cells_header :: cells_rows)) <= highWaterMark)%nat /\
  load cells_fs "data/cells.csv"
  = (Resolved (map (fun cells => writeRow (line_texts cells_header) (line_texts cells))
                 cells_rows), []) /\
  map (fun cells => writeRow (line_texts cells_header) (line_texts cells)) cells_rows
  = cells_dataset.
Proof.
  assert (Hf : cells_fs !! "data/cells.csv"%string
               = Some (File true (table_bytes (cells_header :: cells_rows))))
    by (vm_compute; reflexivity).
  assert (Hok : Forall line_ok (cells_header :: cells_rows)).
  { repeat (constructor; [split; [repeat constructor; discriminate|discriminate]|]).
    constructor. }
  assert (Hb : (length (table_bytes (cells_header :: cells_rows)) <= highWaterMark)%nat)
    by (apply Nat.leb_le; vm_compute; reflexivity).
  split; [exact Hf|]. split; [exact Hok|]. split; [exact Hb|].
  split; [|vm_compute; reflexivity].
  exact (quoted_cells_are_read_without_quotes cells_fs "data/cells.csv" _ _ Hf Hok Hb).
Defined.

End QuotedFacts.

(** * Datasets and the lines of the file *)

Module DatasetFacts.

Import Node CsvParser CsvText CsvTable CsvLines CsvQuoted CsvLayout Loader.
Import CsvFacts LoaderFacts SizeFacts RowFacts CrlfFacts QuotedFacts.

(** *** Decoding *)

#[local] Arguments byte_in : simpl never.

(** Well-formed UTF-8 is decoded to itself. *)
Lemma utf8_decode_valid_le : forall n (b : Buffer),
  (length b <= n)%nat -> utf8_valid b = true -> utf8_decode b = b.
Proof.
  induction n as [|n IH]; intros b Hl Hv.
  - destruct b; [done|simpl in Hl; lia].
  - destruct b as [|x rest]; [done|]. simpl in Hl.
    cbn [utf8_valid utf8_decode] in Hv |- *.
    destruct (byte_in 0 127 x).
    { f_equal. apply IH; [lia|done]. }
    destruct (byte_in 194 223 x).
    { destruct rest as [|y rest1]; [done|]. simpl in Hl.
      apply andb_true_iff in Hv as [Hy Hv]. rewrite Hy. do 2 f_equal.
      apply IH; [lia|done]. }
    destruct (byte_in 224 239 x).
    { destruct rest as [|y [|z rest2]]; try done. simpl in Hl.
      apply andb_true_iff in Hv as [Hv Hr]. apply andb_true_iff in Hv as [Hy Hz].
      rewrite Hy, Hz. do 3 f_equal. apply IH; [lia|done]. }
    destruct (byte_in 240 244 x); [|done].
    destruct rest as [|y [|z [|t rest3]]]; try done. simpl in Hl.
    apply andb_true_iff in Hv as [Hv Hr]. apply andb_true_iff in Hv as [Hv Ht].
    apply andb_true_iff in Hv as [Hy Hz].
    rewrite Hy, Hz, Ht. do 4 f_equal. apply IH; [lia|done].
Qed.

Lemma buf_toString_valid (b : Buffer) : utf8_valid b = true -> buf_toString b = verbatim b.
Proof.
  intros Hv. unfold buf_toString, verbatim.
  by rewrite (utf8_decode_valid_le (length b) b (le_n _) Hv).
Qed.

Lemma bare_line_one_line l : bare_line l -> one_line l.
Proof. intros Hl. eapply Forall_impl; [exact Hl|]. by intros c (? & ? & ?). Qed.

Lemma fields_cells line : fields line = map buf_toString (cells_of line).
Proof. by destruct line. Qed.

Section Datasets.

Context {rel : release}.

(** *** The files whose lines are read *)

Lemma rows_of_lines_table ls :
  rows_of_lines ls = map (record (lines_table ls).1) (lines_table ls).2.
Proof.
  destruct ls as [|h data]; [done|]. simpl. rewrite map_map.
  apply map_ext. intros l. unfold record. by rewrite !fields_cells.
Qed.

Lemma block_size (b : Buffer) :
  (length b <= highWaterMark)%nat -> buf_length b <= MAX_SAFE_INTEGER.
Proof.
  intros Hb. unfold buf_length.
  apply (Z.le_trans _ (Z.of_nat highWaterMark)); [lia|by vm_compute].
Qed.

(** A file of one of these kinds is loaded as the records of its lines. *)
Lemma load_layout fs p content header rows :
  fs !! p = Some (File true content) ->
  layout content header rows ->
  buf_length content <= MAX_SAFE_INTEGER ->
  load fs p = (Resolved (map (record header) rows), []).
Proof.
  intros Hf Hlay Hmax. destruct Hlay as [content Hp|lines last_line Hl Hlast Hb|h0 rows Hok Hb].
  - rewrite (load_plain _ _ _ Hf Hp Hmax). unfold dataset_of.
    by rewrite rows_of_lines_table.
  - rewrite (load_decode _ _ _ Hf), <- rows_of_lines_table.
    destruct (decide (text_of [cr; nl] lines last_line = [])) as [He|Hne].
    + rewrite He. destruct lines as [|line lines].
      * unfold text_of in He. simpl in He. by subst last_line.
      * unfold text_of in He. simpl in He. by destruct line.
    + rewrite chunks_single by done. by rewrite decode_crlf.
  - rewrite (load_decode _ _ _ Hf).
    rewrite chunks_single;
      [|by rewrite table_bytes_cons; destruct (line_bytes h0)|done].
    rewrite decode_table by done. simpl. do 2 f_equal.
    rewrite map_map. apply map_ext. intros cells. unfold record, line_texts.
    by rewrite !map_map.
Qed.

Lemma resolved_dataset fs p content ds :
  fs !! p = Some (File true content) ->
  load fs p = (Resolved ds, []) ->
  decode defaults (chunks highWaterMark content) = (ds, None).
Proof.
  intros Hf Hl. rewrite (load_decode _ _ _ Hf) in Hl. unfold feed_outcome in Hl.
  destruct (decode defaults _) as [rows [e|]]; [done|]. by injection Hl as ->.
Qed.




(** C7: loading the same unmodified file twice gives two structurally equal
    datasets.  For a file within the row limit of the parser, both calls
    end resolved, with the same dataset, which is what the parser makes of
    the content of the file; the result of the first call is not disturbed
    by the second; and the two datasets are equal in content only: each call
    has an array of its own. *)
Theorem load_twice_same_dataset fs p content (w : world row state) :
  wf w -> w_uncaught w = [] ->
  fs !! p = Some (File true content) ->
  buf_length content <= MAX_SAFE_INTEGER ->
  let a := Loader.readDataFromCSV fs p w in
  let wa := drain a.1 a.2 in
  let b := Loader.readDataFromCSV fs p wa in
  let wb := drain b.1 b.2 in
  exists ds,
    decode defaults (chunks highWaterMark content) = (ds, None) /\
    observe wa a.1 = Resolved ds /\
    observe wb b.1 = Resolved ds /\
    observe wb a.1 = Resolved ds /\
    (forall ca cb, w_calls wb !! a.1 = Some ca -> w_calls wb !! b.1 = Some cb ->
                   c_data ca <> c_data cb).
Proof.
  intros Hw Hu Hf Hmax a wa b wb.
  destruct (feed_bounded defaults (chunks highWaterMark content) (new_state defaults) 0)
    as (ds & Hfe); [done|done|by rewrite concat_chunks|].
  destruct (NodeFacts.load_twice (T := parser) fs p content w Hw Hu Hf)
    as (Ha & Hb & Hab & Hd).
  change (feed t_new (chunks highWaterMark content))
    with (feed (T := csv defaults) (new_state defaults) (chunks highWaterMark content))
    in Ha, Hb, Hab.
  rewrite Hfe in Ha, Hb, Hab.
  exists ds. by repeat split.
Qed.

(** *** A line end cut by the blocks of the file *)

(** The first block ends with the carriage return of the header line: the
    parser takes the carriage return for the line terminator. *)
Lemma transform_cr_block (h : Buffer) :
  bare_line h ->
  buf_length h + 1 <= MAX_SAFE_INTEGER ->
  _transform defaults (new_state defaults) (h ++ [cr])
  = (State false false 1 0 0 false None (fields h) cr, [], None).
Proof.
  intros Hh Hmax. pose proof (buf_length_nonneg h).
  unfold _transform. cbn [prev new_state].
  replace (Z.to_nat (buf_length (h ++ [cr]) - 0)) with (length h + 1)%nat
    by (rewrite buf_length_app; unfold buf_length; simpl; lia).
  rewrite (transform_loop_bare h (h ++ [cr]) [] [cr] 1 0 _ []);
    [|done|done|done|done|done|simpl; lia].
  rewrite buf_length_nil, Z.add_0_l.
  assert (Hlen : (buf_length h <? buf_length (h ++ [cr])) = true).
  { apply Z.ltb_lt. buf_idx. }
  assert (Hlen1 : (buf_length h + 1 <? buf_length (h ++ [cr])) = false).
  { apply Z.ltb_ge. buf_idx. }
  assert (Hget : buf_get (h ++ [cr]) (buf_length h) = Some cr)
    by (by rewrite buf_get_app_r).
  rewrite transform_loop_S, Hlen, Hlen1. cbv zeta. rewrite Hget.
  cbn [set_rowLength set_prev new_state rowLength escaped first quoted prev headers
       cur_newline lineNumber previousEnd newline defaults maxRowBytes escape quote].
  destruct (Z.gtb_spec (0 + buf_length h + 1) MAX_SAFE_INTEGER) as [?|_]; [lia|].
  change (byte_is (Some cr) dquote) with false.
  change (byte_is (Some cr) nl) with false.
  change (byte_is (Some cr) cr) with true.
  change (byte_is None nl) with false.
  change (customNewline defaults) with false.
  cbn [negb andb orb set_newline set_rowLength set_prev set_previousEnd new_state
       previousEnd rowLength escaped first quoted prev headers cur_newline lineNumber
       newline defaults].
  change (byte_is (Some cr) cr) with true. cbv iota.
  pose proof (parseLine_plain (h ++ [cr]) [] h [cr]
                (State false true 0 0 (0 + buf_length h + 1) false None [] cr)
                eq_refl (bare_line_plain _ Hh)) as Hpl.
  rewrite buf_length_nil, !Z.add_0_l in Hpl. rewrite ?Z.add_0_l.
  change (set_newline cr
            (set_rowLength (buf_length h + 1)
               (set_rowLength (buf_length h) (set_prev None (new_state defaults)))))
    with (State false true 0 0 (buf_length h + 1) false None [] cr).
  rewrite Hpl by done. cbn [first set_headers set_lineNumber].
  cbn [transform_loop set_rowLength set_previousEnd previousEnd escaped first lineNumber
       rowLength quoted prev headers cur_newline app].
  replace (buf_length (h ++ [cr])) with (buf_length h + 1) by buf_idx.
  rewrite Z.eqb_refl. reflexivity.
Qed.

(** What follows when the second block starts with the line feed. *)
Lemma feed_lone_lf hs :
  feed (T := csv defaults) (State false false 1 0 0 false None hs cr) [[nl]]
  = ([writeRow hs [lf]], None).
Proof. reflexivity. Qed.

Lemma feed_lf_line hs :
  feed (T := csv defaults) (State false false 1 0 0 false None hs cr)
       [[nl; "1"; cr; nl]%char]
  = ([writeRow hs [lf +:+ "1"]; writeRow hs [lf]]%string, None).
Proof. reflexivity. Qed.

Lemma decode_cr_block (h second : Buffer) :
  bare_line h ->
  buf_length h + 1 <= MAX_SAFE_INTEGER ->
  decode defaults [h ++ [cr]; second]
  = feed (T := csv defaults) (State false false 1 0 0 false None (fields h) cr) [second].
Proof.
  intros Hh Hmax. unfold decode. cbn [feed].
  change (t_transform (new_state defaults) (h ++ [cr]))
    with (_transform defaults (new_state defaults) (h ++ [cr])).
  rewrite (transform_cr_block h Hh Hmax).
  change (t_transform ?s second) with (_transform defaults s second).
  change (t_flush ?s) with (_flush defaults s).
  destruct (_transform defaults _ second) as [[s' rows] [e|]]; [done|].
  by destruct (_flush defaults s').
Qed.

Lemma writeRow_single h v : stored h = true -> writeRow [h] [v] = {[ h := v ]}.
Proof.
  unfold stored, writeRow. intros Hs. simpl.
  apply negb_true_iff, orb_false_iff in Hs as [Hp Hk]. rewrite Hk.
  unfold obj_set. rewrite Hp. apply insert_empty.
Qed.

(** The long header. *)
Lemma long_header_length : S (length long_header) = highWaterMark.
Proof.
  unfold long_header. rewrite length_replicate. unfold highWaterMark. lia.
Qed.

Lemma long_header_bare : bare_line long_header.
Proof. apply Forall_replicate. by repeat split. Qed.

Lemma long_header_cons : exists k, long_header = "a"%char :: replicate k "a"%char.
Proof.
  unfold long_header. exists (highWaterMark - 2)%nat.
  replace (highWaterMark - 1)%nat with (S (highWaterMark - 2))
    by (unfold highWaterMark; lia).
  done.
Qed.

Lemma replicate_valid k : utf8_valid (replicate k "a"%char) = true.
Proof. induction k as [|k IH]; [done|]. simpl. exact IH. Qed.

Lemma long_header_fields : fields long_header = [long_name].
Proof.
  destruct long_header_cons as (k & Hk).
  assert (Hc : cells_of long_header = [long_header]).
  { assert (Hs : split_on comma long_header = [long_header]).
    { unfold split_on. rewrite split_go_segment; [done|].
      apply Forall_replicate. done. }
    unfold cells_of. rewrite Hs. by rewrite Hk. }
  rewrite fields_cells, Hc. cbn [map].
  rewrite (buf_toString_valid long_header) by apply replicate_valid.
  unfold long_name. reflexivity.
Qed.

Lemma long_name_stored : stored long_name = true.
Proof.
  destruct long_header_cons as (k & Hk).
  unfold stored, skipped, long_name, verbatim. rewrite Hk. simpl.
  by destruct guards_prototype.
Qed.

Lemma long_header_size (tail : Buffer) :
  (length tail <= 8)%nat -> buf_length (long_header ++ tail) <= MAX_SAFE_INTEGER.
Proof.
  intros Ht. apply (Z.le_trans _ (Z.of_nat highWaterMark + 8)); [|by vm_compute].
  rewrite buf_length_app. unfold buf_length. pose proof long_header_length. lia.
Qed.

Lemma long_blocks (second : Buffer) :
  second <> [] -> (length second <= highWaterMark)%nat ->
  chunks highWaterMark ((long_header ++ [cr]) ++ second) = [long_header ++ [cr]; second].
Proof.
  intros Hne Hl. rewrite chunks_app_block.
  - by rewrite chunks_single.
  - unfold highWaterMark. lia.
  - rewrite length_app. change (length [cr]) with 1%nat.
    pose proof long_header_length. lia.
Qed.

Lemma decode_long_file :
  decode defaults (chunks highWaterMark long_file) = ([ {[ long_name := lf ]} ], None).
Proof.
  unfold long_file. change [cr; nl] with ([cr] ++ [nl]). rewrite app_assoc.
  rewrite long_blocks; [|done|cbn [length]; unfold highWaterMark; lia].
  rewrite decode_cr_block;
    [|apply long_header_bare|pose proof (long_header_size [cr]); revert H; buf_idx].
  rewrite feed_lone_lf, long_header_fields.
  by rewrite (writeRow_single _ _ long_name_stored).
Qed.

Lemma decode_cut_file :
  decode defaults (chunks highWaterMark cut_file)
  = ([ {[ long_name := lf +:+ "1" ]}; {[ long_name := lf ]} ]%string, None).
Proof.
  unfold cut_file. change ([cr; nl] ++ Loader.bytes "1" ++ [cr; nl])
    with ([cr] ++ [nl; "1"; cr; nl]%char). rewrite app_assoc.
  rewrite long_blocks; [|done|cbn [length]; unfold highWaterMark; lia].
  rewrite decode_cr_block;
    [|apply long_header_bare|pose proof (long_header_size [cr]); revert H; buf_idx].
  rewrite feed_lf_line, long_header_fields.
  by rewrite !(writeRow_single _ _ long_name_stored).
Qed.

Lemma data_lines_after (h : Buffer) :
  Forall (fun x => x <> nl) h ->
  data_lines (h ++ [cr; nl] ++ Loader.bytes "1" ++ [cr; nl]) = [Loader.bytes "1" ++ [cr]].
Proof.
  intros Hh. unfold data_lines, text_lines.
  rewrite split_go_app, (split_go_segment nl h [] []) by done. reflexivity.
Qed.

Lemma cut_file_data_lines : data_lines cut_file = [Loader.bytes "1" ++ [cr]].
Proof. apply data_lines_after, Forall_replicate. done. Qed.

End Datasets.

(** *** The theorems at sample files *)

#[local] Existing Instance latest.


Lemma long_fs_long : long_fs !! "data/long.csv"%string = Some (File true long_file).
Proof.
  unfold lookup, filesystem_lookup, long_fs.
  replace (path_ok "data/long.csv") with true by (vm_compute; reflexivity).
  cbn [fs_nodes]. apply lookup_insert_eq.
Qed.

Lemma long_fs_cut : long_fs !! "data/cut.csv"%string = Some (File true cut_file).
Proof.
  unfold lookup, filesystem_lookup, long_fs.
  replace (path_ok "data/cut.csv") with true by (vm_compute; reflexivity).
  cbn [fs_nodes]. rewrite lookup_insert_ne by done. apply lookup_singleton_eq.
Qed.







Lemma load_twice_same_dataset_witness :
  wf (empty_world (Row := row) (St := state)) /\
  w_uncaught (empty_world (Row := row) (St := state)) = [] /\
  ab_fs !! "data/ab.csv"%string = Some (File true ab_file) /\
  buf_length ab_file <= MAX_SAFE_INTEGER /\
  let a := Loader.readDataFromCSV ab_fs "data/ab.csv" empty_world in
  let wa := drain a.1 a.2 in
  let b := Loader.readDataFromCSV ab_fs "data/ab.csv" wa in
  let wb := drain b.1 b.2 in
  observe wa a.1 = Resolved ab_rows /\
  observe wb b.1 = Resolved ab_rows /\
  observe wb a.1 = Resolved ab_rows /\
  (forall ca cb, w_calls wb !! a.1 = Some ca -> w_calls wb !! b.1 = Some cb ->
                 c_data ca <> c_data cb).
Proof.
  assert (Hf : ab_fs !! "data/ab.csv"%string = Some (File true ab_file))
    by (vm_compute; reflexivity).
  assert (Hm : buf_length ab_file <= MAX_SAFE_INTEGER) by (vm_compute; discriminate).
  assert (Hds : decode defaults (chunks highWaterMark ab_file) = (ab_rows, None))
    by (vm_compute; reflexivity).
  split; [exact NodeFacts.wf_empty|]. split; [reflexivity|]. split; [exact Hf|].
  split; [exact Hm|].
  pose proof (load_twice_same_dataset ab_fs "data/ab.csv" ab_file empty_world
                NodeFacts.wf_empty eq_refl Hf Hm) as Htwice.
  cbv zeta in Htwice. cbv zeta.
  destruct Htwice as (ds & Hd & Ha & Hb & Hab & Hdist).
  rewrite Hds in Hd. injection Hd as <-.
  split; [exact Ha|]. split; [exact Hb|]. split; [exact Hab|]. exact Hdist.
Defined.

End DatasetFacts.

(** * The plumbing with the parser of the loader *)

Module LoaderPlumbing.

Import Node CsvParser CsvText CsvTable Loader Process.

#[local] Existing Instance latest.

Lemma readable_file_settles_witness :
  ab_fs !! "data/ab.csv"%string = Some (File true ab_file) /\
  load ab_fs "data/ab.csv"
  = (feed_outcome (feed (T := parser) t_new (chunks highWaterMark ab_file)), []) /\
  forall w acts,
    wf w ->
    pending_events (exec acts (Loader.readDataFromCSV ab_fs "data/ab.csv" w).2)
                   (Loader.readDataFromCSV ab_fs "data/ab.csv" w).1 = O ->
    observe (exec acts (Loader.readDataFromCSV ab_fs "data/ab.csv" w).2)
            (Loader.readDataFromCSV ab_fs "data/ab.csv" w).1
    = feed_outcome (feed (T := parser) t_new (chunks highWaterMark ab_file)).
Proof.
  assert (Hf : ab_fs !! "data/ab.csv"%string = Some (File true ab_file))
    by (vm_compute; reflexivity).
  split; [exact Hf|].
  exact (PlumbingFacts.readable_file_settles (T := parser) ab_fs "data/ab.csv" _ Hf).
Defined.

Lemma resolved_means_whole_file_read_witness :
  wf (empty_world (Row := row) (St := state)) /\
  observe (exec [Fire 0; Fire 0] (Loader.readDataFromCSV ab_fs "data/ab.csv" empty_world).2)
          (Loader.readDataFromCSV ab_fs "data/ab.csv" empty_world).1
  = Resolved ab_rows /\
  exists content,
    ab_fs !! "data/ab.csv"%string = Some (File true content) /\
    (length (chunks highWaterMark content)
     < fired (Loader.readDataFromCSV ab_fs "data/ab.csv" empty_world).1 [Fire 0; Fire 0])%nat /\
    feed (T := parser) t_new (chunks highWaterMark content) = (ab_rows, None).
Proof.
  assert (Ho : observe
                 (exec [Fire 0; Fire 0]
                    (Loader.readDataFromCSV ab_fs "data/ab.csv" empty_world).2)
                 (Loader.readDataFromCSV ab_fs "data/ab.csv" empty_world).1
               = Resolved ab_rows) by (vm_compute; reflexivity).
  split; [exact NodeFacts.wf_empty|]. split; [exact Ho|].
  exact (PlumbingFacts.resolved_means_whole_file_read (T := parser)
           ab_fs "data/ab.csv" empty_world [Fire 0; Fire 0] ab_rows NodeFacts.wf_empty Ho).
Defined.

Lemma rows_are_only_appended_witness :
  array_of (exec (T := parser) [Invoke ab_fs "data/ab.csv"; Fire 0] empty_world) 0
  = Some ab_rows /\
  exists rows,
    array_of (exec (T := parser) ([Invoke ab_fs "data/ab.csv"; Fire 0] ++ [Fire 0])
                empty_world) 0
    = Some (ab_rows ++ rows).
Proof.
  assert (Ha : array_of
                 (exec (T := parser) [Invoke ab_fs "data/ab.csv"; Fire 0] empty_world) 0
               = Some ab_rows) by (vm_compute; reflexivity).
  split; [exact Ha|].
  exact (PlumbingFacts.rows_are_only_appended (T := parser) _ [Fire 0] 0 _ Ha).
Defined.

End LoaderPlumbing.
